(** * The template engine of ammienyami.com, embedded in Rocq

    Source files covered: [backend/tokenizer.go], [backend/template.go] and
    [backend/json.go].

    Conventions of the embedding.
    - A Go [string] that the program only ever reads through [[]rune(s)] and
      builds through [WriteRune]/[string(rune)] is represented by its rune
      sequence, [list rune], a rune being its code point in [Z].
    - A cursor [i] into a rune slice [runes] is represented by the slice
      [runes[i:]] that is still to be read; [i++] is taking the tail.
    - Go's [int] is the 64-bit signed integer; [row++], [column++] and
      [bracketBalance--] wrap around as the hardware does ([int_wrap]).
    - A Go function returning [(T, error)] returns [res T]; a [panic] is the
      error [Panic]. *)

From Stdlib Require Import ZArith List Lia Bool.
From stdpp Require Import base option list gmap strings.
From Equations Require Import Equations.
Import ListNotations.

Local Open Scope Z_scope.

(** ** Machine integers and runes *)

Definition int_wrap (z : Z) : Z := (z + 2 ^ 63) mod 2 ^ 64 - 2 ^ 63.

Definition int_ok (z : Z) : Prop := - 2 ^ 63 <= z < 2 ^ 63.

Definition rune := Z.

Definition gostring := list rune.

(** [[]rune(s)] for an ASCII literal [s]. *)
Fixpoint runes_of (s : string) : gostring :=
  match s with
  | EmptyString => []
  | String a s' => Z.of_N (Ascii.N_of_ascii a) :: runes_of s'
  end.

Definition r_tab : rune := 9.
Definition r_newline : rune := 10.
Definition r_cr : rune := 13.
Definition r_quote : rune := 34.
Definition r_star : rune := 42.
Definition r_lparen : rune := 40.
Definition r_rparen : rune := 41.
Definition r_comma : rune := 44.
Definition r_dot : rune := 46.
Definition r_slash : rune := 47.
Definition r_backslash : rune := 92.
Definition r_n : rune := 110.
Definition r_r : rune := 114.
Definition r_t : rune := 116.
Definition r_lbrace : rune := 123.
Definition r_rbrace : rune := 125.

(** [unicode.IsSpace] of Go's standard library: the Latin-1 spaces and the
    code points of the Unicode property White_Space. *)
Definition IsSpace (r : rune) : bool :=
  if (0 <=? r) && (r <=? 255) then
    (r =? 9) || (r =? 10) || (r =? 11) || (r =? 12) || (r =? 13) || (r =? 32)
    || (r =? 133) || (r =? 160)
  else
    (r =? 5760) || ((8192 <=? r) && (r <=? 8202)) || (r =? 8232) || (r =? 8233)
    || (r =? 8239) || (r =? 8287) || (r =? 12288).

(** ** Locations, [template.go] lines 19-23 *)

Record Location := { path : gostring; row : Z; column : Z }.

(** The position bookkeeping shared by the three [advance] closures and
    methods: a newline starts a new row at column 1, any other rune moves one
    column to the right. *)
Definition advance_loc (loc : Location) (char : rune) : Location :=
  if char =? r_newline
  then {| path := path loc; row := int_wrap (row loc + 1); column := 1 |}
  else {| path := path loc; row := row loc; column := int_wrap (column loc + 1) |}.

(** The location reached from [loc] once every rune of [rs] was consumed. *)
Fixpoint loc_after (loc : Location) (rs : list rune) : Location :=
  match rs with
  | [] => loc
  | char :: rs' => loc_after (advance_loc loc char) rs'
  end.

(** ** Tokens and errors *)

Inductive TokenKind := TokenKindWord | TokenKindString | TokenKindSingleChar.

Record Token := { kind : TokenKind; value : gostring; location : Location }.

(** The sentinel errors of [template.go] and [tokenizer.go] together with the
    data their formatted message carries. *)
Inductive error :=
| ErrTemplateUnexpectedToken (tok : Token)
| ErrTemplateUnexpectedEof (loc : Location)
| ErrTemplateVariableNotFound (tok : Token)
| ErrTemplateIncorrectArgsCount (tok : Token)
| ErrTemplateUnterminatedCodeBlock (loc : Location)
| ErrTemplateInternalFunctionExecutionError (tok : Token)
| ErrTokenizerUnterminatedString (loc : Location)
| ErrUnclosedComment
| ErrJsonUnmarshal
| ErrInvalidJsonHeader (p : gostring)
| Panic.

Inductive res (A : Type) :=
| Ok (a : A)
| Err (e : error).

Arguments Ok {A} a.
Arguments Err {A} e.

Definition res_bind {A B} (m : res A) (f : A -> res B) : res B :=
  match m with
  | Ok a => f a
  | Err e => Err e
  end.

#[global] Instance res_mbind : MBind res := fun A B f m => res_bind m f.

#[global] Instance res_mret : MRet res := fun A a => Ok a.

#[global] Instance TokenKind_eq_dec : EqDecision TokenKind.
Proof. solve_decision. Defined.

Definition TokenKind_eqb (a b : TokenKind) : bool := bool_decide (a = b).

Definition gostring_eqb (a b : gostring) : bool := bool_decide (a = b).

(** ** The tokenizer, [tokenizer.go] *)

(** [t_runes] is [t.runes[t.cursor:]]. *)
Record Tokenizer := { t_runes : list rune; t_location : Location }.

Definition singleCharTokens : list rune :=
  [r_lparen; r_rparen; r_lbrace; r_rbrace; r_comma].

Definition NewTokenizer (code : gostring) (loc : Location) : Tokenizer :=
  {| t_runes := code; t_location := loc |}.

Definition peek (t : Tokenizer) : option rune := head (t_runes t).

Definition advance (t : Tokenizer) : option rune * Tokenizer :=
  match t_runes t with
  | [] => (None, t)
  | char :: rs =>
      (Some char, {| t_runes := rs; t_location := advance_loc (t_location t) char |})
  end.

Fixpoint skipWhitespace_loop (rs : list rune) (loc : Location) : Tokenizer :=
  match rs with
  | [] => {| t_runes := []; t_location := loc |}
  | char :: rs' =>
      if IsSpace char then skipWhitespace_loop rs' (advance_loc loc char)
      else {| t_runes := rs; t_location := loc |}
  end.

Definition skipWhitespace (t : Tokenizer) : Tokenizer :=
  skipWhitespace_loop (t_runes t) (t_location t).

Definition isSingleChar (r : rune) : bool :=
  existsb (Z.eqb r) singleCharTokens.

(** What the [switch escaped] of a string literal writes to the value. *)
Definition escape_value (escaped : rune) : gostring :=
  if escaped =? r_n then [r_newline]
  else if escaped =? r_t then [r_tab]
  else if escaped =? r_r then [r_cr]
  else if escaped =? r_quote then [r_quote]
  else if escaped =? r_backslash then [r_backslash]
  else [r_backslash; escaped].

(** The [for] loop of a string literal, entered after the opening quote. *)
Fixpoint lexString (rs : list rune) (loc : Location) (val : gostring)
  : res (gostring * Tokenizer) :=
  match rs with
  | [] => Err (ErrTokenizerUnterminatedString loc)
  | c :: rs1 =>
      let loc1 := advance_loc loc c in
      if c =? r_backslash then
        match rs1 with
        | [] => Err (ErrTokenizerUnterminatedString loc1)
        | escaped :: rs2 =>
            lexString rs2 (advance_loc loc1 escaped) (val ++ escape_value escaped)
        end
      else if c =? r_quote then Ok (val, {| t_runes := rs1; t_location := loc1 |})
      else lexString rs1 loc1 (val ++ [c])
  end.

(** The final [for] loop of [NextToken], which reads a word. *)
Fixpoint lexWord (rs : list rune) (loc : Location) (val : gostring)
  : gostring * Tokenizer :=
  match rs with
  | [] => (val, {| t_runes := []; t_location := loc |})
  | char :: rs' =>
      if IsSpace char || isSingleChar char || (char =? r_quote)
      then (val, {| t_runes := rs; t_location := loc |})
      else lexWord rs' (advance_loc loc char) (val ++ [char])
  end.

Definition NextToken (t : Tokenizer) : res (option Token * Tokenizer) :=
  let t := skipWhitespace t in
  match t_runes t with
  | [] => Ok (None, t)
  | char :: rs =>
      let loc := t_location t in
      if isSingleChar char then
        Ok (Some {| kind := TokenKindSingleChar; value := [char]; location := loc |},
            {| t_runes := rs; t_location := advance_loc loc char |})
      else if char =? r_quote then
        '(val, t') ← lexString rs (advance_loc loc char) [];
        Ok (Some {| kind := TokenKindString; value := val; location := loc |}, t')
      else
        let '(val, t') := lexWord (t_runes t) loc [] in
        Ok (Some {| kind := TokenKindWord; value := val; location := loc |}, t')
  end.

Definition IsWord (tok : Token) : bool := TokenKind_eqb (kind tok) TokenKindWord.

Definition IsString (tok : Token) : bool := TokenKind_eqb (kind tok) TokenKindString.

(** [[]rune(tok.value)[0] == r]; a single-character token always carries one
    rune, so the index is in range whenever the left conjunct holds. *)
Definition IsSingleChar (tok : Token) (r : rune) : bool :=
  TokenKind_eqb (kind tok) TokenKindSingleChar
  && match value tok with
     | c :: _ => c =? r
     | [] => false
     end.

(** ** Errors and argument lists, [template.go] lines 43-141 *)

Definition errUnexpectedToken (tok : Token) : error := ErrTemplateUnexpectedToken tok.

Definition errUnexpectedEof (loc : Location) : error := ErrTemplateUnexpectedEof loc.

Definition errVariableNotFound (tok : Token) : error := ErrTemplateVariableNotFound tok.

Definition errIncorrectArgsCount (tok : Token) : error :=
  if TokenKind_eqb (kind tok) TokenKindWord then ErrTemplateIncorrectArgsCount tok
  else Panic.

Definition errTemplateInternalFunctionExecutionError (tok : Token) : error :=
  ErrTemplateInternalFunctionExecutionError tok.

Definition mustNextToken (tokenizer : Tokenizer) (loc : Location)
  : res (Token * Tokenizer) :=
  '(tok, t') ← NextToken tokenizer;
  match tok with
  | None => Err (errUnexpectedEof loc)
  | Some tok => Ok (tok, t')
  end.

(** The unbounded [for] of [parseFunctionArgs]. Every round reads two tokens,
    so the number of rounds is bounded by the number of runes left; [None]
    stands for a loop that has not finished within [fuel] rounds. *)
Fixpoint parseFunctionArgs_loop (fuel : nat) (tokenizer : Tokenizer)
    (loc : Location) (args : list Token) : option (res (list Token * Tokenizer)) :=
  match fuel with
  | O => None
  | S fuel' =>
      match mustNextToken tokenizer loc with
      | Err e => Some (Err e)
      | Ok (tok, t1) =>
          if IsSingleChar tok r_rparen then Some (Ok (args, t1))
          else if negb (IsSingleChar tok r_comma) then Some (Err (errUnexpectedToken tok))
          else
            match mustNextToken t1 loc with
            | Err e => Some (Err e)
            | Ok (tok', t2) =>
                if IsSingleChar tok' r_rparen || IsSingleChar tok' r_comma
                then Some (Err (errUnexpectedToken tok'))
                else parseFunctionArgs_loop fuel' t2 loc (args ++ [tok'])
            end
      end
  end.

Definition parseFunctionArgs (tokenizer : Tokenizer) (loc : Location)
  : option (res (list Token * Tokenizer)) :=
  match mustNextToken tokenizer loc with
  | Err e => Some (Err e)
  | Ok (tok, t1) =>
      if negb (IsSingleChar tok r_lparen) then Some (Err (errUnexpectedToken tok))
      else
        match mustNextToken t1 loc with
        | Err e => Some (Err e)
        | Ok (tok', t2) =>
            if IsSingleChar tok' r_rparen then Some (Ok ([], t2))
            else if IsSingleChar tok' r_comma then Some (Err (errUnexpectedToken tok'))
            else parseFunctionArgs_loop (S (length (t_runes t2))) t2 loc [tok']
        end
  end.

(** ** Go's [path] package

    [path.Ext], [path.Clean] and [path.Join] belong to Go's standard library;
    they are transcribed from the library's algorithm so that the directive
    below can be evaluated. The library works on bytes; slash and dot are
    ASCII, so working on runes gives the same result. *)

(** [for i := len(path)-1; i >= 0 && path[i] != '/'; i--]: [rev_path] is
    [path[:i+1]] reversed and [suffix] is [path[i+1:]]. *)
Fixpoint path_Ext_loop (rev_path : list rune) (suffix : gostring) : gostring :=
  match rev_path with
  | [] => []
  | c :: rev_path' =>
      if c =? r_slash then []
      else if c =? r_dot then c :: suffix
      else path_Ext_loop rev_path' (c :: suffix)
  end.

Definition path_Ext (p : gostring) : gostring := path_Ext_loop (rev p) [].

(** The backtracking of a [..] element: [rev_out] is the buffer [buf[:w]]
    reversed, [removed] is [buf[w]]. *)
Fixpoint path_Clean_backtrack (rev_out : list rune) (removed : rune) (dotdot : nat)
  : list rune :=
  match rev_out with
  | [] => []
  | c :: rev_out' =>
      if (dotdot <? length rev_out)%nat && negb (removed =? r_slash)
      then path_Clean_backtrack rev_out' c dotdot
      else rev_out
  end.

(** Copying one path element up to the next slash. *)
Fixpoint path_Clean_copy (p : list rune) (rev_out : list rune) : list rune * list rune :=
  match p with
  | [] => ([], rev_out)
  | c :: p' =>
      if c =? r_slash then (p, rev_out) else path_Clean_copy p' (c :: rev_out)
  end.

(** The main loop of [path.Clean]; [p] is [path[r:]] and [rev_out] the output
    buffer reversed. One round consumes at least one rune of [p], so as many
    rounds as [p] has runes are enough. *)
Fixpoint path_Clean_loop (fuel : nat) (rooted : bool) (p : list rune)
    (rev_out : list rune) (dotdot : nat) : list rune :=
  match fuel, p with
  | O, _ | _, [] => rev_out
  | S fuel', c :: p1 =>
      let is_end (l : list rune) :=
        match l with
        | [] => true
        | d :: _ => d =? r_slash
        end in
      let is_dot (l : list rune) :=
        match l with
        | [] => false
        | d :: _ => d =? r_dot
        end in
      if c =? r_slash then path_Clean_loop fuel' rooted p1 rev_out dotdot
      else if (c =? r_dot) && is_end p1 then path_Clean_loop fuel' rooted p1 rev_out dotdot
      else if (c =? r_dot) && is_dot p1 && is_end (tail p1) then
        match rev_out with
        | last :: rev_out' =>
            if (dotdot <? length rev_out)%nat
            then path_Clean_loop fuel' rooted (tail p1)
                   (path_Clean_backtrack rev_out' last dotdot) dotdot
            else if negb rooted
            then path_Clean_loop fuel' rooted (tail p1)
                   (r_dot :: r_dot :: r_slash :: rev_out) (length rev_out + 3)%nat
            else path_Clean_loop fuel' rooted (tail p1) rev_out dotdot
        | [] =>
            if negb rooted
            then path_Clean_loop fuel' rooted (tail p1) [r_dot; r_dot] 2%nat
            else path_Clean_loop fuel' rooted (tail p1) rev_out dotdot
        end
      else
        let rev_out1 :=
          if (rooted && negb (length rev_out =? 1)%nat)
             || (negb rooted && negb (length rev_out =? 0)%nat)
          then r_slash :: rev_out else rev_out in
        let '(p', rev_out2) := path_Clean_copy p rev_out1 in
        path_Clean_loop fuel' rooted p' rev_out2 dotdot
  end.

Definition path_Clean (p : gostring) : gostring :=
  match p with
  | [] => [r_dot]
  | c :: p1 =>
      let rev_out :=
        if c =? r_slash
        then path_Clean_loop (length p) true p1 [r_slash] 1%nat
        else path_Clean_loop (length p) false p [] 0%nat in
      match rev_out with
      | [] => [r_dot]
      | _ => rev rev_out
      end
  end.

Fixpoint path_Join_loop (elem : list gostring) (buf : gostring) : gostring :=
  match elem with
  | [] => buf
  | e :: elem' =>
      if (0 <? length buf)%nat || negb (gostring_eqb e [])
      then path_Join_loop elem'
             ((if (0 <? length buf)%nat then buf ++ [r_slash] else buf) ++ e)
      else path_Join_loop elem' buf
  end.

Definition path_Join (elem : list gostring) : gostring :=
  if (length (concat elem) =? 0)%nat then []
  else path_Clean (path_Join_loop elem []).

(** ** The collaborators of a render

    [ReadDir] is [os.ReadDir] reduced to the entry names ([None] when the
    directory cannot be listed); [Intn k n] is the value returned by the
    [k]-th call of [rand.Intn] of the render when its argument is [n]. *)
Record World := {
  ReadDir : gostring -> option (list gostring);
  Intn : nat -> Z -> Z
}.

(** What [rand.Intn] guarantees for a positive argument. *)
Definition rand_ok (w : World) : Prop :=
  forall k n, 0 < n -> 0 <= Intn w k n < n.

(** ** The directive evaluator, [template.go] lines 25-257 *)

Record TemplateContext := {
  StaticDir : gostring;
  Content : gostring;
  Variables : gmap gostring gostring
}.

Inductive TemplatePortion :=
| TemplateTextPortion (text : gostring)
| TemplateCodePortion (ctx : TemplateContext) (loc : Location) (code : gostring).

Definition renderVar (ctx : TemplateContext) (loc : Location)
    (tokenizer : Tokenizer) (funcTok : Token) : option (res gostring) :=
  r ← parseFunctionArgs tokenizer loc;
  Some ('(args, _) ← r;
        match args with
        | [varNameToken] =>
            if negb (TokenKind_eqb (kind varNameToken) TokenKindString)
            then Err (errUnexpectedToken varNameToken)
            else
              let varName := value varNameToken in
              match Variables ctx !! varName with
              | None => Err (errVariableNotFound varNameToken)
              | Some val => Ok val
              end
        | _ => Err (errIncorrectArgsCount funcTok)
        end).

Definition renderContent (ctx : TemplateContext) (loc : Location)
    (tokenizer : Tokenizer) (funcTok : Token) : option (res gostring) :=
  r ← parseFunctionArgs tokenizer loc;
  Some ('(args, _) ← r;
        match args with
        | [] => Ok (Content ctx)
        | _ => Err (errIncorrectArgsCount funcTok)
        end).

(** The [for _, e := range dirEntries] loop that collects the file names. *)
Fixpoint collect_files (ext : gostring) (dirEntries : list gostring)
    (files : list gostring) : list gostring :=
  match dirEntries with
  | [] => files
  | name :: dirEntries' =>
      if negb (gostring_eqb ext []) && gostring_eqb (path_Ext name) ext
      then collect_files ext dirEntries' files
      else collect_files ext dirEntries' (files ++ [name])
  end.

(** The body of the directive once [dirPath] and [ext] are known; [draw] counts
    the calls of [rand.Intn] made so far. *)
Definition chooseFile (w : World) (ctx : TemplateContext) (funcTok : Token)
    (dirPath ext : gostring) (draw : nat) : res (gostring * nat) :=
  match ReadDir w (path_Join [StaticDir ctx; path_Clean dirPath]) with
  | None => Err (errTemplateInternalFunctionExecutionError funcTok)
  | Some dirEntries =>
      let files := collect_files ext dirEntries [] in
      if (length files <? 1)%nat
      then Err (errTemplateInternalFunctionExecutionError funcTok)
      else
        let chosenIndex := Intn w draw (Z.of_nat (length files)) in
        if (chosenIndex <? 0) || (Z.of_nat (length files) <=? chosenIndex)
        then Err Panic
        else
          match files !! Z.to_nat chosenIndex with
          | None => Err Panic
          | Some randomFile =>
              Ok (path_Join [[r_slash]; StaticDir ctx; dirPath; randomFile], S draw)
          end
  end.

Definition renderChooseRandomTopLevelFileFromStaticPath (w : World)
    (ctx : TemplateContext) (loc : Location) (tokenizer : Tokenizer)
    (funcTok : Token) (draw : nat) : option (res (gostring * nat)) :=
  r ← parseFunctionArgs tokenizer loc;
  Some ('(args, _) ← r;
        match args with
        | [dirPathToken] =>
            if negb (TokenKind_eqb (kind dirPathToken) TokenKindString)
            then Err (errUnexpectedToken dirPathToken)
            else chooseFile w ctx funcTok (value dirPathToken) [] draw
        | [dirPathToken; extToken] =>
            if negb (TokenKind_eqb (kind dirPathToken) TokenKindString)
            then Err (errUnexpectedToken dirPathToken)
            else if negb (TokenKind_eqb (kind extToken) TokenKindString)
            then Err (errUnexpectedToken extToken)
            else chooseFile w ctx funcTok (value dirPathToken) (value extToken) draw
        | _ => Err (errIncorrectArgsCount funcTok)
        end).

Definition word_var : gostring := runes_of "var".
Definition word_content : gostring := runes_of "content".
Definition word_choose : gostring := runes_of "chooseRandomTopLevelFileFromStaticPath".

(** [TemplateCodePortion.Render]. *)
Definition CodePortion_Render (w : World) (ctx : TemplateContext) (loc : Location)
    (code : gostring) (draw : nat) : option (res (gostring * nat)) :=
  let tokenizer := NewTokenizer code loc in
  match NextToken tokenizer with
  | Err e => Some (Err e)
  | Ok (None, _) => Some (Err (errUnexpectedEof loc))
  | Ok (Some tok, tokenizer) =>
      if IsWord tok && gostring_eqb (value tok) word_var then
        r ← renderVar ctx loc tokenizer tok; Some (s ← r; Ok (s, draw))
      else if IsWord tok && gostring_eqb (value tok) word_content then
        r ← renderContent ctx loc tokenizer tok; Some (s ← r; Ok (s, draw))
      else if IsWord tok && gostring_eqb (value tok) word_choose then
        renderChooseRandomTopLevelFileFromStaticPath w ctx loc tokenizer tok draw
      else Some (Err (errUnexpectedToken tok))
  end.

(** The [Render] method of the [TemplatePortion] interface. *)
Definition Portion_Render (w : World) (portion : TemplatePortion) (draw : nat)
  : option (res (gostring * nat)) :=
  match portion with
  | TemplateTextPortion text => Some (Ok (text, draw))
  | TemplateCodePortion ctx loc code => CodePortion_Render w ctx loc code draw
  end.

(** ** Templates, [template.go] lines 259-357 *)

Record Template := { portions : list TemplatePortion }.

(** The local variables of [NewTemplateFromString] that its loop updates. *)
Record Compiler := {
  c_location : Location;
  c_accumulatedText : gostring;
  c_codeMode : bool;
  c_codeModeLocation : Location;
  c_portions : list TemplatePortion
}.

(** The [for i < len(runes)] loop; [rs] is [runes[i:]]. *)
Fixpoint compile_loop (codeCtx : TemplateContext) (s : Compiler) (rs : list rune)
  : Compiler :=
  match rs with
  | [] => s
  | char :: rs1 =>
      let loc1 := advance_loc (c_location s) char in
      if char =? r_backslash then
        match rs1 with
        | [] =>
            {| c_location := loc1;
               c_accumulatedText := c_accumulatedText s ++ [char];
               c_codeMode := c_codeMode s;
               c_codeModeLocation := c_codeModeLocation s;
               c_portions := c_portions s |}
        | next :: rs2 =>
            compile_loop codeCtx
              {| c_location := advance_loc loc1 next;
                 c_accumulatedText := c_accumulatedText s ++ [next];
                 c_codeMode := c_codeMode s;
                 c_codeModeLocation := c_codeModeLocation s;
                 c_portions := c_portions s |} rs2
        end
      else if (char =? r_lbrace) && negb (c_codeMode s) then
        compile_loop codeCtx
          {| c_location := loc1;
             c_accumulatedText := [];
             c_codeMode := true;
             c_codeModeLocation := loc1;
             c_portions := c_portions s ++ [TemplateTextPortion (c_accumulatedText s)] |}
          rs1
      else if (char =? r_rbrace) && c_codeMode s then
        compile_loop codeCtx
          {| c_location := loc1;
             c_accumulatedText := [];
             c_codeMode := false;
             c_codeModeLocation := c_codeModeLocation s;
             c_portions :=
               c_portions s
               ++ [TemplateCodePortion codeCtx (c_codeModeLocation s) (c_accumulatedText s)] |}
          rs1
      else
        compile_loop codeCtx
          {| c_location := loc1;
             c_accumulatedText := c_accumulatedText s ++ [char];
             c_codeMode := c_codeMode s;
             c_codeModeLocation := c_codeModeLocation s;
             c_portions := c_portions s |} rs1
  end.

Definition compile_start (initialLocation : Location) : Compiler :=
  {| c_location := initialLocation;
     c_accumulatedText := [];
     c_codeMode := false;
     c_codeModeLocation := {| path := []; row := 0; column := 0 |};
     c_portions := [] |}.

(** What [NewTemplateFromString] does after its loop. *)
Definition compile_finish (s : Compiler) : res Template :=
  if c_codeMode s then
    Err (ErrTemplateUnterminatedCodeBlock
           {| path := path (c_codeModeLocation s);
              row := row (c_codeModeLocation s);
              column := int_wrap (column (c_codeModeLocation s) - 1) |})
  else if negb (gostring_eqb (c_accumulatedText s) []) then
    Ok {| portions := c_portions s ++ [TemplateTextPortion (c_accumulatedText s)] |}
  else Ok {| portions := c_portions s |}.

Definition NewTemplateFromString (initialLocation : Location)
    (textContent : gostring) (codeCtx : TemplateContext) : res Template :=
  compile_finish (compile_loop codeCtx (compile_start initialLocation) textContent).

(** The loop of [Template.Render]; [builder] is the text written so far. *)
Fixpoint Render_loop (w : World) (ps : list TemplatePortion) (builder : gostring)
    (draw : nat) : option (res (gostring * nat)) :=
  match ps with
  | [] => Some (Ok (builder, draw))
  | portion :: ps' =>
      match Portion_Render w portion draw with
      | None => None
      | Some (Err e) => Some (Err e)
      | Some (Ok (renderedPortion, draw')) =>
          Render_loop w ps' (builder ++ renderedPortion) draw'
      end
  end.

Definition Template_Render (w : World) (t : Template) (draw : nat)
  : option (res (gostring * nat)) :=
  Render_loop w (portions t) [] draw.

(** ** JSON with comments, [json.go] *)

(** The inner loop of a [//] comment: [l] is [jsonRunes[i:]]. *)
Fixpoint skip_line_comment (l : list rune) : list rune :=
  match l with
  | [] => []
  | d :: l' => if (d =? r_newline) || (d =? r_cr) then l else skip_line_comment l'
  end.

(** The inner loop of a block comment; [None] is the [Unclosed comment] exit. *)
Fixpoint skip_block_comment (l : list rune) : option (list rune) :=
  match l with
  | [] => None
  | a :: l' =>
      match l' with
      | [] => None
      | b :: l'' =>
          if (a =? r_star) && (b =? r_slash) then Some l'' else skip_block_comment l'
      end
  end.

(** The first [if] of a round: an unescaped quote flips [inString]. *)
Definition json_inString (c : rune) (inString escaped : bool) : bool :=
  if (c =? r_quote) && negb escaped then negb inString else inString.

(** [if c == '\\' && inString { escaped = !escaped } else { escaped = false }],
    where [inString] is the value just updated. *)
Definition json_escaped (c : rune) (inString escaped : bool) : bool :=
  if (c =? r_backslash) && inString then negb escaped else false.

Definition inspect {A} (a : A) : {b | a = b} := exist _ a eq_refl.

(** The [for i := 0; i < len(jsonRunes);] loop; [rs] is [jsonRunes[i:]]. The
    loop jumps over whole comments, so it recurses on the number of runes
    left. *)
Equations? removeComments_loop (rs : list rune) (inString escaped : bool)
    (builder : gostring) : res gostring by wf (length rs) lt :=
removeComments_loop [] _ _ builder := Ok builder;
removeComments_loop [c] inString escaped builder :=
  let inString' := json_inString c inString escaped in
  removeComments_loop [] inString' (json_escaped c inString' escaped) (builder ++ [c]);
removeComments_loop (c :: next :: rs2) inString escaped builder
  with negb (json_inString c inString escaped) && (c =? r_slash) := {
  | false :=
      let inString' := json_inString c inString escaped in
      removeComments_loop (next :: rs2) inString' (json_escaped c inString' escaped)
        (builder ++ [c]);
  | true with next =? r_slash := {
    | true :=
        let inString' := json_inString c inString escaped in
        removeComments_loop (skip_line_comment rs2) inString'
          (json_escaped c inString' escaped) builder;
    | false with next =? r_star := {
      | false :=
          let inString' := json_inString c inString escaped in
          removeComments_loop (next :: rs2) inString'
            (json_escaped c inString' escaped) (builder ++ [c]);
      | true with inspect (skip_block_comment rs2) := {
        | exist _ None _ := Err ErrUnclosedComment;
        | exist _ (Some rest) Hrest :=
            let inString' := json_inString c inString escaped in
            removeComments_loop rest inString' (json_escaped c inString' escaped)
              builder } } } }.
Proof.
  all: simpl; try lia.
  - clear. induction rs2 as [|d l IH]; simpl; [lia|].
    destruct (_ || _); simpl in *; lia.
  - clear - Hrest. revert rest Hrest.
    induction rs2 as [|a l IH]; simpl; [discriminate|].
    destruct l as [|b l]; [discriminate|].
    intros rest. destruct (_ && _).
    + intros [= <-]. simpl. lia.
    + intros H. apply IH in H. simpl in *. lia.
Qed.

Definition removeCommentsFromJson (json : gostring) : res gostring :=
  removeComments_loop json false false [].

(** ** Page data, [template.go] lines 359-465 *)

(** The three scanner variables of the header loop. *)
Record HeaderScan := {
  h_bracketBalance : Z;
  h_inString : bool;
  h_escaped : bool
}.

(** The [if escaped ... else if inString ... else ...] of one round. *)
Definition header_step (st : HeaderScan) (r : rune) : HeaderScan :=
  if h_escaped st then
    {| h_bracketBalance := h_bracketBalance st; h_inString := h_inString st;
       h_escaped := false |}
  else if h_inString st then
    if r =? r_backslash then
      {| h_bracketBalance := h_bracketBalance st; h_inString := h_inString st;
         h_escaped := true |}
    else if r =? r_quote then
      {| h_bracketBalance := h_bracketBalance st; h_inString := false;
         h_escaped := h_escaped st |}
    else st
  else
    if r =? r_quote then
      {| h_bracketBalance := h_bracketBalance st; h_inString := true;
         h_escaped := h_escaped st |}
    else if r =? r_lbrace then
      {| h_bracketBalance := int_wrap (h_bracketBalance st + 1);
         h_inString := h_inString st; h_escaped := h_escaped st |}
    else if r =? r_rbrace then
      {| h_bracketBalance := int_wrap (h_bracketBalance st - 1);
         h_inString := h_inString st; h_escaped := h_escaped st |}
    else st.

(** The first [for i < len(runes)] loop of [NewTemplateInputFromString]: the
    header written so far, and on exit the runes left and the location. *)
Fixpoint header_loop (st : HeaderScan) (rs : list rune) (loc : Location)
    (jsonHeader : gostring) : gostring * (list rune * Location) :=
  match rs with
  | [] => (jsonHeader, ([], loc))
  | r :: rs' =>
      let st' := header_step st r in
      let jsonHeader' := jsonHeader ++ [r] in
      let loc' := advance_loc loc r in
      if negb (h_inString st') && (h_bracketBalance st' =? 0)
      then (jsonHeader', (rs', loc'))
      else header_loop st' rs' loc' jsonHeader'
  end.

Definition header_start : HeaderScan :=
  {| h_bracketBalance := 0; h_inString := false; h_escaped := false |}.

(** The header text and the body text of a page-data file. *)
Definition split_header (initialLocation : Location) (textContent : gostring)
  : gostring * (list rune * Location) :=
  header_loop header_start textContent initialLocation [].

Record TemplateInput := {
  variables : gmap gostring gostring;
  content : Template
}.

Definition sentinel_content : gostring := runes_of "[content()]".

Section PageData.

(** [json.Unmarshal] into a [map[string]string], from Go's standard
    library; [None] is a decoding error. *)
Variable json_Unmarshal : gostring -> option (gmap gostring gostring).

Definition UnmarshalJsonWithComments (s : gostring) : res (gmap gostring gostring) :=
  sWithoutComments ← removeCommentsFromJson s;
  match json_Unmarshal sWithoutComments with
  | None => Err ErrJsonUnmarshal
  | Some v => Ok v
  end.

Definition NewTemplateInputFromString (initialLocation : Location)
    (textContent : gostring) (staticDir : gostring) : res TemplateInput :=
  let '(jsonHeader, (rest, loc)) := split_header initialLocation textContent in
  match UnmarshalJsonWithComments jsonHeader with
  | Err _ => Err (ErrInvalidJsonHeader (path initialLocation))
  | Ok templateInputVariables =>
      t ← NewTemplateFromString loc rest
            {| StaticDir := staticDir;
               Content := sentinel_content;
               Variables := templateInputVariables |};
      Ok {| variables := templateInputVariables; content := t |}
  end.

End PageData.

(** ** Paths that are already clean *)

(** A path element that [path.Clean] keeps: not empty, no slash inside, and
    neither [.] nor [..]. *)
Definition simple_name (c : gostring) : Prop :=
  c <> [] /\ (r_slash ∉ c) /\ c <> [r_dot] /\ c <> [r_dot; r_dot].

Fixpoint join_slash (cs : list gostring) : gostring :=
  match cs with
  | [] => []
  | c :: cs' =>
      match cs' with
      | [] => c
      | _ => c ++ r_slash :: join_slash cs'
      end
  end.

(** A relative path made of simple names separated by single slashes. *)
Definition clean_relative (p : gostring) : Prop :=
  exists cs, cs <> [] /\ Forall simple_name cs /\ p = join_slash cs.

(** ** Reading a template text by its braces and escapes

    These functions describe a template text on its own terms, without the
    compiler's state, to state what the compiler does with it. *)

(** Whether the reader, having started inside ([inside = true]) or outside a
    code block, is inside one after [rs]; [None] when [rs] ends on a backslash
    that escapes nothing. A left brace opens a block only outside a block, a
    right brace closes one only inside. *)
Fixpoint ends_in (inside : bool) (rs : list rune) : option bool :=
  match rs with
  | [] => Some inside
  | c :: rs1 =>
      if c =? r_backslash then
        match rs1 with
        | [] => None
        | _ :: rs2 => ends_in inside rs2
        end
      else if (c =? r_lbrace) && negb inside then ends_in true rs1
      else if (c =? r_rbrace) && inside then ends_in false rs1
      else ends_in inside rs1
  end.

(** No backslash of [rs] is left without the character it escapes. *)
Fixpoint escapes_complete (rs : list rune) : bool :=
  match rs with
  | [] => true
  | c :: rs1 =>
      if c =? r_backslash then
        match rs1 with
        | [] => false
        | _ :: rs2 => escapes_complete rs2
        end
      else escapes_complete rs1
  end.

(** [rs] holds no unescaped right brace. *)
Fixpoint no_unescaped_close (rs : list rune) : bool :=
  match rs with
  | [] => true
  | c :: rs1 =>
      if c =? r_backslash then
        match rs1 with
        | [] => true
        | _ :: rs2 => no_unescaped_close rs2
        end
      else if c =? r_rbrace then false
      else no_unescaped_close rs1
  end.

(** [rs] holds no unescaped left brace. *)
Fixpoint no_unescaped_open (rs : list rune) : bool :=
  match rs with
  | [] => true
  | c :: rs1 =>
      if c =? r_backslash then
        match rs1 with
        | [] => true
        | _ :: rs2 => no_unescaped_open rs2
        end
      else if c =? r_lbrace then false
      else no_unescaped_open rs1
  end.

(** [rs] with its escapes resolved: a backslash is dropped and the character
    after it kept; a backslash at the very end stays. *)
Fixpoint resolve_escapes (rs : list rune) : gostring :=
  match rs with
  | [] => []
  | c :: rs1 =>
      if c =? r_backslash then
        match rs1 with
        | [] => [c]
        | next :: rs2 => next :: resolve_escapes rs2
        end
      else c :: resolve_escapes rs1
  end.

(** The inside of a string literal written without any escape. *)
Definition plain_string (s : list rune) : bool :=
  forallb (fun c => negb (c =? r_backslash) && negb (c =? r_quote)) s.

(** Code text free of backslashes and right braces. *)
Definition plain_code (rs : list rune) : bool :=
  forallb (fun c => negb (c =? r_backslash) && negb (c =? r_rbrace)) rs.

(** [loc] is the location right after a left brace that opens a code block
    of [read]: the text before that brace is read from outside any block and
    ends outside one. *)
Definition opened_at (initialLocation : Location) (read : list rune) (loc : Location)
  : Prop :=
  exists pre rest,
    read = pre ++ r_lbrace :: rest
    /\ ends_in false pre = Some false
    /\ loc = advance_loc (loc_after initialLocation pre) r_lbrace.

(** A code portion compiled from [read] carries the compiler's context and the
    location right after its opening brace. *)
Definition code_portion_ok (initialLocation : Location) (read : list rune)
    (codeCtx : TemplateContext) (p : TemplatePortion) : Prop :=
  match p with
  | TemplateTextPortion _ => True
  | TemplateCodePortion ctx loc _ => ctx = codeCtx /\ opened_at initialLocation read loc
  end.

(** The compiler's invariant: once [read] is consumed, the location is the one
    reached after [read], the mode is the one [ends_in] predicts, the recorded
    block location is right after the brace that opened the current block, and
    so is the location of every code portion emitted so far. *)
Record compiler_inv (init : Location) (ctx : TemplateContext) (read : list rune)
    (s : Compiler) : Prop := {
  inv_location : c_location s = loc_after init read;
  inv_mode : ends_in false read = Some (c_codeMode s);
  inv_block : c_codeMode s = true -> opened_at init read (c_codeModeLocation s);
  inv_portions : Forall (code_portion_ok init read ctx) (c_portions s)
}.

(** ** The block a code portion comes from *)

(** The number of left braces of [rs] that open a code block, for a reader
    that starts inside ([inside = true]) or outside one; the reader is the one
    of [ends_in]. *)
Fixpoint blocks_opened (inside : bool) (rs : list rune) : nat :=
  match rs with
  | [] => 0%nat
  | c :: rs1 =>
      if c =? r_backslash then
        match rs1 with
        | [] => 0%nat
        | _ :: rs2 => blocks_opened inside rs2
        end
      else if (c =? r_lbrace) && negb inside then S (blocks_opened true rs1)
      else if (c =? r_rbrace) && inside then blocks_opened false rs1
      else blocks_opened inside rs1
  end.

(** The number of code portions of [ps]. *)
Fixpoint code_count (ps : list TemplatePortion) : nat :=
  match ps with
  | [] => 0%nat
  | TemplateTextPortion _ :: ps' => code_count ps'
  | TemplateCodePortion _ _ _ :: ps' => S (code_count ps')
  end.

(** The code portion with location [loc] and code [code], standing after the
    portions [before], comes from a block of [read]: the block is opened by a
    left brace that stands outside any block, after a prefix [pre] in which as
    many blocks are opened as [before] holds code portions; [raw] is the text
    of the block up to the right brace that closes it, [code] is [raw] with
    its escapes resolved and [loc] is the position right after the opening
    brace. *)
Definition from_block (initialLocation : Location) (read : list rune)
    (before : list TemplatePortion) (loc : Location) (code : gostring) : Prop :=
  exists pre raw rest,
    read = pre ++ r_lbrace :: raw ++ r_rbrace :: rest
    /\ ends_in false pre = Some false
    /\ blocks_opened false pre = code_count before
    /\ escapes_complete raw = true
    /\ no_unescaped_close raw = true
    /\ code = resolve_escapes raw
    /\ loc = advance_loc (loc_after initialLocation pre) r_lbrace.

(** What the compiler knows of the block it is inside. *)
Definition in_block (initialLocation : Location) (read : list rune) (s : Compiler)
  : Prop :=
  exists pre raw,
    read = pre ++ r_lbrace :: raw
    /\ ends_in false pre = Some false
    /\ blocks_opened false pre = code_count (c_portions s)
    /\ escapes_complete raw = true
    /\ no_unescaped_close raw = true
    /\ c_accumulatedText s = resolve_escapes raw
    /\ c_codeModeLocation s = advance_loc (loc_after initialLocation pre) r_lbrace.

(** The compiler's invariant on blocks: once [read] is consumed on an escape
    boundary, every code portion emitted so far comes from its block, in
    order, and the block being read, if any, is the next one. *)
Record block_inv (init : Location) (ctx : TemplateContext) (read : list rune)
    (s : Compiler) : Prop := {
  binv_location : c_location s = loc_after init read;
  binv_mode : ends_in false read = Some (c_codeMode s);
  binv_outside :
    c_codeMode s = false -> blocks_opened false read = code_count (c_portions s);
  binv_inside : c_codeMode s = true -> in_block init read s;
  binv_portions :
    forall k ctx' loc code,
      c_portions s !! k = Some (TemplateCodePortion ctx' loc code) ->
      ctx' = ctx /\ from_block init read (take k (c_portions s)) loc code
}.

(** ** The brace-balance scanner in the specification's words

    The states are [Normal], [InString] and [Escaped]; [Escaped] lasts one
    character and is entered from [InString] on a backslash; a quote moves
    between [Normal] and [InString]; the depth moves on braces in [Normal]
    only. *)

Inductive ScanMode := Normal | InString | Escaped.

Definition scanner_step (st : ScanMode * Z) (r : rune) : ScanMode * Z :=
  match st with
  | (Escaped, depth) => (InString, depth)
  | (InString, depth) =>
      if r =? r_backslash then (Escaped, depth)
      else if r =? r_quote then (Normal, depth)
      else (InString, depth)
  | (Normal, depth) =>
      if r =? r_quote then (InString, depth)
      else if r =? r_lbrace then (Normal, depth + 1)
      else if r =? r_rbrace then (Normal, depth - 1)
      else (Normal, depth)
  end.

Definition scanner_run (rs : list rune) : ScanMode * Z :=
  fold_left scanner_step rs (Normal, 0).

(** The terminal condition: depth zero while not inside a string. *)
Definition is_terminal (st : ScanMode * Z) : bool :=
  match st with
  | (Normal, depth) => depth =? 0
  | _ => false
  end.

(** The scanner state that the three variables of the header loop stand for. *)
Definition header_abs (st : HeaderScan) : ScanMode * Z :=
  (if h_escaped st then Escaped else if h_inString st then InString else Normal,
   h_bracketBalance st).

(** What the loop keeps true of its variables after [read]: they stand for the
    specification's scanner state, [escaped] is only set inside a string, and
    the balance is bounded by the number of runes read. *)
Record header_inv (read : list rune) (st : HeaderScan) : Prop := {
  hinv_abs : header_abs st = scanner_run read;
  hinv_escaped : h_escaped st = true -> h_inString st = true;
  hinv_bound : Z.abs (h_bracketBalance st) <= Z.of_nat (length read)
}.

(** ** JSON text by its strings and comments *)

(** The inside of a JSON string literal: runes other than the quote and the
    backslash, and backslashes each followed by the rune they escape. *)
Fixpoint string_body (s : list rune) : bool :=
  match s with
  | [] => true
  | c :: s1 =>
      if c =? r_backslash then
        match s1 with
        | [] => false
        | _ :: s2 => string_body s2
        end
      else if c =? r_quote then false
      else string_body s1
  end.

(** The text of a line comment: no newline and no carriage return. *)
Definition line_body (l : list rune) : bool :=
  forallb (fun d => negb ((d =? r_newline) || (d =? r_cr))) l.

(** What may follow a line comment: the end of the text or a line break. *)
Definition ends_line (rest : list rune) : bool :=
  match rest with
  | [] => true
  | d :: _ => (d =? r_newline) || (d =? r_cr)
  end.

(** The text of a block comment: a star is never followed by a slash. *)
Fixpoint block_body (l : list rune) : bool :=
  match l with
  | [] => true
  | a :: l' =>
      match l' with
      | [] => true
      | b :: _ => negb ((a =? r_star) && (b =? r_slash)) && block_body l'
      end
  end.

(** ** Sample data used to exercise the definitions *)

Module Sample.

Definition page : Location := {| path := runes_of "index.template.html"; row := 1; column := 1 |}.

Definition ctx : TemplateContext :=
  {| StaticDir := runes_of "static";
     Content := runes_of "<p>body</p>";
     Variables := {[ runes_of "title" := runes_of "Hi {content()}" ]} |}.

(** A static directory whose [img] folder holds [README] and [a.png]; the
    random source always answers 0. *)
Definition world : World :=
  {| ReadDir := fun p =>
       if gostring_eqb p (runes_of "static/img")
       then Some [runes_of "README"; runes_of "a.png"] else None;
     Intn := fun _ _ => 0 |}.

Definition quoted (s : gostring) : gostring := [r_quote] ++ s ++ [r_quote].

(** The code text [var('title')], the quotes being double quotes. *)
Definition code_var : gostring := runes_of "var(" ++ quoted (runes_of "title") ++ runes_of ")".

(** The code text [content(x)]. *)
Definition code_content_x : gostring := runes_of "content(x)".

(** The template text [{var('a\'b')}], each ['] being a double quote: the
    string literal holds an escaped quote. *)
Definition text_escaped_quote : gostring :=
  runes_of "{var(" ++ [r_quote] ++ runes_of "a" ++ [r_backslash; r_quote]
  ++ runes_of "b" ++ [r_quote] ++ runes_of ")}".

(** The code text [var('a'b')], the same without the backslash. *)
Definition code_bare_quote : gostring :=
  runes_of "var(" ++ [r_quote] ++ runes_of "a" ++ [r_quote]
  ++ runes_of "b" ++ [r_quote] ++ runes_of ")".

(** A page-data file: the header object maps [a] to the string holding a
    right brace, and the body is [B]. *)
Definition text_page : gostring :=
  runes_of "{" ++ quoted (runes_of "a") ++ runes_of ":" ++ quoted (runes_of "}")
  ++ runes_of "}B".

(** The header object that maps [title] to a string starting with two
    slashes. *)
Definition header_title : gostring :=
  runes_of "{" ++ quoted (runes_of "title") ++ runes_of ":"
  ++ quoted (runes_of "//not a comment inside string") ++ runes_of "}".

(** The template text [{x}]. *)
Definition text_block_x : gostring := runes_of "{x}".

(** [chooseRandomTopLevelFileFromStaticPath] applied to the string literal
    [img] and the empty string literal. *)
Definition code_choose_empty_ext : gostring :=
  word_choose ++ runes_of "(" ++ quoted (runes_of "img") ++ runes_of ", "
  ++ quoted [] ++ runes_of ")".

(** [chooseRandomTopLevelFileFromStaticPath] applied to the string literals
    [img] and [.png]. *)
Definition code_choose_png : gostring :=
  word_choose ++ runes_of "(" ++ quoted (runes_of "img") ++ runes_of ", "
  ++ quoted (runes_of ".png") ++ runes_of ")".

End Sample.

(** ** Text written so that it reads back

    The two escapers below do not occur in the source; they state that every
    string value has a literal and every text a template that give it back. *)

(** What ends a word: white space, a single-character token, a quote. *)
Definition is_delimiter (c : rune) : bool :=
  IsSpace c || isSingleChar c || (c =? r_quote).

(** One rune of a string value, written inside a string literal. *)
Definition escape_rune (c : rune) : gostring :=
  if c =? r_newline then [r_backslash; r_n]
  else if c =? r_tab then [r_backslash; r_t]
  else if c =? r_cr then [r_backslash; r_r]
  else if c =? r_quote then [r_backslash; r_quote]
  else if c =? r_backslash then [r_backslash; r_backslash]
  else [c].

Fixpoint escape_string (v : gostring) : gostring :=
  match v with
  | [] => []
  | c :: v' => escape_rune c ++ escape_string v'
  end.

(** A text written as template text: backslashes and braces are escaped. *)
Fixpoint escape_template (s : gostring) : gostring :=
  match s with
  | [] => []
  | c :: s' =>
      if (c =? r_backslash) || (c =? r_lbrace) || (c =? r_rbrace)
      then r_backslash :: c :: escape_template s'
      else c :: escape_template s'
  end.

(** A portion list that takes turns, a text portion being due first when
    [text_next] holds. *)
Fixpoint alternating (text_next : bool) (ps : list TemplatePortion) : bool :=
  match ps with
  | [] => true
  | TemplateTextPortion _ :: ps' => text_next && alternating false ps'
  | TemplateCodePortion _ _ _ :: ps' => negb text_next && alternating true ps'
  end.

Definition is_text_portion (p : TemplatePortion) : bool :=
  match p with
  | TemplateTextPortion _ => true
  | TemplateCodePortion _ _ _ => false
  end.

(** The string-literal argument list [s1, s2, ...] as it is written between
    the parentheses. *)
Fixpoint literal_list (ss : list gostring) : gostring :=
  match ss with
  | [] => []
  | s :: ss' =>
      match ss' with
      | [] => r_quote :: s ++ [r_quote]
      | _ => r_quote :: s ++ r_quote :: r_comma :: 32 :: literal_list ss'
      end
  end.

(** [s] holds no unescaped quote: read after an opening quote, it never
    closes the string literal. *)
Fixpoint no_unescaped_quote (s : list rune) : bool :=
  match s with
  | [] => true
  | c :: s1 =>
      if c =? r_backslash then
        match s1 with
        | [] => true
        | _ :: s2 => no_unescaped_quote s2
        end
      else if c =? r_quote then false
      else no_unescaped_quote s1
  end.

(** ** Go's [strings] package, as far as [main.go] uses it *)

(** [s] without the leading [prefix], when it has it. *)
Fixpoint cut_prefix (prefix s : gostring) : option gostring :=
  match prefix with
  | [] => Some s
  | p :: prefix' =>
      match s with
      | [] => None
      | c :: s' => if c =? p then cut_prefix prefix' s' else None
      end
  end.

Definition strings_HasPrefix (s prefix : gostring) : bool :=
  match cut_prefix prefix s with
  | Some _ => true
  | None => false
  end.

Definition strings_TrimPrefix (s prefix : gostring) : gostring :=
  match cut_prefix prefix s with
  | Some s' => s'
  | None => s
  end.

Definition strings_TrimSuffix (s suffix : gostring) : gostring :=
  match cut_prefix (rev suffix) (rev s) with
  | Some s' => rev s'
  | None => s
  end.

(** [strings.SplitN(s, sep, 2)] for the one-rune separator [sep]: the text
    before the first separator and the text after it, or [s] alone. *)
Fixpoint strings_SplitN2 (s : gostring) (sep : rune) : list gostring :=
  match s with
  | [] => [[]]
  | c :: s' =>
      if c =? sep then [[]; s']
      else
        match strings_SplitN2 s' sep with
        | [before; after] => [c :: before; after]
        | _ => [s]
        end
  end.

(** ** The request handling, [main.go]

    The lines the handlers print to standard output are not part of the
    embedding; its subject is the response. *)

(** The package variables set from the command line. *)
Record Config := {
  pagesDir : gostring;
  templatesDir : gostring;
  defaultTemplate : gostring;
  staticDir : gostring
}.

(** The files of the server: [Stat p] tells whether [os.Stat] succeeds on [p],
    [ReadFile p] is the content [os.ReadFile] returns, as runes, or [None]
    when it fails. *)
Record Files := {
  Stat : gostring -> bool;
  ReadFile : gostring -> option gostring
}.

(** What a handler writes to its [http.ResponseWriter]: the status, the
    [Content-Type] header and the body. The [X-Content-Type-Options] header,
    the same on every answer, is left out. *)
Record Response := {
  status : Z;
  contentType : gostring;
  body : gostring
}.

(** [http.Error] of Go's standard library: a plain-text response holding the
    message and a line break. *)
Definition http_Error (msg : gostring) (code : Z) : Response :=
  {| status := code;
     contentType := runes_of "text/plain; charset=utf-8";
     body := msg ++ [r_newline] |}.

Definition StatusOK : Z := 200.
Definition StatusNotFound : Z := 404.
Definition StatusInternalServerError : Z := 500.

Definition msg_not_found : gostring := runes_of "Not found (404)".
Definition msg_internal : gostring := runes_of "Internal server error (500)".

Definition removeFirstPathComponent (p : gostring) : gostring :=
  let p := path_Clean p in
  let p := strings_TrimPrefix p [r_slash] in
  match strings_SplitN2 p r_slash with
  | [_; second] => r_slash :: second
  | _ => [r_slash]
  end.

Definition fileExists (fs : Files) (p : gostring) : bool := Stat fs p.

Definition removeExtension (filename : gostring) : gostring :=
  let ext := path_Ext filename in
  strings_TrimSuffix filename ext.

(** The errors of the two file readers: the file cannot be read, or its
    content is refused. *)
Inductive file_error :=
| ErrReadTemplateFile (p : gostring)
| ErrReadTemplateInputFile (p : gostring)
| ErrInFile (e : error).

Definition NewTemplateFromFile (fs : Files) (p : gostring) (codeCtx : TemplateContext)
  : file_error + Template :=
  match ReadFile fs p with
  | None => inl (ErrReadTemplateFile p)
  | Some contentBytes =>
      match NewTemplateFromString {| path := p; row := 1; column := 1 |}
              contentBytes codeCtx with
      | Err e => inl (ErrInFile e)
      | Ok t => inr t
      end
  end.

Section Server.

Variable json_Unmarshal : gostring -> option (gmap gostring gostring).

Definition NewTemplateInputFromFile (fs : Files) (p : gostring) (staticDir : gostring)
  : file_error + TemplateInput :=
  match ReadFile fs p with
  | None => inl (ErrReadTemplateInputFile p)
  | Some contentBytes =>
      match NewTemplateInputFromString json_Unmarshal
              {| path := p; row := 1; column := 1 |} contentBytes staticDir with
      | Err e => inl (ErrInFile e)
      | Ok t => inr t
      end
  end.

(** [TemplateInput.Render]. *)
Definition TemplateInput_Render (w : World) (templateInput : TemplateInput)
    (draw : nat) : option (res (gostring * nat)) :=
  Template_Render w (content templateInput) draw.

(** [serveTemplateFile]: the response written for the page file
    [templatePath]; the calls of [rand.Intn] are counted from [draw]. *)
Definition serveTemplateFile (cfg : Config) (fs : Files) (w : World)
    (templatePath : gostring) (draw : nat) : option Response :=
  if negb (fileExists fs templatePath)
  then Some (http_Error msg_not_found StatusNotFound)
  else
    match NewTemplateInputFromFile fs templatePath (staticDir cfg) with
    | inl _ => Some (http_Error msg_internal StatusInternalServerError)
    | inr templateInput =>
        match TemplateInput_Render w templateInput draw with
        | None => None
        | Some (Err _) => Some (http_Error msg_internal StatusInternalServerError)
        | Some (Ok (templateInputContent, draw')) =>
            match NewTemplateFromFile fs
                    (path_Join [templatesDir cfg; defaultTemplate cfg])
                    {| StaticDir := staticDir cfg;
                       Content := templateInputContent;
                       Variables := variables templateInput |} with
            | inl _ => Some (http_Error msg_internal StatusInternalServerError)
            | inr template =>
                match Template_Render w template draw' with
                | None => None
                | Some (Err _) =>
                    Some (http_Error msg_internal StatusInternalServerError)
                | Some (Ok (renderedTemplate, _)) =>
                    Some {| status := StatusOK;
                            contentType := runes_of "text/html; charset=utf-8";
                            body := renderedTemplate ++ [r_newline] |}
                end
            end
        end
    end.

(** The handler registered for [/]; [urlPath] is [r.URL.Path]. *)
Definition handleRoot (cfg : Config) (fs : Files) (w : World) (urlPath : gostring)
    (draw : nat) : option Response :=
  if negb (gostring_eqb urlPath [r_slash])
  then Some (http_Error msg_not_found StatusNotFound)
  else
    serveTemplateFile cfg fs w
      (path_Join [pagesDir cfg; runes_of "index.template.html"]) draw.

(** The path the handler registered for [/pages/] asks for; on the systems the
    server is built for, [filepath.Clean] and [filepath.Join] are [path.Clean]
    and [path.Join]. *)
Definition requestedTemplatePath (cfg : Config) (urlPath : gostring) : gostring :=
  path_Clean
    (path_Join [pagesDir cfg;
                removeExtension (removeFirstPathComponent urlPath)
                ++ runes_of ".template.html"]).

Definition handlePages (cfg : Config) (fs : Files) (w : World) (urlPath : gostring)
    (draw : nat) : option Response :=
  if negb (strings_HasPrefix (requestedTemplatePath cfg urlPath)
             (path_Clean (pagesDir cfg ++ [r_slash])))
  then Some (http_Error msg_not_found StatusNotFound)
  else serveTemplateFile cfg fs w (requestedTemplatePath cfg urlPath) draw.

End Server.

(** ** Where an error points

    The location an error message starts with: the location of the token it
    quotes or the location it was given. The two errors of [json.go] and a
    panic carry none. *)
Definition error_location (e : error) : option Location :=
  match e with
  | ErrTemplateUnexpectedToken tok
  | ErrTemplateVariableNotFound tok
  | ErrTemplateIncorrectArgsCount tok
  | ErrTemplateInternalFunctionExecutionError tok => Some (location tok)
  | ErrTemplateUnexpectedEof loc
  | ErrTemplateUnterminatedCodeBlock loc
  | ErrTokenizerUnterminatedString loc => Some loc
  | ErrUnclosedComment | ErrJsonUnmarshal | ErrInvalidJsonHeader _ | Panic => None
  end.

(** The error names the file [p]. *)
Definition error_in_file (p : gostring) (e : error) : Prop :=
  exists l, error_location e = Some l /\ path l = p.

(** ** A sample site *)

Module Site.

Definition cfg : Config :=
  {| pagesDir := runes_of "pages";
     templatesDir := runes_of "templates";
     defaultTemplate := runes_of "default-template.html";
     staticDir := runes_of "static" |}.

(** The page file: an empty header object and the body [Hello \{you\}]. *)
Definition index_page : gostring := runes_of "{}Hello \{you\}".

(** The text before and after the one code block of the default template. *)
Definition wrapper_pre : gostring := runes_of "<main>".
Definition wrapper_post : gostring := runes_of "</main>".

(** The default template [<main>{content()}</main>]. *)
Definition wrapper : gostring :=
  wrapper_pre ++ r_lbrace :: runes_of "content()" ++ r_rbrace :: wrapper_post.

(** The two files of the site. *)
Definition files : Files :=
  {| Stat := fun p => gostring_eqb p (runes_of "pages/index.template.html");
     ReadFile := fun p =>
       if gostring_eqb p (runes_of "pages/index.template.html")
       then Some index_page
       else if gostring_eqb p (runes_of "templates/default-template.html")
       then Some wrapper
       else None |}.

(** A decoder that knows the empty object only. *)
Definition decode (s : gostring) : option (gmap gostring gostring) :=
  if gostring_eqb s (runes_of "{}") then Some ∅ else None.

(** The code text of two spaces and [var(x)]. *)
Definition code_spaced : gostring := runes_of "  var(x)".

(** A tokenizer standing at the argument list [(a, b) tail]. *)
Definition at_args : Tokenizer :=
  {| t_runes := runes_of "(a, b) tail"; t_location := Sample.page |}.

(** A tokenizer standing at the argument list [(a] that is never closed. *)
Definition at_open_args : Tokenizer :=
  {| t_runes := runes_of "(a"; t_location := Sample.page |}.

(** The template text [a{b}\{c\}]. *)
Definition text_mixed : gostring := runes_of "a{b}\{c\}".

(** The header objects [{/*c*/}] and [{/*c]. *)
Definition json_comment : gostring := runes_of "{/*c*/}".
Definition json_open_comment : gostring := runes_of "{/*c".

(** The template text of [{a}], two line breaks and [xx{b}]: the second
    block opens in row 3, column 3. *)
Definition text_two_blocks : gostring :=
  runes_of "{a}" ++ [r_newline; r_newline] ++ runes_of "xx{b}".

End Site.

(** * Properties *)

(** ** Machine integers and locations *)

Lemma int_wrap_ok z : int_ok (int_wrap z).
Proof.
  unfold int_ok, int_wrap.
  pose proof (Z.mod_pos_bound (z + 2 ^ 63) (2 ^ 64) ltac:(lia)). lia.
Qed.

Lemma int_wrap_id z : int_ok z -> int_wrap z = z.
Proof.
  unfold int_ok, int_wrap. intros H.
  rewrite Z.mod_small by lia. lia.
Qed.

(** Incrementing and then decrementing a column gives it back, also across
    the wrap-around. *)
Lemma int_wrap_succ_pred z : int_ok z -> int_wrap (int_wrap (z + 1) - 1) = z.
Proof.
  unfold int_ok, int_wrap. intros H.
  destruct (Z.eq_dec z (2 ^ 63 - 1)) as [->|Hne].
  - reflexivity.
  - rewrite (Z.mod_small (z + 1 + 2 ^ 63)) by lia.
    rewrite Z.mod_small by lia. lia.
Qed.

Lemma path_advance_loc loc c : path (advance_loc loc c) = path loc.
Proof. unfold advance_loc. destruct (c =? r_newline); reflexivity. Qed.

Lemma loc_after_app a : forall loc b,
  loc_after loc (a ++ b) = loc_after (loc_after loc a) b.
Proof. induction a as [|c a IH]; intros loc b; simpl; [reflexivity|apply IH]. Qed.

Lemma path_loc_after rs : forall loc, path (loc_after loc rs) = path loc.
Proof.
  induction rs as [|c rs IH]; intros loc; simpl; [reflexivity|].
  rewrite IH. apply path_advance_loc.
Qed.

Lemma column_advance_loc_ok loc c : int_ok (column (advance_loc loc c)).
Proof.
  unfold advance_loc. destruct (c =? r_newline); simpl.
  - unfold int_ok. lia.
  - apply int_wrap_ok.
Qed.

Lemma column_loc_after_ok rs :
  forall loc, int_ok (column loc) -> int_ok (column (loc_after loc rs)).
Proof.
  induction rs as [|c rs IH]; intros loc H; simpl; [exact H|].
  apply IH, column_advance_loc_ok.
Qed.

(** ** The tokenizer consumes its input *)

Lemma skipWhitespace_loop_length rs :
  forall loc, (length (t_runes (skipWhitespace_loop rs loc)) <= length rs)%nat.
Proof.
  induction rs as [|c rs IH]; intros loc; simpl; [lia|].
  destruct (IsSpace c); simpl; [|lia].
  specialize (IH (advance_loc loc c)). lia.
Qed.

Lemma lexString_length rs :
  forall loc val v t,
    lexString rs loc val = Ok (v, t) -> (length (t_runes t) < length rs)%nat.
Proof.
  induction rs as [rs IH] using (induction_ltof1 _ (@length rune)).
  unfold ltof in IH. intros loc val v t.
  destruct rs as [|c rs1]; simpl; [discriminate|].
  destruct (c =? r_backslash).
  - destruct rs1 as [|e rs2]; [discriminate|].
    intros H. apply IH in H; simpl in *; lia.
  - destruct (c =? r_quote).
    + intros [= <- <-]. simpl. lia.
    + intros H. apply IH in H; simpl in *; lia.
Qed.

Lemma lexWord_length rs :
  forall loc val, (length (t_runes (lexWord rs loc val).2) <= length rs)%nat.
Proof.
  induction rs as [|c rs IH]; intros loc val; simpl; [lia|].
  destruct (_ || _); simpl; [lia|].
  specialize (IH (advance_loc loc c) (val ++ [c])). lia.
Qed.

Lemma skipWhitespace_loop_head rs :
  forall loc c rs' loc',
    skipWhitespace_loop rs loc = {| t_runes := c :: rs'; t_location := loc' |} ->
    IsSpace c = false.
Proof.
  induction rs as [|d rs IH]; intros loc c rs' loc'; simpl; [discriminate|].
  destruct (IsSpace d) eqn:Hd.
  - apply IH.
  - intros H. injection H as <- <- <-. exact Hd.
Qed.

(** A token is never empty: reading one shortens the input. *)
Lemma NextToken_length t tok t' :
  NextToken t = Ok (Some tok, t') ->
  (length (t_runes t') < length (t_runes t))%nat.
Proof.
  unfold NextToken, skipWhitespace.
  pose proof (skipWhitespace_loop_length (t_runes t) (t_location t)) as Hs.
  destruct (skipWhitespace_loop (t_runes t) (t_location t)) as [rs loc] eqn:E.
  simpl in *. destruct rs as [|c rs]; [discriminate|].
  destruct (isSingleChar c) eqn:Hsc.
  - intros [= <- <-]. simpl in *. lia.
  - destruct (c =? r_quote) eqn:Hq.
    + destruct (lexString rs (advance_loc loc c) []) as [[v t1]|e] eqn:El;
        simpl; [|discriminate].
      intros [= <- <-]. apply lexString_length in El. simpl in *. lia.
    + apply skipWhitespace_loop_head in E. simpl. rewrite E, Hsc, Hq. simpl.
      pose proof (lexWord_length rs (advance_loc loc c) [c]) as Hw.
      destruct (lexWord rs (advance_loc loc c) [c]) as [v t1].
      intros [= <- <-]. simpl in *. lia.
Qed.

Lemma mustNextToken_length t loc tok t' :
  mustNextToken t loc = Ok (tok, t') ->
  (length (t_runes t') < length (t_runes t))%nat.
Proof.
  unfold mustNextToken.
  destruct (NextToken t) as [[[tk|] t1]|e] eqn:E; simpl; try discriminate.
  intros [= <- <-]. eapply NextToken_length, E.
Qed.

(** The argument loop finishes within the fuel it is started with. *)
Lemma parseFunctionArgs_loop_fuel fuel :
  forall t loc args,
    (length (t_runes t) < fuel)%nat ->
    is_Some (parseFunctionArgs_loop fuel t loc args).
Proof.
  induction fuel as [|fuel IH]; intros t loc args Hlen; [lia|].
  simpl.
  destruct (mustNextToken t loc) as [[tok t1]|e] eqn:E1; [|eauto].
  destruct (IsSingleChar tok r_rparen); [eauto|].
  destruct (negb (IsSingleChar tok r_comma)); [eauto|].
  destruct (mustNextToken t1 loc) as [[tok' t2]|e] eqn:E2; [|eauto].
  destruct (_ || _); [eauto|].
  apply IH.
  apply mustNextToken_length in E1, E2. lia.
Qed.

Lemma parseFunctionArgs_total t loc : is_Some (parseFunctionArgs t loc).
Proof.
  unfold parseFunctionArgs.
  destruct (mustNextToken t loc) as [[tok t1]|e]; [|eauto].
  destruct (negb _); [eauto|].
  destruct (mustNextToken t1 loc) as [[tok' t2]|e]; [|eauto].
  destruct (IsSingleChar tok' r_rparen); [eauto|].
  destruct (IsSingleChar tok' r_comma); [eauto|].
  apply parseFunctionArgs_loop_fuel. lia.
Qed.

(** More fuel does not change the outcome of the argument loop. *)
Lemma parseFunctionArgs_loop_mono fuel :
  forall fuel' t loc args r,
    parseFunctionArgs_loop fuel t loc args = Some r ->
    (fuel <= fuel')%nat ->
    parseFunctionArgs_loop fuel' t loc args = Some r.
Proof.
  induction fuel as [|fuel IH]; intros fuel' t loc args r; simpl; [discriminate|].
  intros H Hle. destruct fuel' as [|fuel']; [lia|]. simpl.
  destruct (mustNextToken t loc) as [[tok t1]|e]; [|exact H].
  destruct (IsSingleChar tok r_rparen); [exact H|].
  destruct (negb (IsSingleChar tok r_comma)); [exact H|].
  destruct (mustNextToken t1 loc) as [[tok' t2]|e]; [|exact H].
  destruct (_ || _); [exact H|].
  apply IH; [exact H|lia].
Qed.

(** ** The directives [var] and [content] *)

Lemma errIncorrectArgsCount_word tok :
  IsWord tok = true -> errIncorrectArgsCount tok = ErrTemplateIncorrectArgsCount tok.
Proof. unfold IsWord, errIncorrectArgsCount. intros ->. reflexivity. Qed.

Lemma TokenKind_eqb_true a b : TokenKind_eqb a b = true <-> a = b.
Proof. unfold TokenKind_eqb. apply bool_decide_eq_true. Qed.

Lemma TokenKind_eqb_false a b : TokenKind_eqb a b = false <-> a <> b.
Proof. unfold TokenKind_eqb. apply bool_decide_eq_false. Qed.

Lemma gostring_eqb_true a b : gostring_eqb a b = true <-> a = b.
Proof. unfold gostring_eqb. apply bool_decide_eq_true. Qed.

Lemma gostring_eqb_false a b : gostring_eqb a b = false <-> a <> b.
Proof. unfold gostring_eqb. apply bool_decide_eq_false. Qed.

Lemma gostring_eqb_refl a : gostring_eqb a a = true.
Proof. apply gostring_eqb_true. reflexivity. Qed.

(** A code block whose first token is the word [var] is evaluated by
    [renderVar] and leaves the random source untouched. *)
Lemma CodePortion_Render_var w ctx loc code draw funcTok t1 :
  NextToken (NewTokenizer code loc) = Ok (Some funcTok, t1) ->
  IsWord funcTok = true ->
  value funcTok = word_var ->
  CodePortion_Render w ctx loc code draw =
  (r ← renderVar ctx loc t1 funcTok; Some (s ← r; Ok (s, draw))).
Proof.
  intros Htok Hw Hv. unfold CodePortion_Render.
  rewrite Htok, Hw, Hv, gostring_eqb_refl. reflexivity.
Qed.

Lemma CodePortion_Render_content w ctx loc code draw funcTok t1 :
  NextToken (NewTokenizer code loc) = Ok (Some funcTok, t1) ->
  IsWord funcTok = true ->
  value funcTok = word_content ->
  CodePortion_Render w ctx loc code draw =
  (r ← renderContent ctx loc t1 funcTok; Some (s ← r; Ok (s, draw))).
Proof.
  intros Htok Hw Hv. unfold CodePortion_Render.
  rewrite Htok, Hw, Hv. reflexivity.
Qed.

(** C1. For a code block that invokes [var] with a well-formed parenthesized
    argument list [args]: an argument count other than one fails with the
    incorrect-argument-count error on the directive's token; a single argument
    that is not a string literal fails with the unexpected-token error on that
    argument; a string literal that is no key of the context's variables fails
    with the variable-not-found error; otherwise the result is the mapped
    value itself, which is neither tokenized nor expanded again. *)
Theorem var_directive_contract w ctx loc code draw funcTok t1 args t2 :
  NextToken (NewTokenizer code loc) = Ok (Some funcTok, t1) ->
  IsWord funcTok = true ->
  value funcTok = word_var ->
  parseFunctionArgs t1 loc = Some (Ok (args, t2)) ->
  (length args <> 1%nat ->
   CodePortion_Render w ctx loc code draw
   = Some (Err (ErrTemplateIncorrectArgsCount funcTok)))
  /\ (forall a, args = [a] -> kind a <> TokenKindString ->
      CodePortion_Render w ctx loc code draw
      = Some (Err (ErrTemplateUnexpectedToken a)))
  /\ (forall a, args = [a] -> kind a = TokenKindString ->
      Variables ctx !! value a = None ->
      CodePortion_Render w ctx loc code draw
      = Some (Err (ErrTemplateVariableNotFound a)))
  /\ (forall a v, args = [a] -> kind a = TokenKindString ->
      Variables ctx !! value a = Some v ->
      CodePortion_Render w ctx loc code draw = Some (Ok (v, draw))).
Proof.
  intros Htok Hw Hv Hargs.
  rewrite (CodePortion_Render_var w ctx loc code draw funcTok t1 Htok Hw Hv).
  unfold renderVar. rewrite Hargs. simpl.
  repeat split.
  - intros Hlen. destruct args as [|a [|b args]]; simpl in *;
      rewrite ?errIncorrectArgsCount_word by exact Hw; try reflexivity.
    lia.
  - intros a -> Hk. apply TokenKind_eqb_false in Hk. rewrite Hk. reflexivity.
  - intros a -> Hk Hlook. apply TokenKind_eqb_true in Hk. rewrite Hk. simpl.
    rewrite Hlook. reflexivity.
  - intros a v -> Hk Hlook. apply TokenKind_eqb_true in Hk. rewrite Hk. simpl.
    rewrite Hlook. reflexivity.
Qed.

(** C2. For a code block that invokes [content] with a well-formed
    parenthesized argument list [args]: a non-empty list fails with the
    incorrect-argument-count error on the directive's token, an empty list
    returns the context's [Content] unchanged. *)
Theorem content_directive_contract w ctx loc code draw funcTok t1 args t2 :
  NextToken (NewTokenizer code loc) = Ok (Some funcTok, t1) ->
  IsWord funcTok = true ->
  value funcTok = word_content ->
  parseFunctionArgs t1 loc = Some (Ok (args, t2)) ->
  (args <> [] ->
   CodePortion_Render w ctx loc code draw
   = Some (Err (ErrTemplateIncorrectArgsCount funcTok)))
  /\ (args = [] ->
      CodePortion_Render w ctx loc code draw = Some (Ok (Content ctx, draw))).
Proof.
  intros Htok Hw Hv Hargs.
  rewrite (CodePortion_Render_content w ctx loc code draw funcTok t1 Htok Hw Hv).
  unfold renderContent. rewrite Hargs. simpl. split.
  - intros Hne. destruct args as [|a args]; [congruence|]. simpl.
    rewrite errIncorrectArgsCount_word by exact Hw. reflexivity.
  - intros ->. reflexivity.
Qed.

Ltac by_eval := lazy; reflexivity.

(** The contract of [var] at [Sample.code_var] in the sample context. *)
Lemma var_directive_witness :
  exists funcTok t1 args t2,
    NextToken (NewTokenizer Sample.code_var Sample.page) = Ok (Some funcTok, t1)
    /\ IsWord funcTok = true
    /\ value funcTok = word_var
    /\ parseFunctionArgs t1 Sample.page = Some (Ok (args, t2))
    /\ CodePortion_Render Sample.world Sample.ctx Sample.page Sample.code_var 0
       = Some (Ok (runes_of "Hi {content()}", 0%nat)).
Proof.
  do 4 eexists.
  split; [by_eval|]. split; [by_eval|]. split; [by_eval|]. split; [by_eval|].
  edestruct (var_directive_contract Sample.world Sample.ctx Sample.page
               Sample.code_var 0) as (_ & _ & _ & H);
    [by_eval | by_eval | by_eval | by_eval |].
  eapply H; by_eval.
Defined.

(** The contract of [content] at [content(x)] in the sample context. *)
Lemma content_directive_witness :
  exists funcTok t1 args t2,
    NextToken (NewTokenizer Sample.code_content_x Sample.page) = Ok (Some funcTok, t1)
    /\ IsWord funcTok = true
    /\ value funcTok = word_content
    /\ parseFunctionArgs t1 Sample.page = Some (Ok (args, t2))
    /\ CodePortion_Render Sample.world Sample.ctx Sample.page Sample.code_content_x 0
       = Some (Err (ErrTemplateIncorrectArgsCount funcTok)).
Proof.
  do 4 eexists.
  split; [by_eval|]. split; [by_eval|]. split; [by_eval|]. split; [by_eval|].
  edestruct (content_directive_contract Sample.world Sample.ctx Sample.page
               Sample.code_content_x 0) as (H & _);
    [by_eval | by_eval | by_eval | by_eval |].
  apply H. discriminate.
Defined.

(** What [renderVar] returns for a single string-literal argument that is a
    key of the variables. *)
Lemma var_directive_literal_args w ctx loc code draw funcTok t1 args t2 :
  NextToken (NewTokenizer code loc) = Ok (Some funcTok, t1) ->
  IsWord funcTok = true ->
  value funcTok = word_var ->
  parseFunctionArgs t1 loc = Some (Ok (args, t2)) ->
  forall a v, args = [a] -> kind a = TokenKindString ->
    Variables ctx !! value a = Some v ->
    CodePortion_Render w ctx loc code draw = Some (Ok (v, draw)).
Proof.
  intros Htok Hw Hv Hargs a v -> Hk Hlook.
  rewrite (CodePortion_Render_var w ctx loc code draw funcTok t1 Htok Hw Hv).
  unfold renderVar. rewrite Hargs. simpl.
  apply TokenKind_eqb_true in Hk. rewrite Hk. simpl. rewrite Hlook. reflexivity.
Qed.

(** A string literal without escapes is read as it is written. *)
Lemma lexString_plain s :
  forall rest loc val,
    plain_string s = true ->
    lexString (s ++ r_quote :: rest) loc val
    = Ok (val ++ s,
          {| t_runes := rest; t_location := loc_after loc (s ++ [r_quote]) |}).
Proof.
  induction s as [|c s IH]; intros rest loc val.
  - intros _. simpl. rewrite app_nil_r. reflexivity.
  - cbn [plain_string forallb]. intros H.
    apply andb_prop in H as [Hc Hs]. apply andb_prop in Hc as [Hb Hq].
    apply negb_true_iff in Hb, Hq.
    change ((c :: s) ++ r_quote :: rest) with (c :: s ++ r_quote :: rest).
    cbn [lexString]. rewrite Hb, Hq. rewrite IH by exact Hs.
    rewrite <- app_assoc. reflexivity.
Qed.

Lemma NextToken_string s rest loc :
  plain_string s = true ->
  NextToken {| t_runes := r_quote :: s ++ r_quote :: rest; t_location := loc |}
  = Ok (Some {| kind := TokenKindString; value := s; location := loc |},
        {| t_runes := rest;
           t_location := loc_after (advance_loc loc r_quote) (s ++ [r_quote]) |}).
Proof.
  intros Hs. unfold NextToken, skipWhitespace. cbn [t_runes t_location].
  cbn [skipWhitespace_loop]. change (IsSpace r_quote) with false. cbn iota.
  cbn [t_runes t_location]. change (isSingleChar r_quote) with false.
  change (r_quote =? r_quote) with true. cbn iota.
  rewrite lexString_plain by exact Hs. reflexivity.
Qed.

Lemma NextToken_single c rs loc :
  IsSpace c = false ->
  isSingleChar c = true ->
  NextToken {| t_runes := c :: rs; t_location := loc |}
  = Ok (Some {| kind := TokenKindSingleChar; value := [c]; location := loc |},
        {| t_runes := rs; t_location := advance_loc loc c |}).
Proof.
  intros Hsp Hsc. unfold NextToken, skipWhitespace. cbn [t_runes t_location].
  cbn [skipWhitespace_loop]. rewrite Hsp. cbn [t_runes t_location].
  rewrite Hsc. reflexivity.
Qed.

(** The argument list made of one escape-free string literal. *)
Lemma parseFunctionArgs_one_string s rest pos loc :
  plain_string s = true ->
  exists t2,
    parseFunctionArgs
      {| t_runes := r_lparen :: r_quote :: s ++ r_quote :: r_rparen :: rest;
         t_location := pos |} loc
    = Some (Ok ([{| kind := TokenKindString; value := s;
                    location := advance_loc pos r_lparen |}], t2)).
Proof.
  intros Hs. eexists. unfold parseFunctionArgs, mustNextToken.
  rewrite NextToken_single by reflexivity.
  cbn [mbind res_mbind res_bind]. cbn [IsSingleChar kind value].
  change (TokenKind_eqb TokenKindSingleChar TokenKindSingleChar
          && (r_lparen =? r_lparen)) with true. cbn [negb].
  rewrite NextToken_string by exact Hs.
  cbn [mbind res_mbind res_bind]. cbn [IsSingleChar kind value].
  change (TokenKind_eqb TokenKindString TokenKindSingleChar) with false.
  cbn [andb]. cbn [t_runes length parseFunctionArgs_loop].
  unfold mustNextToken. rewrite NextToken_single by reflexivity.
  cbn [mbind res_mbind res_bind]. cbn [IsSingleChar kind value].
  change (TokenKind_eqb TokenKindSingleChar TokenKindSingleChar
          && (r_rparen =? r_rparen)) with true.
  reflexivity.
Qed.

(** The code block [var] applied to one escape-free string literal [K] that
    is a key of the variables renders to the value mapped to [K]. *)
Lemma var_literal_renders_value w ctx loc K v draw :
  plain_string K = true ->
  Variables ctx !! K = Some v ->
  CodePortion_Render w ctx loc
    (word_var ++ r_lparen :: r_quote :: K ++ r_quote :: [r_rparen]) draw
  = Some (Ok (v, draw)).
Proof.
  intros HK Hv.
  set (funcTok := {| kind := TokenKindWord; value := word_var; location := loc |}).
  set (t1 := {| t_runes := r_lparen :: r_quote :: K ++ r_quote :: [r_rparen];
                t_location := loc_after loc word_var |}).
  destruct (parseFunctionArgs_one_string K [] (loc_after loc word_var) loc HK)
    as [t2 Hparse].
  apply (var_directive_literal_args w ctx loc
           (word_var ++ r_lparen :: r_quote :: K ++ r_quote :: [r_rparen])
           draw funcTok t1 _ t2 eq_refl eq_refl eq_refl Hparse _ v eq_refl eq_refl).
  exact Hv.
Qed.

(** Every directive evaluation comes to an end: the fuel of the argument loop
    always suffices. *)
Lemma CodePortion_Render_total w ctx loc code draw :
  is_Some (CodePortion_Render w ctx loc code draw).
Proof.
  unfold CodePortion_Render.
  destruct (NextToken (NewTokenizer code loc)) as [[[tok|] t1]|e]; [|eauto|eauto].
  unfold renderVar, renderContent, renderChooseRandomTopLevelFileFromStaticPath.
  destruct (parseFunctionArgs_total t1 loc) as [r ->].
  destruct (_ && _); [simpl; eauto|].
  destruct (_ && _); [simpl; eauto|].
  destruct (_ && _); [simpl; eauto|eauto].
Qed.

Lemma Render_loop_total w ps :
  forall builder draw, is_Some (Render_loop w ps builder draw).
Proof.
  induction ps as [|portion ps IH]; intros builder draw; simpl; [eauto|].
  destruct portion as [text|ctx loc code]; simpl; [apply IH|].
  destruct (CodePortion_Render_total w ctx loc code draw) as [[[s d]|e] ->];
    [apply IH|eauto].
Qed.

Lemma Template_Render_total w t draw : is_Some (Template_Render w t draw).
Proof. apply Render_loop_total. Qed.

(** ** [path.Join] on clean paths *)

Lemma path_Clean_copy_name c :
  forall rest rev_out,
    r_slash ∉ c ->
    match rest with [] => True | d :: _ => d = r_slash end ->
    path_Clean_copy (c ++ rest) rev_out = (rest, rev c ++ rev_out).
Proof.
  induction c as [|x c IH]; intros rest rev_out Hc Hrest.
  - simpl. destruct rest as [|d rest]; [reflexivity|]. subst d. reflexivity.
  - apply not_elem_of_cons in Hc as [Hx Hc]. simpl.
    replace (x =? r_slash) with false by (symmetry; apply Z.eqb_neq; congruence).
    rewrite IH by assumption. rewrite <- app_assoc. reflexivity.
Qed.

(** One round of the cleaning loop on a simple name copies the name. *)
Lemma path_Clean_loop_name fuel c rest rev_out dotdot :
  simple_name c ->
  match rest with [] => True | d :: _ => d = r_slash end ->
  path_Clean_loop (S fuel) true (c ++ rest) rev_out dotdot
  = path_Clean_loop fuel true rest
      (rev c ++ (if (length rev_out =? 1)%nat then rev_out else r_slash :: rev_out))
      dotdot.
Proof.
  intros (Hne & Hslash & Hdot & Hdotdot) Hrest.
  pose proof (path_Clean_copy_name c rest) as Hcopy.
  destruct c as [|x c]; [congruence|].
  apply not_elem_of_cons in Hslash as [Hx Hc].
  change ((x :: c) ++ rest) with (x :: c ++ rest) in *.
  cbn [path_Clean_loop].
  replace (x =? r_slash) with false by (symmetry; apply Z.eqb_neq; congruence).
  assert (Hend : forall l, l <> [] -> r_slash ∉ l ->
                 match l ++ rest with [] => true | d :: _ => d =? r_slash end = false).
  { intros [|y l] Hl Hy; [congruence|]. simpl.
    apply not_elem_of_cons in Hy as [Hy _]. apply Z.eqb_neq. congruence. }
  assert (H1 : (x =? r_dot)
               && match c ++ rest with [] => true | d :: _ => d =? r_slash end = false).
  { destruct (x =? r_dot) eqn:Hxd; [|reflexivity]. simpl.
    apply Z.eqb_eq in Hxd. subst x. apply Hend; [|exact Hc].
    intros ->. congruence. }
  rewrite H1.
  assert (H2 : (x =? r_dot)
               && match c ++ rest with [] => false | d :: _ => d =? r_dot end
               && match tail (c ++ rest) with [] => true | d :: _ => d =? r_slash end
               = false).
  { destruct (x =? r_dot) eqn:Hxd; [|reflexivity]. simpl.
    apply Z.eqb_eq in Hxd. subst x.
    destruct c as [|y c]; [congruence|]. simpl.
    destruct (y =? r_dot) eqn:Hyd; [|reflexivity]. simpl.
    apply Z.eqb_eq in Hyd. subst y.
    apply not_elem_of_cons in Hc as [_ Hc].
    apply Hend; [|exact Hc]. intros ->. congruence. }
  rewrite H2.
  rewrite (Hcopy _ ltac:(apply not_elem_of_cons; split; assumption) Hrest).
  destruct (length rev_out =? 1)%nat eqn:Hlen; simpl; reflexivity.
Qed.

Lemma path_Clean_loop_slash fuel p rev_out dotdot :
  path_Clean_loop (S fuel) true (r_slash :: p) rev_out dotdot
  = path_Clean_loop fuel true p rev_out dotdot.
Proof. reflexivity. Qed.

Lemma join_slash_cons c d cs :
  join_slash (c :: d :: cs) = c ++ r_slash :: join_slash (d :: cs).
Proof. reflexivity. Qed.

Lemma path_Clean_loop_names cs :
  forall fuel rev_out,
    cs <> [] ->
    Forall simple_name cs ->
    (length (join_slash cs) <= fuel)%nat ->
    path_Clean_loop fuel true (join_slash cs) rev_out 1%nat
    = rev (join_slash cs)
      ++ (if (length rev_out =? 1)%nat then rev_out else r_slash :: rev_out).
Proof.
  induction cs as [|c cs IH]; intros fuel rev_out Hne Hall Hfuel; [congruence|].
  apply Forall_cons in Hall as [Hc Hall].
  assert (Hclen : (0 < length c)%nat).
  { destruct Hc as (Hc & _). destruct c; [congruence|simpl; lia]. }
  destruct cs as [|d cs].
  - simpl join_slash in *. destruct fuel as [|fuel]; [unfold rune in *; lia|].
    rewrite <- (app_nil_r c) at 1.
    rewrite path_Clean_loop_name by (try exact Hc; exact I).
    destruct fuel; reflexivity.
  - rewrite join_slash_cons in *. rewrite length_app in Hfuel. cbn [length] in Hfuel.
    destruct fuel as [|fuel]; [unfold rune in *; lia|].
    rewrite path_Clean_loop_name by (try exact Hc; reflexivity).
    destruct fuel as [|fuel]; [unfold rune in *; lia|].
    rewrite path_Clean_loop_slash.
    rewrite IH; [|discriminate|exact Hall|unfold rune in *; lia].
    replace (length (rev c ++ (if (length rev_out =? 1)%nat then rev_out
                               else r_slash :: rev_out)) =? 1)%nat
      with false.
    + rewrite rev_app_distr. simpl rev. rewrite <- !app_assoc. reflexivity.
    + symmetry. apply Nat.eqb_neq. rewrite length_app, length_rev.
      destruct (length rev_out =? 1)%nat eqn:E.
      * apply Nat.eqb_eq in E. lia.
      * simpl. lia.
Qed.

Lemma path_Join_loop_cons e elem buf :
  buf <> [] ->
  path_Join_loop (e :: elem) buf = path_Join_loop elem (buf ++ [r_slash] ++ e).
Proof.
  intros Hbuf. destruct buf as [|x buf]; [congruence|].
  simpl. rewrite <- app_assoc. reflexivity.
Qed.

(** Joining the root with clean relative paths and a simple name puts single
    slashes between them and changes nothing else. *)
Lemma path_Join_clean staticDir dirPath name :
  clean_relative staticDir ->
  clean_relative dirPath ->
  simple_name name ->
  path_Join [[r_slash]; staticDir; dirPath; name]
  = r_slash :: staticDir ++ r_slash :: dirPath ++ r_slash :: name.
Proof.
  intros (cs1 & Hne1 & Hall1 & ->) (cs2 & Hne2 & Hall2 & ->) Hname.
  set (cs := cs1 ++ cs2 ++ [name]).
  assert (Hjoin : forall a b, a <> [] -> b <> [] ->
                    join_slash (a ++ b) = join_slash a ++ r_slash :: join_slash b).
  { intros a b Ha Hb. induction a as [|x a IHa]; [congruence|].
    destruct a as [|y a].
    - destruct b; [congruence|reflexivity].
    - change ((x :: y :: a) ++ b) with (x :: (y :: a) ++ b).
      change ((y :: a) ++ b) with (y :: a ++ b) at 1.
      rewrite join_slash_cons.
      change (y :: a ++ b) with ((y :: a) ++ b).
      rewrite IHa by discriminate. rewrite join_slash_cons.
      rewrite <- app_assoc. reflexivity. }
  assert (Hcs : join_slash cs
                = join_slash cs1 ++ r_slash :: join_slash cs2 ++ r_slash :: name).
  { unfold cs. rewrite Hjoin; [|exact Hne1|destruct cs2; discriminate].
    rewrite Hjoin; [|exact Hne2|discriminate]. reflexivity. }
  assert (Hall : Forall simple_name cs).
  { unfold cs. apply Forall_app. split; [exact Hall1|].
    apply Forall_app. split; [exact Hall2|]. constructor; [exact Hname|constructor]. }
  assert (Hne : cs <> []) by (unfold cs; destruct cs1; [congruence|discriminate]).
  rewrite <- Hcs. unfold path_Join.
  replace (length (concat [[r_slash]; join_slash cs1; join_slash cs2; name]) =? 0)%nat
    with false by reflexivity.
  replace (path_Join_loop [[r_slash]; join_slash cs1; join_slash cs2; name] [])
    with (r_slash :: r_slash :: join_slash cs).
  - unfold path_Clean. change (r_slash =? r_slash) with true. cbn iota.
    change (length (r_slash :: r_slash :: join_slash cs))
      with (S (S (length (join_slash cs)))).
    rewrite path_Clean_loop_slash.
    rewrite path_Clean_loop_names; [|exact Hne|exact Hall|lia].
    simpl. destruct (rev (join_slash cs) ++ [r_slash]) eqn:E.
    + apply app_eq_nil in E as [_ E]. discriminate.
    + rewrite <- E. rewrite rev_app_distr, rev_involutive. reflexivity.
  - rewrite Hcs.
    change (path_Join_loop [[r_slash]; join_slash cs1; join_slash cs2; name] [])
      with (path_Join_loop [join_slash cs1; join_slash cs2; name] [r_slash]).
    rewrite !path_Join_loop_cons
      by (intros H; apply (f_equal length) in H;
          rewrite ?length_app in H; simpl in H; lia).
    simpl path_Join_loop. rewrite <- !app_assoc. reflexivity.
Qed.

(** ** The directive [chooseRandomTopLevelFileFromStaticPath] *)

Lemma CodePortion_Render_choose w ctx loc code draw funcTok t1 :
  NextToken (NewTokenizer code loc) = Ok (Some funcTok, t1) ->
  IsWord funcTok = true ->
  value funcTok = word_choose ->
  CodePortion_Render w ctx loc code draw =
  renderChooseRandomTopLevelFileFromStaticPath w ctx loc t1 funcTok draw.
Proof.
  intros Htok Hw Hv. unfold CodePortion_Render.
  rewrite Htok, Hw, Hv. reflexivity.
Qed.

(** The file names kept by the directive, in directory order: everything when
    [ext] is empty, otherwise the names whose extension differs from [ext]. *)
Lemma collect_files_filter ext dirEntries :
  forall files,
    collect_files ext dirEntries files
    = files ++ filter (fun name => ext = [] \/ path_Ext name <> ext) dirEntries.
Proof.
  induction dirEntries as [|name dirEntries IH]; intros files; simpl.
  - rewrite app_nil_r. reflexivity.
  - rewrite filter_cons.
    destruct (gostring_eqb ext []) eqn:He; simpl.
    + apply gostring_eqb_true in He.
      rewrite decide_True by (left; exact He).
      rewrite IH, <- app_assoc. reflexivity.
    + apply gostring_eqb_false in He.
      destruct (gostring_eqb (path_Ext name) ext) eqn:Hx.
      * apply gostring_eqb_true in Hx.
        rewrite decide_False by (intros [?|?]; congruence). apply IH.
      * apply gostring_eqb_false in Hx.
        rewrite decide_True by (right; exact Hx).
        rewrite IH, <- app_assoc. reflexivity.
Qed.

(** With a well-behaved random source the directive body fails exactly on an
    unreadable directory or an empty selection, and otherwise returns the
    joined path of one of the collected files. *)
Lemma chooseFile_spec w ctx funcTok dirPath ext draw :
  rand_ok w ->
  match ReadDir w (path_Join [StaticDir ctx; path_Clean dirPath]) with
  | None =>
      chooseFile w ctx funcTok dirPath ext draw
      = Err (ErrTemplateInternalFunctionExecutionError funcTok)
  | Some dirEntries =>
      match collect_files ext dirEntries [] with
      | [] =>
          chooseFile w ctx funcTok dirPath ext draw
          = Err (ErrTemplateInternalFunctionExecutionError funcTok)
      | files =>
          exists name,
            files !! Z.to_nat (Intn w draw (Z.of_nat (length files))) = Some name
            /\ chooseFile w ctx funcTok dirPath ext draw
               = Ok (path_Join [[r_slash]; StaticDir ctx; dirPath; name], S draw)
      end
  end.
Proof.
  intros Hrand. unfold chooseFile.
  destruct (ReadDir w _) as [dirEntries|]; [|reflexivity].
  destruct (collect_files ext dirEntries []) as [|f files] eqn:Hfiles;
    [reflexivity|].
  remember (f :: files) as fs eqn:Hfs.
  assert (Hlen : 0 < Z.of_nat (length fs)) by (subst fs; simpl; lia).
  destruct (Hrand draw _ Hlen) as [Hlo Hhi].
  replace (length fs <? 1)%nat with false
    by (symmetry; apply Nat.ltb_ge; lia).
  replace (Intn w draw (Z.of_nat (length fs)) <? 0) with false
    by (symmetry; apply Z.ltb_ge; lia).
  replace (Z.of_nat (length fs) <=? Intn w draw (Z.of_nat (length fs))) with false
    by (symmetry; apply Z.leb_gt; lia).
  simpl.
  destruct (lookup_lt_is_Some_2 fs (Z.to_nat (Intn w draw (Z.of_nat (length fs)))))
    as [name Hname]; [lia|].
  rewrite Hname. subst fs. exists name. split; reflexivity.
Qed.

(** C3 (amended). For an invocation of [chooseRandomTopLevelFileFromStaticPath]
    with one string literal [d], or with two string literals [d] and [ext]
    (no second argument counts as the empty [ext]): the eligible entries are
    the directory entries in order, minus, when [ext] is not empty, those whose
    extension equals [ext]; an empty [ext] excludes nothing. With a random
    source that answers within its range, evaluation fails with the internal
    function execution error exactly when the directory cannot be listed or
    no entry is eligible; with exactly one eligible entry the result is
    [path.Join] of the root, [StaticDir], [d] and its name; with more it is this
    path for some eligible entry. The joined path is the root slash,
    [StaticDir], a slash, [d], a slash and the name whenever [StaticDir] and [d]
    are clean relative paths and the name is a simple one. *)
Theorem chooseRandom_directive_contract w ctx loc code draw funcTok t1 args t2 d ext :
  rand_ok w ->
  NextToken (NewTokenizer code loc) = Ok (Some funcTok, t1) ->
  IsWord funcTok = true ->
  value funcTok = word_choose ->
  parseFunctionArgs t1 loc = Some (Ok (args, t2)) ->
  kind d = TokenKindString ->
  (args = [d] /\ ext = [])
  \/ (exists e, args = [d; e] /\ kind e = TokenKindString /\ value e = ext) ->
  let listing := ReadDir w (path_Join [StaticDir ctx; path_Clean (value d)]) in
  let eligible dirEntries :=
    filter (fun name => ext = [] \/ path_Ext name <> ext) dirEntries in
  let result := CodePortion_Render w ctx loc code draw in
  let web_path name := path_Join [[r_slash]; StaticDir ctx; value d; name] in
  (forall dirEntries name,
      ext <> [] -> path_Ext name = ext -> name ∉ eligible dirEntries)
  /\ (forall dirEntries, ext = [] -> eligible dirEntries = dirEntries)
  /\ (result = Some (Err (ErrTemplateInternalFunctionExecutionError funcTok))
      <-> listing = None
          \/ exists dirEntries, listing = Some dirEntries /\ eligible dirEntries = [])
  /\ (forall dirEntries name,
        listing = Some dirEntries -> eligible dirEntries = [name] ->
        result = Some (Ok (web_path name, S draw)))
  /\ (forall dirEntries,
        listing = Some dirEntries -> eligible dirEntries <> [] ->
        exists name,
          name ∈ eligible dirEntries /\ result = Some (Ok (web_path name, S draw)))
  /\ (forall name,
        clean_relative (StaticDir ctx) -> clean_relative (value d) ->
        simple_name name ->
        web_path name = r_slash :: StaticDir ctx ++ r_slash :: value d ++ r_slash :: name).
Proof.
  intros Hrand Htok Hw Hv Hargs Hd Hshape listing eligible result web_path.
  assert (Hres : result = Some (chooseFile w ctx funcTok (value d) ext draw)).
  { unfold result.
    rewrite (CodePortion_Render_choose w ctx loc code draw funcTok t1 Htok Hw Hv).
    unfold renderChooseRandomTopLevelFileFromStaticPath. rewrite Hargs. simpl.
    apply TokenKind_eqb_true in Hd.
    destruct Hshape as [[-> ->]|(e & -> & He & <-)].
    - rewrite Hd. reflexivity.
    - apply TokenKind_eqb_true in He. rewrite Hd, He. reflexivity. }
  pose proof (chooseFile_spec w ctx funcTok (value d) ext draw Hrand) as Hspec.
  fold listing in Hspec.
  assert (Hcol : forall dirEntries,
             collect_files ext dirEntries [] = eligible dirEntries).
  { intros dirEntries. apply collect_files_filter. }
  split; [|split; [|split; [|split; [|split]]]];
    [| | | | |intros name; apply path_Join_clean].
  - intros dirEntries name Hne Hext Hin.
    apply list_elem_of_filter in Hin as [[?|?] _]; congruence.
  - intros dirEntries ->. unfold eligible.
    induction dirEntries as [|n l IH]; [reflexivity|].
    rewrite filter_cons, decide_True by (left; reflexivity).
    f_equal. exact IH.
  - rewrite Hres. destruct listing as [dirEntries|] eqn:Hl.
    + rewrite Hcol in Hspec.
      destruct (eligible dirEntries) as [|f files] eqn:Hel.
      * rewrite Hspec. split; [|reflexivity].
        intros _. right. exists dirEntries. split; [reflexivity|exact Hel].
      * destruct Hspec as (name & _ & ->). split; [discriminate|].
        intros [?|(l & [= <-] & Hnil)]; [discriminate|].
        rewrite Hel in Hnil. discriminate.
    + rewrite Hspec. split; [|reflexivity]. intros _. left. reflexivity.
  - intros dirEntries name Hl Hone. rewrite Hres. rewrite Hl in Hspec.
    rewrite Hcol, Hone in Hspec. destruct Hspec as (name' & Hlook & ->).
    simpl in Hlook.
    destruct (Hrand draw 1 ltac:(lia)) as [Hlo Hhi].
    change (Z.of_nat 1) with 1 in Hlook.
    replace (Intn w draw 1) with 0 in Hlook by lia.
    injection Hlook as <-. reflexivity.
  - intros dirEntries Hl Hne. rewrite Hres. rewrite Hl in Hspec.
    rewrite Hcol in Hspec.
    destruct (eligible dirEntries) as [|f files] eqn:Hel; [congruence|].
    destruct Hspec as (name & Hlook & ->).
    exists name. split; [|reflexivity].
    eapply list_elem_of_lookup_2, Hlook.
Qed.

(** The amended contract at
    [Sample.code_choose_png] in the sample
    world, whose only eligible entry is then [README]. *)
Lemma chooseRandom_directive_witness :
  let d := {| kind := TokenKindString; value := runes_of "img";
              location := {| path := path Sample.page; row := 1; column := 40 |} |} in
  exists funcTok t1 args t2,
    rand_ok Sample.world
    /\ NextToken (NewTokenizer Sample.code_choose_png Sample.page) = Ok (Some funcTok, t1)
    /\ IsWord funcTok = true
    /\ value funcTok = word_choose
    /\ parseFunctionArgs t1 Sample.page = Some (Ok (args, t2))
    /\ kind d = TokenKindString
    /\ ((args = [d] /\ runes_of ".png" = [])
        \/ (exists e, args = [d; e] /\ kind e = TokenKindString
                      /\ value e = runes_of ".png"))
    /\ CodePortion_Render Sample.world Sample.ctx Sample.page Sample.code_choose_png 0
       = Some (Ok (runes_of "/static/img/README", 1%nat)).
Proof.
  intros d.
  assert (Hrand : rand_ok Sample.world) by (intros k n Hn; simpl; lia).
  do 4 eexists.
  split; [exact Hrand|].
  split; [by_eval|]. split; [by_eval|]. split; [by_eval|]. split; [by_eval|].
  split; [by_eval|].
  split; [right; eexists; split; [by_eval|split; by_eval]|].
  edestruct chooseRandom_directive_contract
    with (w := Sample.world) (ctx := Sample.ctx) (loc := Sample.page)
         (code := Sample.code_choose_png) (draw := 0%nat) (d := d)
    as (_ & _ & _ & H & _ & _);
    [exact Hrand | by_eval | by_eval | by_eval | by_eval | by_eval
    | right; eexists; split; [by_eval|split; by_eval] |].
  rewrite (H [runes_of "README"; runes_of "a.png"] (runes_of "README"));
    by_eval.
Defined.

(** C3 as stated fails for an empty second argument: [README] has the empty
    extension, which equals the second argument of
    [Sample.code_choose_empty_ext], and yet it is not
    excluded: it is the file the directive returns. *)
Lemma chooseRandom_empty_extension_not_excluded :
  ReadDir Sample.world (path_Join [StaticDir Sample.ctx; path_Clean (runes_of "img")])
  = Some [runes_of "README"; runes_of "a.png"]
  /\ path_Ext (runes_of "README") = []
  /\ CodePortion_Render Sample.world Sample.ctx Sample.page
       Sample.code_choose_empty_ext 0
     = Some (Ok (runes_of "/static/img/README", 1%nat)).
Proof. repeat split; vm_compute; reflexivity. Qed.

(** ** The template compiler *)

(** Induction that follows a loop reading one or two runes per round. *)
Lemma list_two_step_ind {A} (P : list A -> Prop) :
  P [] ->
  (forall x, P [x]) ->
  (forall x y l, P l -> P (y :: l) -> P (x :: y :: l)) ->
  forall l, P l.
Proof.
  intros Hnil Hone Htwo l.
  assert (H : P l /\ forall x, P (x :: l)); [|exact (proj1 H)].
  induction l as [|y l [IH1 IH2]]; split; auto.
Qed.

Lemma compile_loop_location ctx rs :
  forall s, c_location (compile_loop ctx s rs) = loc_after (c_location s) rs.
Proof.
  induction rs as [|c|c d rs IH2 IH1] using list_two_step_ind; intros s.
  - reflexivity.
  - simpl. destruct (c =? r_backslash); [reflexivity|].
    destruct (_ && _); [reflexivity|]. destruct (_ && _); reflexivity.
  - remember (d :: rs) as rs1 eqn:E. cbn [compile_loop loc_after].
    destruct (c =? r_backslash).
    + subst rs1. cbn [loc_after]. rewrite IH2. reflexivity.
    + subst rs1. destruct (_ && _); [rewrite IH1; reflexivity|].
      destruct (_ && _); rewrite IH1; reflexivity.
Qed.

(** The loop can be cut after any prefix that ends on an escape boundary. *)
Lemma compile_loop_app ctx pre :
  forall s rest,
    escapes_complete pre = true ->
    compile_loop ctx s (pre ++ rest) = compile_loop ctx (compile_loop ctx s pre) rest.
Proof.
  induction pre as [|c|c d pre IH2 IH1] using list_two_step_ind; intros s rest.
  - reflexivity.
  - simpl. destruct (c =? r_backslash); [discriminate|]. intros _.
    destruct (_ && _); [reflexivity|]. destruct (_ && _); reflexivity.
  - change ((c :: d :: pre) ++ rest) with (c :: (d :: pre) ++ rest).
    remember (d :: pre) as pre1 eqn:E. cbn [compile_loop escapes_complete].
    destruct (c =? r_backslash).
    + subst pre1. apply IH2.
    + intros H. destruct (_ && _); [apply IH1, H|].
      destruct (_ && _); apply IH1, H.
Qed.

Lemma ends_in_escapes_complete rs :
  forall inside m, ends_in inside rs = Some m -> escapes_complete rs = true.
Proof.
  induction rs as [|c|c d rs IH2 IH1] using list_two_step_ind; intros inside m.
  - reflexivity.
  - simpl. destruct (c =? r_backslash); [discriminate|reflexivity].
  - remember (d :: rs) as rs1 eqn:E. cbn [ends_in escapes_complete].
    destruct (c =? r_backslash).
    + subst rs1. apply IH2.
    + destruct (_ && _); [apply IH1|]. destruct (_ && _); apply IH1.
Qed.

(** [ends_in] predicts the compiler's mode. *)
Lemma compile_loop_codeMode ctx rs :
  forall s m,
    ends_in (c_codeMode s) rs = Some m ->
    c_codeMode (compile_loop ctx s rs) = m.
Proof.
  induction rs as [|c|c d rs IH2 IH1] using list_two_step_ind; intros s m.
  - simpl. congruence.
  - simpl. destruct (c =? r_backslash); [discriminate|].
    destruct (_ && _); [simpl; congruence|].
    destruct (_ && _); simpl; congruence.
  - remember (d :: rs) as rs1 eqn:E. cbn [compile_loop ends_in].
    destruct (c =? r_backslash).
    + subst rs1. intros H. apply IH2. exact H.
    + destruct (_ && _); [intros H; apply IH1; exact H|].
      destruct (_ && _); intros H; apply IH1; exact H.
Qed.

(** Inside a block that no right brace closes, the compiler stays inside and
    keeps the location it recorded for the block. *)
Lemma compile_loop_unclosed ctx rs :
  forall s,
    no_unescaped_close rs = true ->
    c_codeMode s = true ->
    c_codeMode (compile_loop ctx s rs) = true
    /\ c_codeModeLocation (compile_loop ctx s rs) = c_codeModeLocation s.
Proof.
  induction rs as [|c|c d rs IH2 IH1] using list_two_step_ind; intros s.
  - auto.
  - simpl. intros Hc Hs. rewrite Hs. rewrite andb_false_r, andb_true_r.
    destruct (c =? r_backslash); [auto|]. destruct (c =? r_rbrace); [discriminate|].
    auto.
  - remember (d :: rs) as rs1 eqn:E. cbn [compile_loop no_unescaped_close].
    intros Hc Hs. rewrite Hs. rewrite andb_false_r, andb_true_r.
    destruct (c =? r_backslash).
    + subst rs1.
      match goal with |- c_codeMode (compile_loop _ ?s' _) = _ /\ _ =>
        exact (IH2 s' Hc eq_refl) end.
    + destruct (c =? r_rbrace); [discriminate|].
      match goal with |- c_codeMode (compile_loop _ ?s' _) = _ /\ _ =>
        exact (IH1 s' Hc eq_refl) end.
Qed.

(** C4. When the text reads as [pre], read from outside any block and ending
    outside one, then a left brace, then [rest] without an unescaped right
    brace, compilation fails with the unterminated-code-block error, and the
    location the error reports is the position of that left brace: the
    location reached from the initial one after [pre]. *)
Theorem unterminated_code_block_location initialLocation pre rest codeCtx :
  int_ok (column initialLocation) ->
  ends_in false pre = Some false ->
  no_unescaped_close rest = true ->
  NewTemplateFromString initialLocation (pre ++ r_lbrace :: rest) codeCtx
  = Err (ErrTemplateUnterminatedCodeBlock (loc_after initialLocation pre)).
Proof.
  intros Hcol Hpre Hrest. unfold NewTemplateFromString.
  rewrite compile_loop_app by (eapply ends_in_escapes_complete, Hpre).
  set (s1 := compile_loop codeCtx (compile_start initialLocation) pre).
  assert (Hm : c_codeMode s1 = false) by (apply compile_loop_codeMode, Hpre).
  assert (Hl : c_location s1 = loc_after initialLocation pre)
    by apply compile_loop_location.
  cbn [compile_loop]. change (r_lbrace =? r_backslash) with false.
  change (r_lbrace =? r_lbrace) with true. rewrite Hm. cbn [andb negb].
  match goal with |- compile_finish (compile_loop _ ?s2 _) = _ =>
    destruct (compile_loop_unclosed codeCtx rest s2 Hrest eq_refl) as [Hmode Hcml]
  end.
  unfold compile_finish. rewrite Hmode, Hcml. cbn [c_codeModeLocation].
  rewrite Hl. do 2 f_equal.
  pose proof (column_loc_after_ok pre initialLocation Hcol) as Hok.
  destruct (loc_after initialLocation pre) as [p r c]. simpl in Hok.
  unfold advance_loc. change (r_lbrace =? r_newline) with false. simpl.
  rewrite int_wrap_succ_pred by exact Hok. reflexivity.
Qed.

(** The contract at a text whose block opens on the second row. *)
Lemma unterminated_code_block_witness :
  int_ok (column Sample.page)
  /\ ends_in false [97; r_newline; 98] = Some false
  /\ no_unescaped_close (runes_of "x") = true
  /\ NewTemplateFromString Sample.page ([97; r_newline; 98] ++ r_lbrace :: runes_of "x")
       Sample.ctx
     = Err (ErrTemplateUnterminatedCodeBlock
              {| path := path Sample.page; row := 2; column := 2 |}).
Proof.
  assert (H : int_ok (column Sample.page)) by (unfold int_ok; simpl; lia).
  split; [exact H|]. split; [reflexivity|]. split; [reflexivity|].
  exact (unterminated_code_block_location Sample.page [97; r_newline; 98]
           (runes_of "x") Sample.ctx H eq_refl eq_refl).
Defined.

(** C6. A backslash that the compiler meets on an escape boundary, after the
    prefix [pre], is dropped and the character [c] after it is appended to the
    accumulated text whatever it is (a brace, another backslash): mode,
    recorded block location and portions stay as they were and the rest of the
    text is read from there. A backslash that ends the text is appended to the
    accumulated text itself, and outside a code block this text becomes the
    last text portion. *)
Theorem backslash_escape initialLocation codeCtx pre c rest :
  escapes_complete pre = true ->
  let s1 := compile_loop codeCtx (compile_start initialLocation) pre in
  compile_loop codeCtx (compile_start initialLocation) (pre ++ r_backslash :: c :: rest)
  = compile_loop codeCtx
      {| c_location := advance_loc (advance_loc (c_location s1) r_backslash) c;
         c_accumulatedText := c_accumulatedText s1 ++ [c];
         c_codeMode := c_codeMode s1;
         c_codeModeLocation := c_codeModeLocation s1;
         c_portions := c_portions s1 |} rest
  /\ compile_loop codeCtx (compile_start initialLocation) (pre ++ [r_backslash])
     = {| c_location := advance_loc (c_location s1) r_backslash;
          c_accumulatedText := c_accumulatedText s1 ++ [r_backslash];
          c_codeMode := c_codeMode s1;
          c_codeModeLocation := c_codeModeLocation s1;
          c_portions := c_portions s1 |}
  /\ (c_codeMode s1 = false ->
      NewTemplateFromString initialLocation (pre ++ [r_backslash]) codeCtx
      = Ok {| portions :=
                c_portions s1
                ++ [TemplateTextPortion (c_accumulatedText s1 ++ [r_backslash])] |}).
Proof.
  intros Hpre s1. repeat split.
  - rewrite compile_loop_app by exact Hpre. reflexivity.
  - rewrite compile_loop_app by exact Hpre. reflexivity.
  - intros Hm. unfold NewTemplateFromString.
    rewrite compile_loop_app by exact Hpre. fold s1.
    unfold compile_finish. cbn [compile_loop c_codeMode c_accumulatedText c_portions].
    change (r_backslash =? r_backslash) with true. cbn iota.
    cbn [c_codeMode c_accumulatedText c_portions]. rewrite Hm.
    replace (gostring_eqb (c_accumulatedText s1 ++ [r_backslash]) []) with false;
      [reflexivity|].
    symmetry. apply gostring_eqb_false. destruct (c_accumulatedText s1); discriminate.
Qed.

(** The escape rule at the text [a\{b\], read from the start of the page. *)
Lemma backslash_escape_witness :
  escapes_complete (runes_of "a") = true
  /\ NewTemplateFromString Sample.page
       (runes_of "a" ++ r_backslash :: r_lbrace :: runes_of "b" ++ [r_backslash])
       Sample.ctx
     = Ok {| portions := [TemplateTextPortion ([97; r_lbrace; 98; r_backslash])] |}.
Proof.
  split; [reflexivity|].
  unfold NewTemplateFromString.
  etrans;
    [ apply (f_equal compile_finish),
        (proj1 (backslash_escape Sample.page Sample.ctx (runes_of "a") r_lbrace
                  (runes_of "b" ++ [r_backslash]) eq_refl))
    | reflexivity ].
Defined.

(** Outside a code block, text without an unescaped left brace is accumulated
    with its escapes resolved and nothing else happens. *)
Lemma compile_loop_text ctx rs :
  forall s,
    c_codeMode s = false ->
    no_unescaped_open rs = true ->
    compile_loop ctx s rs
    = {| c_location := loc_after (c_location s) rs;
         c_accumulatedText := c_accumulatedText s ++ resolve_escapes rs;
         c_codeMode := false;
         c_codeModeLocation := c_codeModeLocation s;
         c_portions := c_portions s |}.
Proof.
  induction rs as [|c|c d rs IH2 IH1] using list_two_step_ind; intros s Hs.
  - intros _. destruct s; simpl in *. subst. rewrite app_nil_r. reflexivity.
  - simpl. rewrite Hs, andb_false_r, andb_true_r.
    destruct (c =? r_backslash); [reflexivity|].
    destruct (c =? r_lbrace); [discriminate|]. reflexivity.
  - remember (d :: rs) as rs1 eqn:E.
    cbn [compile_loop no_unescaped_open resolve_escapes loc_after].
    rewrite Hs, andb_false_r, andb_true_r.
    destruct (c =? r_backslash).
    + subst rs1. intros H. rewrite IH2 by (try exact H; reflexivity).
      cbn [c_location c_accumulatedText c_codeModeLocation c_portions loc_after].
      rewrite <- app_assoc. reflexivity.
    + destruct (c =? r_lbrace); [discriminate|]. intros H.
      rewrite IH1 by (try exact H; reflexivity).
      cbn [c_location c_accumulatedText c_codeModeLocation c_portions].
      rewrite <- app_assoc. reflexivity.
Qed.

Lemma resolve_escapes_nil rs : resolve_escapes rs = [] -> rs = [].
Proof.
  destruct rs as [|c [|d rs]]; simpl; [reflexivity| |].
  - destruct (c =? r_backslash); discriminate.
  - destruct (c =? r_backslash); discriminate.
Qed.

(** C7 (amended). A text without an unescaped left brace compiles to no
    portion at all when it is empty and otherwise to exactly one text portion,
    the text with its escapes resolved; rendering the compiled template
    returns the text with its escapes resolved in either case and makes no
    random draw. *)
Theorem text_only_round_trip w initialLocation textContent codeCtx draw :
  no_unescaped_open textContent = true ->
  exists t,
    NewTemplateFromString initialLocation textContent codeCtx = Ok t
    /\ portions t
       = match textContent with
         | [] => []
         | _ => [TemplateTextPortion (resolve_escapes textContent)]
         end
    /\ Template_Render w t draw = Some (Ok (resolve_escapes textContent, draw)).
Proof.
  intros Htext. unfold NewTemplateFromString.
  rewrite compile_loop_text by (try exact Htext; reflexivity).
  unfold compile_finish. cbn [c_codeMode c_accumulatedText c_portions compile_start app].
  destruct (gostring_eqb (resolve_escapes textContent) []) eqn:He.
  - apply gostring_eqb_true in He. pose proof (resolve_escapes_nil _ He) as ->.
    eexists. split; [reflexivity|]. split; reflexivity.
  - apply gostring_eqb_false in He. eexists. split; [reflexivity|].
    split.
    + destruct textContent; [contradiction He; reflexivity|reflexivity].
    + reflexivity.
Qed.

(** The amended round trip at the text [a\}b], whose only brace is escaped. *)
Lemma text_only_round_trip_witness :
  no_unescaped_open (runes_of "a" ++ r_backslash :: r_rbrace :: runes_of "b") = true
  /\ exists t,
      NewTemplateFromString Sample.page
        (runes_of "a" ++ r_backslash :: r_rbrace :: runes_of "b") Sample.ctx = Ok t
      /\ portions t = [TemplateTextPortion [97; r_rbrace; 98]]
      /\ Template_Render Sample.world t 0 = Some (Ok ([97; r_rbrace; 98], 0%nat)).
Proof.
  split; [reflexivity|].
  exact (text_only_round_trip Sample.world Sample.page
           (runes_of "a" ++ r_backslash :: r_rbrace :: runes_of "b") Sample.ctx 0
           eq_refl).
Defined.

(** C7 as stated fails on the empty text: it holds no unescaped brace, and it
    compiles to a template without any portion, not to one text portion. *)
Lemma empty_text_compiles_to_no_portion :
  no_unescaped_open [] = true
  /\ no_unescaped_close [] = true
  /\ NewTemplateFromString Sample.page [] Sample.ctx = Ok {| portions := [] |}
  /\ ~ exists text,
        NewTemplateFromString Sample.page [] Sample.ctx
        = Ok {| portions := [TemplateTextPortion text] |}.
Proof.
  split; [reflexivity|]. split; [reflexivity|]. split; [reflexivity|].
  intros [text H]. discriminate H.
Qed.

(** Inside a code block, code text without backslashes and right braces is
    accumulated as it is. *)
Lemma compile_loop_plain_code ctx l :
  forall s rest,
    c_codeMode s = true ->
    plain_code l = true ->
    compile_loop ctx s (l ++ rest)
    = compile_loop ctx
        {| c_location := loc_after (c_location s) l;
           c_accumulatedText := c_accumulatedText s ++ l;
           c_codeMode := true;
           c_codeModeLocation := c_codeModeLocation s;
           c_portions := c_portions s |} rest.
Proof.
  induction l as [|c l IH]; intros s rest Hs.
  - intros _. destruct s; simpl in *. subst. rewrite app_nil_r. reflexivity.
  - cbn [plain_code forallb]. intros H.
    apply andb_prop in H as [Hc Hl]. apply andb_prop in Hc as [Hb Hr].
    apply negb_true_iff in Hb, Hr.
    change ((c :: l) ++ rest) with (c :: l ++ rest).
    remember (l ++ rest) as rs1 eqn:E. cbn [compile_loop loc_after].
    rewrite Hb, Hr, Hs, andb_false_r. cbn [andb]. subst rs1.
    rewrite IH by (try exact Hl; reflexivity).
    cbn [c_location c_accumulatedText c_codeModeLocation c_portions].
    rewrite <- app_assoc. reflexivity.
Qed.

(** C10. Escaping also works inside a code block: in the block
    [{code1\ccode2}] the backslash is dropped and [c] is appended to the code
    text whatever it is, so an escaped right brace does not end the block, and
    the code portion handed to the tokenizer holds [code1 c code2] without the
    backslash. *)
Theorem escape_inside_code_block initialLocation codeCtx code1 c code2 :
  plain_code code1 = true ->
  plain_code code2 = true ->
  NewTemplateFromString initialLocation
    (r_lbrace :: code1 ++ r_backslash :: c :: code2 ++ [r_rbrace]) codeCtx
  = Ok {| portions :=
            [TemplateTextPortion [];
             TemplateCodePortion codeCtx (advance_loc initialLocation r_lbrace)
               (code1 ++ c :: code2)] |}.
Proof.
  intros H1 H2. unfold NewTemplateFromString.
  remember (code1 ++ r_backslash :: c :: code2 ++ [r_rbrace]) as rs eqn:E.
  cbn [compile_loop compile_start c_codeMode c_location c_accumulatedText
       c_codeModeLocation c_portions].
  change (r_lbrace =? r_backslash) with false.
  change (r_lbrace =? r_lbrace) with true. cbn [andb negb app]. subst rs.
  rewrite compile_loop_plain_code by (try exact H1; reflexivity).
  remember (code2 ++ [r_rbrace]) as rs eqn:E.
  cbn [compile_loop c_codeMode c_location c_accumulatedText c_codeModeLocation
       c_portions].
  change (r_backslash =? r_backslash) with true. cbn iota. subst rs.
  rewrite compile_loop_plain_code by (try exact H2; reflexivity).
  cbn [compile_loop c_codeMode c_location c_accumulatedText c_codeModeLocation
       c_portions].
  change (r_rbrace =? r_backslash) with false.
  change (r_rbrace =? r_lbrace) with false.
  change (r_rbrace =? r_rbrace) with true. cbn [andb].
  unfold compile_finish.
  cbn [c_codeMode c_accumulatedText c_portions app]. 
  rewrite gostring_eqb_refl. cbn [negb].
  rewrite <- app_assoc. reflexivity.
Qed.

(** The rule at [Sample.text_escaped_quote]: the code text that reaches the
    tokenizer is [Sample.code_bare_quote]. *)
Lemma escape_inside_code_block_witness :
  plain_code (runes_of "var(" ++ [r_quote] ++ runes_of "a") = true
  /\ plain_code (runes_of "b" ++ [r_quote] ++ runes_of ")") = true
  /\ NewTemplateFromString Sample.page Sample.text_escaped_quote Sample.ctx
     = Ok {| portions :=
               [TemplateTextPortion [];
                TemplateCodePortion Sample.ctx
                  {| path := path Sample.page; row := 1; column := 2 |}
                  Sample.code_bare_quote] |}.
Proof.
  split; [reflexivity|]. split; [reflexivity|].
  exact (escape_inside_code_block Sample.page Sample.ctx
           (runes_of "var(" ++ [r_quote] ++ runes_of "a") r_quote
           (runes_of "b" ++ [r_quote] ++ runes_of ")") eq_refl eq_refl).
Defined.

(** Inside a code block the raw text up to the closing brace is accumulated
    with its escapes resolved, and the closing brace emits it as a code
    portion at the location recorded for the block. *)
Lemma compile_loop_code_block ctx raw :
  forall s rest,
    c_codeMode s = true ->
    escapes_complete raw = true ->
    no_unescaped_close raw = true ->
    compile_loop ctx s (raw ++ r_rbrace :: rest)
    = compile_loop ctx
        {| c_location := loc_after (c_location s) (raw ++ [r_rbrace]);
           c_accumulatedText := [];
           c_codeMode := false;
           c_codeModeLocation := c_codeModeLocation s;
           c_portions :=
             c_portions s
             ++ [TemplateCodePortion ctx (c_codeModeLocation s)
                   (c_accumulatedText s ++ resolve_escapes raw)] |} rest.
Proof.
  induction raw as [|c|c d raw IH2 IH1] using list_two_step_ind; intros s rest Hs.
  - intros _ _. simpl app. cbn [compile_loop loc_after resolve_escapes].
    change (r_rbrace =? r_backslash) with false.
    change (r_rbrace =? r_lbrace) with false.
    change (r_rbrace =? r_rbrace) with true. rewrite Hs. cbn [andb].
    rewrite app_nil_r. reflexivity.
  - cbn [escapes_complete no_unescaped_close resolve_escapes].
    destruct (c =? r_backslash) eqn:Hb; [discriminate|].
    destruct (c =? r_rbrace) eqn:Hr; [discriminate|]. intros _ _.
    change ([c] ++ r_rbrace :: rest) with (c :: r_rbrace :: rest).
    cbn [compile_loop loc_after app].
    rewrite Hb, Hr, Hs, andb_false_r. cbn [andb].
    cbn [c_codeMode c_location c_accumulatedText c_codeModeLocation c_portions].
    change (r_rbrace =? r_backslash) with false.
    change (r_rbrace =? r_lbrace) with false.
    change (r_rbrace =? r_rbrace) with true. cbn [andb]. reflexivity.
  - change ((c :: d :: raw) ++ r_rbrace :: rest)
      with (c :: (d :: raw) ++ r_rbrace :: rest).
    remember (d :: raw) as raw1 eqn:E.
    cbn [compile_loop escapes_complete no_unescaped_close resolve_escapes loc_after app].
    rewrite Hs, andb_false_r, andb_true_r.
    destruct (c =? r_backslash) eqn:Hb.
    + subst raw1. cbn [app loc_after]. intros He Hc.
      rewrite IH2 by (try assumption; reflexivity).
      cbn [c_location c_accumulatedText c_codeModeLocation c_portions].
      rewrite <- app_assoc. reflexivity.
    + destruct (c =? r_rbrace) eqn:Hr; [discriminate|]. intros He Hc.
      rewrite IH1 by (try assumption; reflexivity).
      cbn [c_location c_accumulatedText c_codeModeLocation c_portions].
      rewrite <- app_assoc. reflexivity.
Qed.

(** A text made of one code block compiles to an empty text portion and the
    code portion holding the block's text with its escapes resolved. *)
Lemma code_block_text_is_resolved initialLocation codeCtx raw :
  escapes_complete raw = true ->
  no_unescaped_close raw = true ->
  NewTemplateFromString initialLocation (r_lbrace :: raw ++ [r_rbrace]) codeCtx
  = Ok {| portions :=
            [TemplateTextPortion [];
             TemplateCodePortion codeCtx (advance_loc initialLocation r_lbrace)
               (resolve_escapes raw)] |}.
Proof.
  intros He Hc. unfold NewTemplateFromString.
  remember (raw ++ [r_rbrace]) as rs eqn:E.
  cbn [compile_loop compile_start c_codeMode c_location c_accumulatedText
       c_codeModeLocation c_portions].
  change (r_lbrace =? r_backslash) with false.
  change (r_lbrace =? r_lbrace) with true. cbn [andb negb app]. subst rs.
  rewrite compile_loop_code_block by (try assumption; reflexivity).
  reflexivity.
Qed.

(** What the dropped backslash means for the directive: given the code text
    directly, the tokenizer reads one string literal holding a quote; through
    the compiler the literal ends at the bare quote and the word [b] that
    follows is an unexpected token. *)
Lemma escaped_quote_reaches_tokenizer_bare :
  (exists t,
      NewTemplateFromString Sample.page Sample.text_escaped_quote Sample.ctx = Ok t
      /\ Template_Render Sample.world t 0
         = Some (Err (ErrTemplateUnexpectedToken
                        {| kind := TokenKindWord; value := runes_of "b";
                           location := {| path := path Sample.page; row := 1;
                                          column := 9 |} |})))
  /\ exists t2,
      parseFunctionArgs
        {| t_runes := runes_of "(" ++ [r_quote] ++ runes_of "a"
                      ++ [r_backslash; r_quote] ++ runes_of "b" ++ [r_quote]
                      ++ runes_of ")";
           t_location := {| path := path Sample.page; row := 1; column := 5 |} |}
        Sample.page
      = Some (Ok ([{| kind := TokenKindString;
                      value := runes_of "a" ++ [r_quote] ++ runes_of "b";
                      location := {| path := path Sample.page; row := 1;
                                     column := 6 |} |}], t2)).
Proof.
  split.
  - eexists. split; [by_eval|]. by_eval.
  - eexists. by_eval.
Qed.

(** ** The location of a code portion *)

Lemma ends_in_app p :
  forall inside m q,
    ends_in inside p = Some m -> ends_in inside (p ++ q) = ends_in m q.
Proof.
  induction p as [|c|c d p IH2 IH1] using list_two_step_ind; intros inside m q.
  - simpl. congruence.
  - simpl. destruct (c =? r_backslash); [discriminate|].
    destruct (_ && _); [simpl; congruence|].
    destruct (_ && _); simpl; congruence.
  - change ((c :: d :: p) ++ q) with (c :: (d :: p) ++ q).
    remember (d :: p) as p1 eqn:E. cbn [ends_in].
    destruct (c =? r_backslash).
    + subst p1. apply IH2.
    + destruct (_ && _); [apply IH1|]. destruct (_ && _); apply IH1.
Qed.

Lemma opened_at_app init read more loc :
  opened_at init read loc -> opened_at init (read ++ more) loc.
Proof.
  intros (pre & rest & -> & Hpre & ->).
  exists pre, (rest ++ more). rewrite <- app_assoc. auto.
Qed.

Lemma code_portion_ok_app init read more ctx p :
  code_portion_ok init read ctx p -> code_portion_ok init (read ++ more) ctx p.
Proof.
  destruct p as [text|ctx' loc code]; simpl; [auto|].
  intros [-> H]. split; [reflexivity|]. apply opened_at_app, H.
Qed.

Lemma Forall_code_portion_ok_app init read more ctx ps :
  Forall (code_portion_ok init read ctx) ps ->
  Forall (code_portion_ok init (read ++ more) ctx) ps.
Proof.
  intros H. eapply Forall_impl; [exact H|].
  intros p. apply code_portion_ok_app.
Qed.

Lemma compiler_inv_start init ctx : compiler_inv init ctx [] (compile_start init).
Proof.
  split; simpl; [reflexivity|reflexivity|discriminate|constructor].
Qed.

(** One rune that is no backslash keeps, opens or closes the mode. *)
Lemma ends_in_single inside c :
  (c =? r_backslash) = false ->
  ends_in inside [c]
  = Some (if (c =? r_lbrace) && negb inside then true
          else if (c =? r_rbrace) && inside then false
          else inside).
Proof.
  intros Hb. simpl. rewrite Hb.
  destruct (_ && _); [reflexivity|]. destruct (_ && _); reflexivity.
Qed.

(** The invariant is kept by the loop. A backslash ending the text leaves no
    mode to predict, so of the final state it is stated that an open block
    was opened by a brace of the text and that the code portions are right. *)
Lemma compile_loop_inv init ctx :
  forall todo read s,
    compiler_inv init ctx read s ->
    (c_codeMode (compile_loop ctx s todo) = true ->
     opened_at init (read ++ todo) (c_codeModeLocation (compile_loop ctx s todo)))
    /\ Forall (code_portion_ok init (read ++ todo) ctx)
         (c_portions (compile_loop ctx s todo)).
Proof.
  intros todo. remember (length todo) as n eqn:Hn. revert todo Hn.
  induction n as [n IH] using lt_wf_ind. intros todo Hn read s Hinv.
  destruct todo as [|c rs1].
  { simpl. rewrite app_nil_r. split; apply Hinv. }
  assert (Hmono : Forall (code_portion_ok init (read ++ c :: rs1) ctx) (c_portions s))
    by apply Forall_code_portion_ok_app, Hinv.
  cbn [compile_loop].
  destruct (c =? r_backslash) eqn:Hb.
  - destruct rs1 as [|d rs2].
    { split; [|exact Hmono].
      intros Hm. apply opened_at_app, (inv_block _ _ _ _ Hinv), Hm. }
    replace (read ++ c :: d :: rs2) with ((read ++ [c; d]) ++ rs2)
      by (rewrite <- app_assoc; reflexivity).
    eapply (IH (length rs2)); [simpl in Hn; lia|reflexivity|].
    split; cbn [c_location c_codeMode c_codeModeLocation c_portions].
    + rewrite loc_after_app, <- (inv_location _ _ _ _ Hinv). reflexivity.
    + rewrite (ends_in_app _ _ _ _ (inv_mode _ _ _ _ Hinv)).
      simpl. rewrite Hb. reflexivity.
    + intros Hm. apply opened_at_app, (inv_block _ _ _ _ Hinv), Hm.
    + apply Forall_code_portion_ok_app, Hinv.
  - replace (read ++ c :: rs1) with ((read ++ [c]) ++ rs1)
      by (rewrite <- app_assoc; reflexivity).
    assert (Hloc : advance_loc (c_location s) c = loc_after init (read ++ [c])).
    { rewrite loc_after_app, <- (inv_location _ _ _ _ Hinv). reflexivity. }
    pose proof (ends_in_app _ _ _ [c] (inv_mode _ _ _ _ Hinv)) as Hmode.
    rewrite (ends_in_single _ _ Hb) in Hmode.
    destruct ((c =? r_lbrace) && negb (c_codeMode s)) eqn:Hopen.
    + apply andb_prop in Hopen as [Hc Hout].
      apply Z.eqb_eq in Hc. apply negb_true_iff in Hout. subst c.
      eapply (IH (length rs1)); [simpl in Hn; lia|reflexivity|].
      split; cbn [c_location c_codeMode c_codeModeLocation c_portions].
      * exact Hloc.
      * exact Hmode.
      * intros _. exists read, []. split; [reflexivity|]. split.
        -- rewrite (inv_mode _ _ _ _ Hinv), Hout. reflexivity.
        -- rewrite (inv_location _ _ _ _ Hinv). reflexivity.
      * apply Forall_app. split; [apply Forall_code_portion_ok_app, Hinv|].
        constructor; [exact I|constructor].
    + destruct ((c =? r_rbrace) && c_codeMode s) eqn:Hclose.
      * apply andb_prop in Hclose as [Hc Hin].
        eapply (IH (length rs1)); [simpl in Hn; lia|reflexivity|].
        split; cbn [c_location c_codeMode c_codeModeLocation c_portions].
        -- exact Hloc.
        -- exact Hmode.
        -- discriminate.
        -- apply Forall_app. split; [apply Forall_code_portion_ok_app, Hinv|].
           constructor; [|constructor].
           split; [reflexivity|].
           apply opened_at_app, (inv_block _ _ _ _ Hinv), Hin.
      * eapply (IH (length rs1)); [simpl in Hn; lia|reflexivity|].
        split; cbn [c_location c_codeMode c_codeModeLocation c_portions].
        -- exact Hloc.
        -- exact Hmode.
        -- intros Hm. apply opened_at_app, (inv_block _ _ _ _ Hinv), Hm.
        -- apply Forall_code_portion_ok_app, Hinv.
Qed.

(** X25. Compilation has one way to fail: an unterminated code block,
    reported at a brace that stands outside any block and opens one. *)
Lemma compile_error_is_unterminated_block initialLocation textContent codeCtx e :
  int_ok (column initialLocation) ->
  NewTemplateFromString initialLocation textContent codeCtx = Err e ->
  exists pre rest,
    textContent = pre ++ r_lbrace :: rest
    /\ ends_in false pre = Some false
    /\ e = ErrTemplateUnterminatedCodeBlock (loc_after initialLocation pre).
Proof.
  intros Hcol. unfold NewTemplateFromString, compile_finish.
  destruct (compile_loop_inv initialLocation codeCtx textContent []
              (compile_start initialLocation)
              (compiler_inv_start initialLocation codeCtx)) as [Hblock _].
  simpl app in Hblock.
  destruct (c_codeMode _); [|destruct (negb _); discriminate].
  destruct (Hblock eq_refl) as (pre & rest & Htext & Hpre & Hloc).
  intros [= <-]. exists pre, rest. split; [exact Htext|]. split; [exact Hpre|].
  rewrite Hloc. f_equal.
  pose proof (column_loc_after_ok pre initialLocation Hcol) as Hok.
  destruct (loc_after initialLocation pre) as [p r c]. simpl in Hok.
  unfold advance_loc. change (r_lbrace =? r_newline) with false. simpl.
  rewrite int_wrap_succ_pred by exact Hok. reflexivity.
Qed.

Lemma escapes_complete_app a :
  forall b, escapes_complete a = true ->
            escapes_complete (a ++ b) = escapes_complete b.
Proof.
  induction a as [|c|c d a IH2 IH1] using list_two_step_ind; intros b.
  - reflexivity.
  - simpl. destruct (c =? r_backslash); [discriminate|reflexivity].
  - change ((c :: d :: a) ++ b) with (c :: (d :: a) ++ b).
    remember (d :: a) as a1 eqn:E. cbn [escapes_complete].
    destruct (c =? r_backslash).
    + subst a1. apply IH2.
    + apply IH1.
Qed.

Lemma no_unescaped_close_app a :
  forall b, escapes_complete a = true ->
            no_unescaped_close (a ++ b)
            = no_unescaped_close a && no_unescaped_close b.
Proof.
  induction a as [|c|c d a IH2 IH1] using list_two_step_ind; intros b.
  - reflexivity.
  - simpl. destruct (c =? r_backslash); [discriminate|].
    destruct (c =? r_rbrace); reflexivity.
  - change ((c :: d :: a) ++ b) with (c :: (d :: a) ++ b).
    remember (d :: a) as a1 eqn:E. cbn [escapes_complete no_unescaped_close].
    destruct (c =? r_backslash).
    + subst a1. apply IH2.
    + destruct (c =? r_rbrace); [reflexivity|]. apply IH1.
Qed.

Lemma resolve_escapes_app a :
  forall b, escapes_complete a = true ->
            resolve_escapes (a ++ b) = resolve_escapes a ++ resolve_escapes b.
Proof.
  induction a as [|c|c d a IH2 IH1] using list_two_step_ind; intros b.
  - reflexivity.
  - simpl. destruct (c =? r_backslash); [discriminate|reflexivity].
  - change ((c :: d :: a) ++ b) with (c :: (d :: a) ++ b).
    remember (d :: a) as a1 eqn:E. cbn [escapes_complete resolve_escapes].
    destruct (c =? r_backslash).
    + subst a1. intros H. cbn [app]. rewrite IH2 by exact H. reflexivity.
    + intros H. cbn [app]. rewrite IH1 by exact H. reflexivity.
Qed.

Lemma blocks_opened_app p :
  forall inside m q,
    ends_in inside p = Some m ->
    blocks_opened inside (p ++ q)
    = (blocks_opened inside p + blocks_opened m q)%nat.
Proof.
  induction p as [|c|c d p IH2 IH1] using list_two_step_ind; intros inside m q.
  - simpl. intros [= <-]. reflexivity.
  - simpl. destruct (c =? r_backslash); [discriminate|].
    destruct (_ && _); [intros [= <-]; reflexivity|].
    destruct (_ && _); intros [= <-]; reflexivity.
  - change ((c :: d :: p) ++ q) with (c :: (d :: p) ++ q).
    remember (d :: p) as p1 eqn:E. cbn [ends_in blocks_opened].
    destruct (c =? r_backslash).
    + subst p1. apply IH2.
    + destruct (_ && _); [intros H; cbn [Nat.add]; f_equal; apply IH1, H|].
      destruct (_ && _); apply IH1.
Qed.

(** Inside a block nothing opens a block, and only an unescaped right brace
    leaves it. *)
Lemma inside_block raw :
  escapes_complete raw = true ->
  no_unescaped_close raw = true ->
  ends_in true raw = Some true /\ blocks_opened true raw = 0%nat.
Proof.
  induction raw as [|c|c d raw IH2 IH1] using list_two_step_ind.
  - auto.
  - simpl. destruct (c =? r_backslash); [discriminate|].
    rewrite andb_false_r, andb_true_r.
    destruct (c =? r_rbrace); [discriminate|]. auto.
  - remember (d :: raw) as raw1 eqn:E.
    cbn [escapes_complete no_unescaped_close ends_in blocks_opened].
    destruct (c =? r_backslash).
    + subst raw1. exact IH2.
    + rewrite andb_false_r, andb_true_r.
      destruct (c =? r_rbrace); [discriminate|]. exact IH1.
Qed.

Lemma code_count_app a b :
  code_count (a ++ b) = (code_count a + code_count b)%nat.
Proof.
  induction a as [|[text|ctx loc code] a IH]; cbn [app code_count Nat.add];
    [reflexivity|exact IH|f_equal; exact IH].
Qed.

Lemma from_block_app init read more before loc code :
  from_block init read before loc code ->
  from_block init (read ++ more) before loc code.
Proof.
  intros (pre & raw & rest & -> & H). exists pre, raw, (rest ++ more).
  split; [|exact H]. rewrite <- app_assoc. cbn [app]. rewrite <- app_assoc.
  reflexivity.
Qed.

(** The code portions of a list to which one portion is added. *)
Lemma portions_snoc (P : list TemplatePortion -> Location -> gostring -> Prop)
    ctx ps p :
  (forall k ctx' loc code,
      ps !! k = Some (TemplateCodePortion ctx' loc code) ->
      ctx' = ctx /\ P (take k ps) loc code) ->
  match p with
  | TemplateTextPortion _ => True
  | TemplateCodePortion ctx' loc code => ctx' = ctx /\ P ps loc code
  end ->
  forall k ctx' loc code,
    (ps ++ [p]) !! k = Some (TemplateCodePortion ctx' loc code) ->
    ctx' = ctx /\ P (take k (ps ++ [p])) loc code.
Proof.
  intros Hps Hp k ctx' loc code Hk.
  apply lookup_app_Some in Hk as [Hk | [Hlen Hk]].
  - rewrite take_app_le by (apply lookup_lt_Some in Hk; lia).
    apply Hps, Hk.
  - destruct (k - length ps)%nat as [|n] eqn:E; [|discriminate].
    injection Hk as ->. assert (k = length ps) by lia. subst k.
    rewrite take_app_length. exact Hp.
Qed.

Lemma block_inv_start init ctx : block_inv init ctx [] (compile_start init).
Proof.
  split; cbn; [reflexivity|reflexivity|reflexivity|discriminate|].
  intros k ctx' loc code Hk. rewrite lookup_nil in Hk. discriminate.
Qed.

(** The invariant is kept by the loop; of the final state, which a trailing
    backslash may leave off an escape boundary, the part on the portions is
    stated. *)
Lemma compile_loop_blocks init ctx :
  forall todo read s,
    block_inv init ctx read s ->
    forall k ctx' loc code,
      c_portions (compile_loop ctx s todo) !! k
      = Some (TemplateCodePortion ctx' loc code) ->
      ctx' = ctx
      /\ from_block init (read ++ todo)
           (take k (c_portions (compile_loop ctx s todo))) loc code.
Proof.
  intros todo. remember (length todo) as n eqn:Hn. revert todo Hn.
  induction n as [n IH] using lt_wf_ind. intros todo Hn read s Hinv.
  assert (Hkeep : forall more k ctx' loc code,
            c_portions s !! k = Some (TemplateCodePortion ctx' loc code) ->
            ctx' = ctx /\ from_block init (read ++ more) (take k (c_portions s)) loc code).
  { intros more k ctx' loc code Hk.
    destruct (binv_portions _ _ _ _ Hinv k ctx' loc code Hk) as [-> H].
    split; [reflexivity|]. apply from_block_app, H. }
  destruct todo as [|c rs1].
  { rewrite app_nil_r. apply Hinv. }
  pose proof (ends_in_escapes_complete _ _ _ (binv_mode _ _ _ _ Hinv)) as Hread.
  cbn [compile_loop].
  destruct (c =? r_backslash) eqn:Hb.
  - destruct rs1 as [|d rs2]; [apply Hkeep|].
    replace (read ++ c :: d :: rs2) with ((read ++ [c; d]) ++ rs2)
      by (rewrite <- app_assoc; reflexivity).
    assert (Hpair : forall inside, ends_in inside [c; d] = Some inside)
      by (intros inside; simpl; rewrite Hb; reflexivity).
    assert (Hpair0 : forall inside, blocks_opened inside [c; d] = 0%nat)
      by (intros inside; simpl; rewrite Hb; reflexivity).
    eapply (IH (length rs2)); [simpl in Hn; lia|reflexivity|].
    split; cbn [c_location c_codeMode c_codeModeLocation c_portions
                c_accumulatedText].
    + rewrite loc_after_app, <- (binv_location _ _ _ _ Hinv). reflexivity.
    + rewrite (ends_in_app _ _ _ _ (binv_mode _ _ _ _ Hinv)). apply Hpair.
    + intros Hm.
      rewrite (blocks_opened_app _ _ _ _ (binv_mode _ _ _ _ Hinv)), Hpair0.
      rewrite Nat.add_0_r. apply (binv_outside _ _ _ _ Hinv), Hm.
    + intros Hm.
      destruct (binv_inside _ _ _ _ Hinv Hm)
        as (pre & raw & -> & Hpre & Hcount & He & Hc & Hacc & Hloc).
      exists pre, (raw ++ [c; d]). cbn [c_portions c_accumulatedText c_codeModeLocation].
      split; [rewrite <- app_assoc; reflexivity|]. split; [exact Hpre|].
      split; [exact Hcount|].
      split; [rewrite escapes_complete_app by exact He; simpl; rewrite Hb;
              reflexivity|].
      split; [rewrite no_unescaped_close_app, Hc by exact He; simpl; rewrite Hb;
              reflexivity|].
      split; [|exact Hloc].
      rewrite resolve_escapes_app, Hacc by exact He. simpl. rewrite Hb.
      reflexivity.
    + intros k ctx' loc code Hk. apply Hkeep, Hk.
  - replace (read ++ c :: rs1) with ((read ++ [c]) ++ rs1)
      by (rewrite <- app_assoc; reflexivity).
    assert (Hloc1 : advance_loc (c_location s) c = loc_after init (read ++ [c])).
    { rewrite loc_after_app, <- (binv_location _ _ _ _ Hinv). reflexivity. }
    pose proof (ends_in_app _ _ _ [c] (binv_mode _ _ _ _ Hinv)) as Hmode.
    rewrite (ends_in_single _ _ Hb) in Hmode.
    pose proof (blocks_opened_app _ _ _ [c] (binv_mode _ _ _ _ Hinv)) as Hcount1.
    assert (Hone : blocks_opened (c_codeMode s) [c]
                   = if (c =? r_lbrace) && negb (c_codeMode s) then 1%nat else 0%nat).
    { simpl. rewrite Hb. destruct (_ && _); [reflexivity|].
      destruct (_ && _); reflexivity. }
    rewrite Hone in Hcount1.
    destruct ((c =? r_lbrace) && negb (c_codeMode s)) eqn:Hopen.
    + apply andb_prop in Hopen as [Hc Hout].
      apply Z.eqb_eq in Hc. apply negb_true_iff in Hout. subst c.
      eapply (IH (length rs1)); [simpl in Hn; lia|reflexivity|].
      split; cbn [c_location c_codeMode c_codeModeLocation c_portions
                  c_accumulatedText].
      * exact Hloc1.
      * exact Hmode.
      * discriminate.
      * intros _. exists read, [].
        cbn [c_portions c_accumulatedText c_codeModeLocation].
        split; [reflexivity|].
        split; [rewrite (binv_mode _ _ _ _ Hinv), Hout; reflexivity|].
        split; [rewrite code_count_app; cbn [code_count];
                rewrite Nat.add_0_r; apply (binv_outside _ _ _ _ Hinv), Hout|].
        split; [reflexivity|]. split; [reflexivity|]. split; [reflexivity|].
        rewrite (binv_location _ _ _ _ Hinv). reflexivity.
      * apply (portions_snoc (from_block init (read ++ [r_lbrace]))); [|exact I].
        apply Hkeep.
    + destruct ((c =? r_rbrace) && c_codeMode s) eqn:Hclose.
      * apply andb_prop in Hclose as [Hc Hin].
        apply Z.eqb_eq in Hc. subst c.
        destruct (binv_inside _ _ _ _ Hinv Hin)
          as (pre & raw & Hreadeq & Hpre & Hcount & He & Hcl & Hacc & Hloc).
        eapply (IH (length rs1)); [simpl in Hn; lia|reflexivity|].
        split; cbn [c_location c_codeMode c_codeModeLocation c_portions
                    c_accumulatedText].
        -- exact Hloc1.
        -- exact Hmode.
        -- intros _. rewrite Hcount1, code_count_app. cbn [code_count].
           rewrite Nat.add_0_r, Nat.add_1_r. f_equal.
           rewrite Hreadeq.
           rewrite (blocks_opened_app _ _ _ _ Hpre). cbn [blocks_opened].
           change (r_lbrace =? r_backslash) with false.
           change (r_lbrace =? r_lbrace) with true. cbn [andb negb].
           destruct (inside_block raw He Hcl) as [_ H0].
           rewrite H0, <- Hcount. lia.
        -- discriminate.
        -- apply (portions_snoc (from_block init (read ++ [r_rbrace])));
             [apply Hkeep|].
           split; [reflexivity|]. exists pre, raw, [].
           split; [rewrite Hreadeq, <- app_assoc; reflexivity|].
           split; [exact Hpre|]. split; [exact Hcount|]. split; [exact He|].
           split; [exact Hcl|]. split; [exact Hacc|exact Hloc].
      * eapply (IH (length rs1)); [simpl in Hn; lia|reflexivity|].
        split; cbn [c_location c_codeMode c_codeModeLocation c_portions
                    c_accumulatedText].
        -- exact Hloc1.
        -- exact Hmode.
        -- intros Hm. rewrite Hcount1, Nat.add_0_r.
           apply (binv_outside _ _ _ _ Hinv), Hm.
        -- intros Hm.
           destruct (binv_inside _ _ _ _ Hinv Hm)
             as (pre & raw & -> & Hpre & Hcount & He & Hcl & Hacc & Hloc).
           rewrite Hm, andb_true_r in Hclose.
           exists pre, (raw ++ [c]).
           cbn [c_portions c_accumulatedText c_codeModeLocation].
           split; [rewrite <- app_assoc; reflexivity|]. split; [exact Hpre|].
           split; [exact Hcount|].
           split; [rewrite escapes_complete_app by exact He; simpl; rewrite Hb;
                   reflexivity|].
           split; [rewrite no_unescaped_close_app, Hcl by exact He; simpl;
                   rewrite Hb, Hclose; reflexivity|].
           split; [|exact Hloc].
           rewrite resolve_escapes_app, Hacc by exact He. simpl. rewrite Hb.
           reflexivity.
        -- intros k ctx' loc code Hk. apply Hkeep, Hk.
Qed.

(** The left brace that opens a block is pinned by its rank: two prefixes of
    a text that both end outside a block, before a left brace, with the same
    number of blocks opened in them, are the same prefix. *)
Lemma opening_brace_unique pre1 rest1 pre2 rest2 :
  pre1 ++ r_lbrace :: rest1 = pre2 ++ r_lbrace :: rest2 ->
  ends_in false pre1 = Some false ->
  ends_in false pre2 = Some false ->
  blocks_opened false pre1 = blocks_opened false pre2 ->
  pre1 = pre2.
Proof.
  assert (Hlonger : forall p k r1 r2,
            p ++ r_lbrace :: r1 = (p ++ k) ++ r_lbrace :: r2 ->
            ends_in false p = Some false ->
            blocks_opened false p = blocks_opened false (p ++ k) ->
            k = []).
  { intros p k r1 r2 Heq Hp Hcount.
    destruct k as [|x k]; [reflexivity|]. exfalso.
    rewrite <- app_assoc in Heq. apply app_inv_head in Heq.
    injection Heq as <- _.
    rewrite (blocks_opened_app _ _ _ _ Hp) in Hcount.
    cbn [blocks_opened] in Hcount.
    change (r_lbrace =? r_backslash) with false in Hcount.
    change (r_lbrace =? r_lbrace) with true in Hcount.
    cbn [andb negb] in Hcount. lia. }
  intros Heq H1 H2 Hcount.
  destruct (app_eq_app _ _ _ _ Heq) as [l [[-> Hl] | [-> Hl]]].
  - rewrite (Hlonger pre2 l rest2 rest1), app_nil_r; auto.
  - rewrite (Hlonger pre1 l rest1 rest2), app_nil_r; auto.
Qed.

(** C5 (amended). Every code portion of a compiled template carries the
    compiler's context and, as its location, the position right after the left
    brace that opened its block: the brace's row, and the brace's column plus
    one. The block is the portion's own: the code of the portion is the text
    between that brace and the right brace that closes the block, escapes
    resolved, and the brace is the one of its rank, as many blocks being
    opened before it as code portions stand before the portion. No other
    left brace of the text qualifies. *)
Theorem code_portion_location initialLocation textContent codeCtx t before ctx loc
    code after :
  NewTemplateFromString initialLocation textContent codeCtx = Ok t ->
  portions t = before ++ TemplateCodePortion ctx loc code :: after ->
  ctx = codeCtx
  /\ exists pre raw rest,
      textContent = pre ++ r_lbrace :: raw ++ r_rbrace :: rest
      /\ ends_in false pre = Some false
      /\ blocks_opened false pre = code_count before
      /\ escapes_complete raw = true
      /\ no_unescaped_close raw = true
      /\ code = resolve_escapes raw
      /\ loc = advance_loc (loc_after initialLocation pre) r_lbrace
      /\ path loc = path initialLocation
      /\ row loc = row (loc_after initialLocation pre)
      /\ column loc = int_wrap (column (loc_after initialLocation pre) + 1)
      /\ forall pre' rest',
          textContent = pre' ++ r_lbrace :: rest' ->
          ends_in false pre' = Some false ->
          blocks_opened false pre' = code_count before ->
          pre' = pre.
Proof.
  unfold NewTemplateFromString. intros Hok Hsplit.
  pose proof (compile_loop_blocks initialLocation codeCtx textContent []
                (compile_start initialLocation)
                (block_inv_start initialLocation codeCtx)) as Hall.
  cbn [app] in Hall.
  set (s := compile_loop codeCtx (compile_start initialLocation) textContent) in *.
  assert (Hk : c_portions s !! length before
               = Some (TemplateCodePortion ctx loc code)
               /\ take (length before) (c_portions s) = before).
  { unfold compile_finish in Hok. destruct (c_codeMode s); [discriminate|].
    assert (Hat : (before ++ TemplateCodePortion ctx loc code :: after)
                  !! length before = Some (TemplateCodePortion ctx loc code))
      by (rewrite lookup_app_r, Nat.sub_diag by lia; reflexivity).
    destruct (negb _); injection Hok as <-; cbn [portions] in Hsplit.
    - destruct (lookup_app_Some (c_portions s)
                  [TemplateTextPortion (c_accumulatedText s)] (length before)
                  (TemplateCodePortion ctx loc code)) as [Hcases _].
      rewrite Hsplit in Hcases. destruct (Hcases Hat) as [Hl | [Hlen Hl]].
      + split; [exact Hl|].
        apply lookup_lt_Some in Hl.
        rewrite <- (take_app_le (c_portions s)
                      [TemplateTextPortion (c_accumulatedText s)]) by lia.
        rewrite Hsplit, take_app_length. reflexivity.
      + destruct (length before - length (c_portions s))%nat; discriminate.
    - rewrite Hsplit. split; [exact Hat|apply take_app_length]. }
  destruct Hk as [Hk Htake].
  destruct (Hall _ _ _ _ Hk)
    as [-> (pre & raw & rest & Htext & Hpre & Hcount & He & Hc & Hcode & Hloc)].
  rewrite Htake in Hcount.
  split; [reflexivity|]. exists pre, raw, rest.
  split; [exact Htext|]. split; [exact Hpre|]. split; [exact Hcount|].
  split; [exact He|]. split; [exact Hc|]. split; [exact Hcode|].
  split; [exact Hloc|]. rewrite Hloc.
  split; [apply path_loc_after|]. split; [reflexivity|]. split; [reflexivity|].
  intros pre' rest' Htext' Hpre' Hcount'.
  apply (opening_brace_unique pre' rest' pre (raw ++ r_rbrace :: rest));
    [rewrite <- Htext', <- Htext; reflexivity|exact Hpre'|exact Hpre|].
  rewrite Hcount', Hcount. reflexivity.
Qed.

(** The amended statement at [Site.text_two_blocks], for the portion of the
    second block: one code portion stands before it, and its location is row
    3, column 4. *)
Lemma code_portion_location_witness :
  let loc := {| path := path Sample.page; row := 3; column := 4 |} in
  let before :=
    [TemplateTextPortion [];
     TemplateCodePortion Sample.ctx
       {| path := path Sample.page; row := 1; column := 2 |} (runes_of "a");
     TemplateTextPortion ([r_newline; r_newline] ++ runes_of "xx")] in
  let t := {| portions :=
                before ++ [TemplateCodePortion Sample.ctx loc (runes_of "b")] |} in
  NewTemplateFromString Sample.page Site.text_two_blocks Sample.ctx = Ok t
  /\ portions t = before ++ TemplateCodePortion Sample.ctx loc (runes_of "b") :: []
  /\ exists pre raw rest,
      Site.text_two_blocks = pre ++ r_lbrace :: raw ++ r_rbrace :: rest
      /\ ends_in false pre = Some false
      /\ blocks_opened false pre = code_count before
      /\ escapes_complete raw = true
      /\ no_unescaped_close raw = true
      /\ runes_of "b" = resolve_escapes raw
      /\ loc = advance_loc (loc_after Sample.page pre) r_lbrace
      /\ path loc = path Sample.page
      /\ row loc = row (loc_after Sample.page pre)
      /\ column loc = int_wrap (column (loc_after Sample.page pre) + 1)
      /\ forall pre' rest',
          Site.text_two_blocks = pre' ++ r_lbrace :: rest' ->
          ends_in false pre' = Some false ->
          blocks_opened false pre' = code_count before ->
          pre' = pre.
Proof.
  intros loc before t.
  assert (H1 : NewTemplateFromString Sample.page Site.text_two_blocks Sample.ctx
               = Ok t) by reflexivity.
  assert (H2 : portions t
               = before ++ TemplateCodePortion Sample.ctx loc (runes_of "b") :: [])
    by reflexivity.
  split; [exact H1|]. split; [exact H2|].
  exact (proj2 (code_portion_location Sample.page Site.text_two_blocks Sample.ctx
                  t before Sample.ctx loc (runes_of "b") [] H1 H2)).
Defined.

(** What the rank is for: in [Site.text_two_blocks] the conditions on the
    brace of the second block are met by the brace of row 3 only, so that the
    location they give is row 3, column 4, and not the location of the first
    block. *)
Lemma second_block_location_is_pinned pre rest loc :
  Site.text_two_blocks = pre ++ r_lbrace :: rest ->
  ends_in false pre = Some false ->
  blocks_opened false pre = 1%nat ->
  loc = advance_loc (loc_after Sample.page pre) r_lbrace ->
  loc = {| path := path Sample.page; row := 3; column := 4 |}.
Proof.
  intros Htext Hpre Hcount ->.
  rewrite (opening_brace_unique pre rest
             (runes_of "{a}" ++ [r_newline; r_newline] ++ runes_of "xx")
             (runes_of "b}"));
    [reflexivity|rewrite <- Htext; reflexivity|exact Hpre|reflexivity|].
  rewrite Hcount. reflexivity.
Qed.

(** C5 as stated fails: in [Sample.text_block_x] the left brace is the first
    rune of the page, at row 1 and column 1, and the code portion compiled
    from it carries column 2. *)
Lemma code_portion_location_is_not_the_brace :
  Sample.text_block_x = [] ++ r_lbrace :: runes_of "x}"
  /\ loc_after Sample.page [] = {| path := path Sample.page; row := 1; column := 1 |}
  /\ NewTemplateFromString Sample.page Sample.text_block_x Sample.ctx
     = Ok {| portions :=
               [TemplateTextPortion [];
                TemplateCodePortion Sample.ctx
                  {| path := path Sample.page; row := 1; column := 2 |}
                  (runes_of "x")] |}
  /\ {| path := path Sample.page; row := 1; column := 2 |}
     <> loc_after Sample.page [].
Proof.
  split; [reflexivity|]. split; [reflexivity|]. split; [reflexivity|].
  discriminate.
Qed.

(** ** The header of a page-data file *)

Lemma scanner_run_snoc p r : scanner_run (p ++ [r]) = scanner_step (scanner_run p) r.
Proof. unfold scanner_run. rewrite fold_left_app. reflexivity. Qed.

Lemma header_inv_start : header_inv [] header_start.
Proof. split; simpl; [reflexivity|discriminate|lia]. Qed.

Lemma header_step_inv read st r :
  Z.of_nat (length read) + 1 < 2 ^ 63 ->
  header_inv read st ->
  header_inv (read ++ [r]) (header_step st r).
Proof.
  intros Hlen [Habs Hesc Hbound].
  assert (Hup : int_wrap (h_bracketBalance st + 1) = h_bracketBalance st + 1)
    by (apply int_wrap_id; unfold int_ok; lia).
  assert (Hdown : int_wrap (h_bracketBalance st - 1) = h_bracketBalance st - 1)
    by (apply int_wrap_id; unfold int_ok; lia).
  split.
  - rewrite scanner_run_snoc, <- Habs. unfold header_abs, header_step, scanner_step.
    destruct st as [bal inS esc]; simpl in *.
    destruct esc; [rewrite Hesc by reflexivity; reflexivity|].
    destruct inS; simpl.
    + destruct (r =? r_backslash); [reflexivity|].
      destruct (r =? r_quote); reflexivity.
    + destruct (r =? r_quote); [reflexivity|].
      destruct (r =? r_lbrace); [simpl; rewrite Hup; reflexivity|].
      destruct (r =? r_rbrace); [simpl; rewrite Hdown; reflexivity|reflexivity].
  - unfold header_step. destruct st as [bal inS esc]; simpl in *.
    destruct esc; [discriminate|]. destruct inS; simpl.
    + destruct (r =? r_backslash); [reflexivity|].
      destruct (r =? r_quote); simpl; discriminate.
    + destruct (r =? r_quote); [simpl; discriminate|].
      destruct (r =? r_lbrace); [simpl; discriminate|].
      destruct (r =? r_rbrace); simpl; discriminate.
  - rewrite length_app. simpl length.
    unfold header_step. destruct st as [bal inS esc]; simpl in *.
    destruct esc; [simpl; lia|]. destruct inS; simpl.
    + destruct (r =? r_backslash); [simpl; lia|].
      destruct (r =? r_quote); simpl; lia.
    + destruct (r =? r_quote); [simpl; lia|].
      destruct (r =? r_lbrace); [simpl; rewrite Hup; lia|].
      destruct (r =? r_rbrace); [simpl; rewrite Hdown; lia|simpl; lia].
Qed.

(** The loop's exit test is the terminal condition. *)
Lemma header_exit_terminal read st :
  header_inv read st ->
  negb (h_inString st) && (h_bracketBalance st =? 0) = is_terminal (scanner_run read).
Proof.
  intros [Habs Hesc _]. rewrite <- Habs. unfold header_abs, is_terminal.
  destruct st as [bal inS esc]; simpl in *.
  destruct esc; [rewrite Hesc by reflexivity; reflexivity|].
  destruct inS; reflexivity.
Qed.

(** The header loop, started after [read] with the header so far being
    [read]: it splits the text, stops at the first prefix longer than [read]
    on which the scanner is terminal, and takes the whole text when there is
    none. *)
Lemma header_loop_spec rs :
  forall read st loc,
    Z.of_nat (length read) + Z.of_nat (length rs) < 2 ^ 63 ->
    header_inv read st ->
    exists h body,
      header_loop st rs loc read = (read ++ h, (body, loc_after loc h))
      /\ rs = h ++ body
      /\ (forall p k, h = p ++ k -> p <> [] -> k <> [] ->
          is_terminal (scanner_run (read ++ p)) = false)
      /\ (h <> [] -> is_terminal (scanner_run (read ++ h)) = true \/ body = [])
      /\ (h = [] -> rs = []).
Proof.
  induction rs as [|r rs IH]; intros read st loc Hlen Hinv.
  - exists [], []. simpl. rewrite app_nil_r.
    repeat split; try congruence.
    intros p k Hpk. symmetry in Hpk. apply app_eq_nil in Hpk as [-> ->]. congruence.
  - simpl length in Hlen.
    assert (Hinv' : header_inv (read ++ [r]) (header_step st r))
      by (apply header_step_inv; [lia|exact Hinv]).
    cbn [header_loop]. rewrite (header_exit_terminal _ _ Hinv').
    destruct (is_terminal (scanner_run (read ++ [r]))) eqn:Hterm.
    + exists [r], rs. repeat split; try congruence.
      * intros p k Hpk Hp Hk. destruct p as [|x p]; [congruence|].
        injection Hpk as <- Hpk. symmetry in Hpk.
        apply app_eq_nil in Hpk as [-> ->]. congruence.
      * intros _. left. exact Hterm.
    + destruct (IH (read ++ [r]) (header_step st r) (advance_loc loc r))
        as (h & body & Hloop & Hrs & Hmin & Hend & Hnil).
      { rewrite length_app. simpl length. lia. }
      { exact Hinv'. }
      exists (r :: h), body. rewrite Hloop.
      rewrite <- !app_assoc. simpl. repeat split; try congruence.
      * intros p k Hpk Hp Hk. destruct p as [|x p]; [congruence|].
        injection Hpk as <- Hpk.
        destruct p as [|y p]; [exact Hterm|].
        replace (read ++ r :: y :: p) with ((read ++ [r]) ++ y :: p)
          by (rewrite <- app_assoc; reflexivity).
        apply (Hmin (y :: p) k Hpk); [discriminate|exact Hk].
      * intros _. destruct h as [|y h].
        -- right. rewrite (Hnil eq_refl) in Hrs. symmetry in Hrs.
           apply app_eq_nil in Hrs as [_ ->]. reflexivity.
        -- replace (read ++ r :: y :: h) with ((read ++ [r]) ++ y :: h)
             by (rewrite <- app_assoc; reflexivity).
           apply Hend. discriminate.
Qed.

(** While the balance is positive the loop can only exit on a right brace. *)
Lemma header_loop_closing rs :
  forall read st loc jsonHeader rest,
    Z.of_nat (length read) + Z.of_nat (length rs) < 2 ^ 63 ->
    header_inv read st ->
    1 <= h_bracketBalance st ->
    header_loop st rs loc read = (jsonHeader, rest) ->
    is_terminal (scanner_run jsonHeader) = true ->
    exists h, jsonHeader = h ++ [r_rbrace].
Proof.
  induction rs as [|r rs IH]; intros read st loc jsonHeader rest Hlen Hinv Hbal.
  - simpl. intros [= <- <-]. rewrite <- (hinv_abs _ _ Hinv).
    unfold header_abs, is_terminal.
    destruct (h_escaped st); [discriminate|]. destruct (h_inString st); [discriminate|].
    intros H. apply Z.eqb_eq in H. lia.
  - simpl length in Hlen.
    assert (Hinv' : header_inv (read ++ [r]) (header_step st r))
      by (apply header_step_inv; [lia|exact Hinv]).
    assert (Hdown : int_wrap (h_bracketBalance st - 1) = h_bracketBalance st - 1).
    { apply int_wrap_id. pose proof (hinv_bound _ _ Hinv). unfold int_ok. lia. }
    assert (Hup : int_wrap (h_bracketBalance st + 1) = h_bracketBalance st + 1).
    { apply int_wrap_id. pose proof (hinv_bound _ _ Hinv). unfold int_ok. lia. }
    assert (Hstep : (negb (h_inString (header_step st r))
                     && (h_bracketBalance (header_step st r) =? 0) = true
                     -> r = r_rbrace)
                    /\ (negb (h_inString (header_step st r))
                        && (h_bracketBalance (header_step st r) =? 0) = false
                        -> 1 <= h_bracketBalance (header_step st r))).
    { unfold header_step. destruct st as [bal inS esc]; simpl in *.
      destruct esc; simpl.
      { split; [|lia]. intros H. apply andb_prop in H as [_ H].
        apply Z.eqb_eq in H. lia. }
      destruct inS; simpl.
      { destruct (r =? r_backslash); simpl; [split; [discriminate|lia]|].
        destruct (r =? r_quote); simpl; [|split; [discriminate|lia]].
        split; [|lia]. intros H. apply Z.eqb_eq in H. lia. }
      destruct (r =? r_quote); simpl; [split; [discriminate|lia]|].
      destruct (r =? r_lbrace); simpl.
      { rewrite Hup. split; [|lia]. intros H. apply Z.eqb_eq in H. lia. }
      destruct (r =? r_rbrace) eqn:Hr; simpl.
      { rewrite Hdown. split.
        - intros _. apply Z.eqb_eq. exact Hr.
        - intros H. apply Z.eqb_neq in H. lia. }
      split; [|lia]. intros H. apply Z.eqb_eq in H. lia. }
    cbn [header_loop].
    destruct (negb (h_inString (header_step st r))
              && (h_bracketBalance (header_step st r) =? 0)) eqn:Hexit.
    + intros [= <- <-] _. exists read. rewrite (proj1 Hstep eq_refl). reflexivity.
    + apply IH.
      * rewrite length_app. simpl length. lia.
      * exact Hinv'.
      * apply (proj2 Hstep eq_refl).
Qed.

(** C8 (amended). The header of a page-data file is read from the first
    character on by the scanner of the specification: three states, the escape
    state lasting one character and entered only inside a string, the depth
    moving only outside strings. The header is the shortest non-empty prefix
    of the content after which the scanner is outside a string at depth zero,
    the test being made after every character including the first; when there
    is no such prefix the header is the whole content. Everything after the
    header is the body, read from the location reached after the header. When
    the content begins with a left brace and the header ends on the terminal
    condition, the header's last character is a right brace. *)
Theorem header_body_split initialLocation textContent :
  Z.of_nat (length textContent) < 2 ^ 63 ->
  exists jsonHeader body,
    split_header initialLocation textContent
    = (jsonHeader, (body, loc_after initialLocation jsonHeader))
    /\ textContent = jsonHeader ++ body
    /\ (textContent <> [] -> jsonHeader <> [])
    /\ (forall p k, jsonHeader = p ++ k -> p <> [] -> k <> [] ->
        is_terminal (scanner_run p) = false)
    /\ (is_terminal (scanner_run jsonHeader) = true \/ body = [])
    /\ (forall rest, textContent = r_lbrace :: rest ->
        is_terminal (scanner_run jsonHeader) = true ->
        exists h, jsonHeader = h ++ [r_rbrace]).
Proof.
  intros Hlen. unfold split_header.
  destruct (header_loop_spec textContent [] header_start initialLocation)
    as (h & body & Hloop & Htext & Hmin & Hend & Hnil);
    [simpl; lia|exact header_inv_start|].
  simpl app in *. exists h, body.
  split; [exact Hloop|]. split; [exact Htext|].
  split; [intros Hne ->; apply Hne, Hnil; reflexivity|].
  split; [exact Hmin|]. split.
  - destruct h as [|x h]; [left; reflexivity|]. apply Hend. discriminate.
  - intros rest -> Hterm.
    cbn [header_loop] in Hloop.
    change (negb (h_inString (header_step header_start r_lbrace))
            && (h_bracketBalance (header_step header_start r_lbrace) =? 0))
      with false in Hloop.
    cbn iota in Hloop.
    eapply (header_loop_closing rest [r_lbrace]); [| | |exact Hloop|exact Hterm].
    + simpl length in *. lia.
    + apply (header_step_inv [] header_start r_lbrace); [simpl; lia|].
      exact header_inv_start.
    + vm_compute. discriminate.
Qed.

(** The amended statement at [Sample.text_page], whose header holds a right
    brace inside a string. *)
Lemma header_body_split_witness :
  Z.of_nat (length Sample.text_page) < 2 ^ 63
  /\ split_header Sample.page Sample.text_page
     = (runes_of "{" ++ Sample.quoted (runes_of "a") ++ runes_of ":"
        ++ Sample.quoted (runes_of "}") ++ runes_of "}",
        (runes_of "B", {| path := path Sample.page; row := 1; column := 10 |}))
  /\ exists jsonHeader body,
      split_header Sample.page Sample.text_page
      = (jsonHeader, (body, loc_after Sample.page jsonHeader))
      /\ Sample.text_page = jsonHeader ++ body
      /\ (Sample.text_page <> [] -> jsonHeader <> [])
      /\ (forall p k, jsonHeader = p ++ k -> p <> [] -> k <> [] ->
          is_terminal (scanner_run p) = false)
      /\ (is_terminal (scanner_run jsonHeader) = true \/ body = [])
      /\ (forall rest, Sample.text_page = r_lbrace :: rest ->
          is_terminal (scanner_run jsonHeader) = true ->
          exists h, jsonHeader = h ++ [r_rbrace]).
Proof.
  assert (H : Z.of_nat (length Sample.text_page) < 2 ^ 63) by (vm_compute; reflexivity).
  split; [exact H|]. split; [reflexivity|].
  exact (header_body_split Sample.page Sample.text_page H).
Defined.

(** C8 as stated fails when the content does not begin with a left brace. In
    the content made of a space, an empty object and the body [B], the depth
    first returns to zero on the right brace, the third character; the header
    nevertheless ends on the first character, the space, and the object is
    left to the body. *)
Lemma header_ends_on_first_character :
  split_header Sample.page (runes_of " {}B")
  = (runes_of " ", (runes_of "{}B", {| path := path Sample.page; row := 1; column := 2 |}))
  /\ last (runes_of " ") <> Some r_rbrace
  /\ scanner_run (runes_of " {") = (Normal, 1)
  /\ scanner_run (runes_of " {}") = (Normal, 0).
Proof.
  split; [reflexivity|]. split; [discriminate|]. split; reflexivity.
Qed.

(** The page composer hands the header to the JSON decoder and compiles the
    body from the location reached after the header. *)
Lemma NewTemplateInputFromString_split json_Unmarshal initialLocation textContent
    staticDir jsonHeader body loc :
  split_header initialLocation textContent = (jsonHeader, (body, loc)) ->
  NewTemplateInputFromString json_Unmarshal initialLocation textContent staticDir
  = match UnmarshalJsonWithComments json_Unmarshal jsonHeader with
    | Err _ => Err (ErrInvalidJsonHeader (path initialLocation))
    | Ok templateInputVariables =>
        t ← NewTemplateFromString loc body
              {| StaticDir := staticDir;
                 Content := sentinel_content;
                 Variables := templateInputVariables |};
        Ok {| variables := templateInputVariables; content := t |}
    end.
Proof. intros H. unfold NewTemplateInputFromString. rewrite H. reflexivity. Qed.

(** What the early end of the header means for a page: with a decoder that
    rejects a text made of one space, as [json.Unmarshal] does, the page made
    of a space, an empty object and a body is refused for its header. *)
Lemma leading_space_is_invalid_header json_Unmarshal staticDir :
  json_Unmarshal (runes_of " ") = None ->
  NewTemplateInputFromString json_Unmarshal Sample.page (runes_of " {}B") staticDir
  = Err (ErrInvalidJsonHeader (path Sample.page)).
Proof.
  intros Hdec.
  rewrite (NewTemplateInputFromString_split json_Unmarshal Sample.page
             (runes_of " {}B") staticDir (runes_of " ") (runes_of "{}B")
             {| path := path Sample.page; row := 1; column := 2 |} eq_refl).
  unfold UnmarshalJsonWithComments.
  replace (removeCommentsFromJson (runes_of " ")) with (Ok (runes_of " "))
    by (vm_compute; reflexivity).
  cbn [mbind res_mbind res_bind]. rewrite Hdec. reflexivity.
Qed.

(** ** Comments in JSON *)

(** One round of the comment loop with at least two runes left, in the shape
    of the source. *)
Lemma removeComments_loop_step c next rs2 inString escaped builder :
  removeComments_loop (c :: next :: rs2) inString escaped builder =
  let inString' := json_inString c inString escaped in
  let escaped' := json_escaped c inString' escaped in
  if negb inString' && (c =? r_slash) then
    if next =? r_slash then
      removeComments_loop (skip_line_comment rs2) inString' escaped' builder
    else if next =? r_star then
      match skip_block_comment rs2 with
      | None => Err ErrUnclosedComment
      | Some rest => removeComments_loop rest inString' escaped' builder
      end
    else removeComments_loop (next :: rs2) inString' escaped' (builder ++ [c])
  else removeComments_loop (next :: rs2) inString' escaped' (builder ++ [c]).
Proof.
  simp removeComments_loop. cbv zeta.
  destruct (negb _ && _); simpl; [|reflexivity].
  destruct (next =? r_slash); simpl; [reflexivity|].
  destruct (next =? r_star); simpl; [|reflexivity].
  destruct (inspect (skip_block_comment rs2)) as [[r|] Hr]; simpl; rewrite Hr;
    reflexivity.
Qed.

(** A rune that does not start a comment is written and the loop goes on. *)
Lemma removeComments_loop_write c rs inString escaped builder :
  negb (json_inString c inString escaped) && (c =? r_slash) = false ->
  removeComments_loop (c :: rs) inString escaped builder
  = removeComments_loop rs (json_inString c inString escaped)
      (json_escaped c (json_inString c inString escaped) escaped) (builder ++ [c]).
Proof.
  intros H. destruct rs as [|next rs2].
  - simp removeComments_loop. reflexivity.
  - rewrite removeComments_loop_step. cbv zeta. rewrite H. reflexivity.
Qed.

(** Inside a string everything up to the closing quote is written. *)
Lemma removeComments_loop_in_string s :
  forall rest builder,
    string_body s = true ->
    removeComments_loop (s ++ r_quote :: rest) true false builder
    = removeComments_loop rest false false (builder ++ s ++ [r_quote]).
Proof.
  induction s as [|c|c d s IH2 IH1] using list_two_step_ind; intros rest builder.
  - intros _. simpl app. rewrite removeComments_loop_write by reflexivity.
    reflexivity.
  - simpl string_body. destruct (c =? r_backslash) eqn:Hb; [discriminate|].
    destruct (c =? r_quote) eqn:Hq; [discriminate|]. intros _.
    simpl app. rewrite removeComments_loop_write
      by (unfold json_inString; rewrite Hq; reflexivity).
    unfold json_inString, json_escaped. rewrite Hq, Hb. simpl.
    rewrite removeComments_loop_write by reflexivity.
    rewrite <- app_assoc. reflexivity.
  - change ((c :: d :: s) ++ r_quote :: rest) with (c :: d :: s ++ r_quote :: rest).
    cbn [string_body]. destruct (c =? r_backslash) eqn:Hb.
    + intros H.
      assert (Hq : (c =? r_quote) = false).
      { apply Z.eqb_eq in Hb. subst c. reflexivity. }
      rewrite removeComments_loop_write
        by (unfold json_inString; rewrite Hq; reflexivity).
      unfold json_inString at 1 2, json_escaped at 1. rewrite Hq, Hb. simpl.
      rewrite removeComments_loop_write
        by (unfold json_inString; simpl; rewrite andb_false_r; reflexivity).
      replace (json_inString d true true) with true
        by (unfold json_inString; rewrite andb_false_r; reflexivity).
      replace (json_escaped d true true) with false
        by (unfold json_escaped; destruct (d =? r_backslash); reflexivity).
      rewrite IH2 by exact H.
      rewrite <- !app_assoc. reflexivity.
    + destruct (c =? r_quote) eqn:Hq; [discriminate|]. intros H.
      rewrite removeComments_loop_write
        by (unfold json_inString; rewrite Hq; reflexivity).
      unfold json_inString, json_escaped. rewrite Hq, Hb. simpl.
      change (d :: s ++ r_quote :: rest) with ((d :: s) ++ r_quote :: rest).
      rewrite IH1 by exact H.
      rewrite <- !app_assoc. reflexivity.
Qed.

Lemma skip_line_comment_app body rest :
  line_body body = true -> ends_line rest = true ->
  skip_line_comment (body ++ rest) = rest.
Proof.
  intros Hb Hr. induction body as [|d body IH]; simpl.
  - destruct rest as [|d rest]; [reflexivity|]. simpl in *. rewrite Hr. reflexivity.
  - simpl in Hb. apply andb_prop in Hb as [Hd Hb].
    apply negb_true_iff in Hd. rewrite Hd. apply IH, Hb.
Qed.

Lemma skip_block_comment_closed body rest :
  block_body body = true ->
  skip_block_comment (body ++ r_star :: r_slash :: rest) = Some rest.
Proof.
  induction body as [|a body IH]; [reflexivity|].
  intros H. change ((a :: body) ++ r_star :: r_slash :: rest)
    with (a :: body ++ r_star :: r_slash :: rest).
  destruct body as [|b body].
  - simpl. rewrite andb_false_r. reflexivity.
  - cbn [block_body] in H. apply andb_prop in H as [Hab H].
    apply negb_true_iff in Hab.
    change (a :: (b :: body) ++ r_star :: r_slash :: rest)
      with (a :: b :: body ++ r_star :: r_slash :: rest).
    cbn [skip_block_comment]. rewrite Hab. apply IH, H.
Qed.

Lemma skip_block_comment_unclosed body :
  block_body body = true -> skip_block_comment body = None.
Proof.
  induction body as [|a body IH]; [reflexivity|].
  destruct body as [|b body]; [reflexivity|].
  intros H. cbn [block_body] in H. apply andb_prop in H as [Hab H].
  apply negb_true_iff in Hab. cbn [skip_block_comment]. rewrite Hab.
  apply IH, H.
Qed.

Section CommentsTheorem.

Variable json_Unmarshal : gostring -> option (gmap gostring gostring).

(** C9. Outside strings, comment stripping copies every rune other than a
    quote and a slash. It leaves a quoted string as it is, whatever stands
    between its quotes (slashes and stars included); outside strings it
    removes a line comment up to the line break or the end of the text, and
    a block comment up to its first closing star-slash; a block comment that
    is never closed makes it fail. The header [Sample.header_title], whose
    string value starts with two slashes, is handed to the JSON decoder
    unchanged, so it is decoded as the decoder decodes that very text. *)
Theorem comments_only_outside_strings :
  (forall c rest builder,
      c <> r_quote -> c <> r_slash ->
      removeComments_loop (c :: rest) false false builder
      = removeComments_loop rest false false (builder ++ [c]))
  /\ (forall s rest builder,
      string_body s = true ->
      removeComments_loop (r_quote :: s ++ r_quote :: rest) false false builder
      = removeComments_loop rest false false (builder ++ r_quote :: s ++ [r_quote]))
  /\ (forall body rest builder,
        line_body body = true -> ends_line rest = true ->
        removeComments_loop (r_slash :: r_slash :: body ++ rest) false false builder
        = removeComments_loop rest false false builder)
  /\ (forall body rest builder,
        block_body body = true ->
        removeComments_loop
          (r_slash :: r_star :: body ++ r_star :: r_slash :: rest) false false builder
        = removeComments_loop rest false false builder)
  /\ (forall body builder,
        block_body body = true ->
        removeComments_loop (r_slash :: r_star :: body) false false builder
        = Err ErrUnclosedComment)
  /\ removeCommentsFromJson Sample.header_title = Ok Sample.header_title
  /\ UnmarshalJsonWithComments json_Unmarshal Sample.header_title
     = match json_Unmarshal Sample.header_title with
       | None => Err ErrJsonUnmarshal
       | Some v => Ok v
       end.
Proof.
  assert (Hex : removeCommentsFromJson Sample.header_title = Ok Sample.header_title).
  { vm_compute. reflexivity. }
  split; [|split; [|split; [|split; [|split; [|split]]]]].
  - intros c rest builder Hq Hs.
    assert (Hq' : (c =? r_quote) = false) by (apply Z.eqb_neq; exact Hq).
    assert (Hs' : (c =? r_slash) = false) by (apply Z.eqb_neq; exact Hs).
    rewrite removeComments_loop_write
      by (unfold json_inString; rewrite Hq', Hs'; reflexivity).
    unfold json_inString, json_escaped. rewrite Hq'. simpl.
    rewrite andb_false_r. reflexivity.
  - intros s rest builder Hs.
    rewrite removeComments_loop_write by reflexivity.
    change (json_inString r_quote false false) with true.
    change (json_escaped r_quote true false) with false.
    rewrite removeComments_loop_in_string by exact Hs.
    rewrite <- app_assoc. reflexivity.
  - intros body rest builder Hb Hr.
    rewrite removeComments_loop_step. cbv zeta.
    change (negb (json_inString r_slash false false) && (r_slash =? r_slash))
      with true.
    change (r_slash =? r_slash) with true. cbn iota.
    rewrite skip_line_comment_app by assumption. reflexivity.
  - intros body rest builder Hb.
    rewrite removeComments_loop_step. cbv zeta.
    change (negb (json_inString r_slash false false) && (r_slash =? r_slash))
      with true.
    change (r_star =? r_slash) with false. change (r_star =? r_star) with true.
    cbn iota. rewrite skip_block_comment_closed by exact Hb. reflexivity.
  - intros body builder Hb.
    rewrite removeComments_loop_step. cbv zeta.
    change (negb (json_inString r_slash false false) && (r_slash =? r_slash))
      with true.
    change (r_star =? r_slash) with false. change (r_star =? r_star) with true.
    cbn iota. rewrite skip_block_comment_unclosed by exact Hb. reflexivity.
  - exact Hex.
  - unfold UnmarshalJsonWithComments. rewrite Hex. reflexivity.
Qed.

End CommentsTheorem.

(** The rules at a string literal holding both comment openers, followed by
    a line comment that runs to the end of the text. *)
Lemma comments_only_outside_strings_witness :
  string_body (runes_of "a//b/*c") = true
  /\ line_body (runes_of " x") = true
  /\ ends_line [] = true
  /\ removeCommentsFromJson
       (r_quote :: runes_of "a//b/*c" ++ r_quote :: r_slash :: r_slash :: runes_of " x" ++ [])
     = Ok (r_quote :: runes_of "a//b/*c" ++ [r_quote]).
Proof.
  split; [reflexivity|]. split; [reflexivity|]. split; [reflexivity|].
  destruct (comments_only_outside_strings (fun _ => None)) as (_ & Hstr & Hline & _).
  unfold removeCommentsFromJson.
  etrans; [apply (Hstr (runes_of "a//b/*c")); reflexivity|].
  etrans; [apply (Hline (runes_of " x") []); reflexivity|].
  simp removeComments_loop. reflexivity.
Defined.

(** * Further properties *)

(** ** The tokenizer *)

(** Skipping white space removes the longest white prefix and moves the
    location over it. *)
Lemma skipWhitespace_loop_spec rs :
  forall loc,
    exists ws rest,
      rs = ws ++ rest
      /\ forallb IsSpace ws = true
      /\ skipWhitespace_loop rs loc
         = {| t_runes := rest; t_location := loc_after loc ws |}
      /\ match rest with [] => True | c :: _ => IsSpace c = false end.
Proof.
  induction rs as [|c rs IH]; intros loc.
  - exists [], []. repeat split.
  - simpl. destruct (IsSpace c) eqn:Hc.
    + destruct (IH (advance_loc loc c)) as (ws & rest & -> & Hws & Hskip & Hrest).
      exists (c :: ws), rest. simpl. rewrite Hc, Hws. auto.
    + exists [], (c :: rs). repeat split. exact Hc.
Qed.

(** A word is the longest run of runes that are no delimiters. *)
Lemma lexWord_spec rs :
  forall loc val,
    exists word rest,
      rs = word ++ rest
      /\ forallb (fun c => negb (is_delimiter c)) word = true
      /\ lexWord rs loc val
         = (val ++ word, {| t_runes := rest; t_location := loc_after loc word |})
      /\ match rest with [] => True | c :: _ => is_delimiter c = true end.
Proof.
  induction rs as [|c rs IH]; intros loc val.
  - exists [], []. simpl. rewrite app_nil_r. repeat split.
  - simpl. fold (is_delimiter c). destruct (is_delimiter c) eqn:Hc.
    + exists [], (c :: rs). simpl. rewrite app_nil_r. repeat split. exact Hc.
    + destruct (IH (advance_loc loc c) (val ++ [c]))
        as (word & rest & -> & Hword & Hlex & Hrest).
      exists (c :: word), rest. simpl. rewrite Hc, Hword, Hlex.
      rewrite <- app_assoc. auto.
Qed.

(** A string literal that closes is consumed up to its closing quote. *)
Lemma lexString_consumes rs :
  forall loc val v t',
    lexString rs loc val = Ok (v, t') ->
    exists body,
      rs = body ++ r_quote :: t_runes t'
      /\ t_location t' = loc_after loc (body ++ [r_quote]).
Proof.
  induction rs as [|c|c d rs IH2 IH1] using list_two_step_ind; intros loc val v t'.
  - discriminate.
  - simpl. destruct (c =? r_backslash); [discriminate|].
    destruct (c =? r_quote) eqn:Hq; [|discriminate].
    apply Z.eqb_eq in Hq. subst c. intros [= <- <-]. exists []. auto.
  - remember (d :: rs) as rs1 eqn:E. cbn [lexString].
    destruct (c =? r_backslash).
    + subst rs1. intros H. apply IH2 in H as (body & -> & ->).
      exists (c :: d :: body). auto.
    + destruct (c =? r_quote) eqn:Hq.
      * apply Z.eqb_eq in Hq. subst c. intros [= <- <-]. exists []. auto.
      * intros H. apply IH1 in H as (body & Hrs & ->).
        exists (c :: body). rewrite Hrs. auto.
Qed.

(** X1. Reading a token consumes the white space before it and then at least
    one rune, nothing else: the runes left are a suffix of the input. The
    token's location is the position of its first rune, the one reached from
    the tokenizer's location over the white space; the tokenizer's new location
    is the one reached over everything consumed. *)
Theorem NextToken_consumes_and_locates t tok t' :
  NextToken t = Ok (Some tok, t') ->
  exists ws lexeme,
    t_runes t = ws ++ lexeme ++ t_runes t'
    /\ forallb IsSpace ws = true
    /\ lexeme <> []
    /\ match lexeme with [] => True | c :: _ => IsSpace c = false end
    /\ location tok = loc_after (t_location t) ws
    /\ t_location t' = loc_after (t_location t) (ws ++ lexeme).
Proof.
  unfold NextToken, skipWhitespace.
  destruct (skipWhitespace_loop_spec (t_runes t) (t_location t))
    as (ws & rest & Hrs & Hws & -> & Hhead).
  cbn [t_runes t_location]. destruct rest as [|c rest]; [discriminate|].
  destruct (isSingleChar c) eqn:Hsc.
  - intros [= <- <-]. exists ws, [c]. cbn [t_runes t_location location].
    rewrite loc_after_app. repeat split; auto; try discriminate.
  - destruct (c =? r_quote) eqn:Hq.
    + destruct (lexString rest (advance_loc (loc_after (t_location t) ws) c) [])
        as [[v t1]|e] eqn:El; [|discriminate].
      cbn [mbind res_mbind res_bind]. intros [= <- <-].
      apply lexString_consumes in El as (body & -> & Hloc).
      exists ws, (c :: body ++ [r_quote]). cbn [location].
      split; [rewrite Hrs; cbn [app]; rewrite <- app_assoc; reflexivity|].
      split; [exact Hws|]. split; [discriminate|]. split; [exact Hhead|].
      split; [reflexivity|]. rewrite Hloc, (loc_after_app ws). reflexivity.
    + destruct (lexWord_spec (c :: rest) (loc_after (t_location t) ws) [])
        as (word & rest' & Hw & Hword & Hlex & _).
      rewrite Hlex. intros [= <- <-]. cbn [t_runes t_location location].
      destruct word as [|x word].
      { exfalso. simpl in Hw. subst rest'. simpl in Hlex.
        unfold is_delimiter in *. rewrite Hhead, Hsc, Hq in Hlex. simpl in Hlex.
        destruct (lexWord_spec rest (advance_loc (loc_after (t_location t) ws) c) [c])
          as (w2 & r2 & Hw2 & _ & Hlex2 & _).
        rewrite Hlex2 in Hlex. injection Hlex as _ Hr _.
        apply (f_equal (@length rune)) in Hw2, Hr. rewrite length_app in Hw2.
        simpl in Hr. lia. }
      exists ws, (x :: word). rewrite Hrs, Hw, loc_after_app.
      injection Hw as -> _. repeat split; auto; try discriminate.
Qed.

(** X2. No token is returned exactly when only white space is left, and then
    that white space is consumed. *)
Theorem NextToken_end_of_input t :
  (forallb IsSpace (t_runes t) = true <->
   exists t', NextToken t = Ok (None, t'))
  /\ (forall t', NextToken t = Ok (None, t') ->
      t_runes t' = []
      /\ t_location t' = loc_after (t_location t) (t_runes t)).
Proof.
  unfold NextToken, skipWhitespace.
  destruct (skipWhitespace_loop_spec (t_runes t) (t_location t))
    as (ws & rest & Hrs & Hws & -> & Hhead).
  cbn [t_runes t_location]. rewrite Hrs, forallb_app, Hws.
  destruct rest as [|c rest].
  - rewrite app_nil_r. split.
    + split; [eauto|reflexivity].
    + intros t' [= <-]. auto.
  - cbn [forallb]. rewrite Hhead. cbn [andb].
    assert (Hno : forall t', 
      (if isSingleChar c
       then Ok (Some {| kind := TokenKindSingleChar; value := [c];
                        location := loc_after (t_location t) ws |},
                {| t_runes := rest;
                   t_location := advance_loc (loc_after (t_location t) ws) c |})
       else if c =? r_quote
       then '(val, t'0) ← lexString rest
                             (advance_loc (loc_after (t_location t) ws) c) [];
            Ok (Some {| kind := TokenKindString; value := val;
                        location := loc_after (t_location t) ws |}, t'0)
       else let '(val, t'0) := lexWord (c :: rest) (loc_after (t_location t) ws) [] in
            Ok (Some {| kind := TokenKindWord; value := val;
                        location := loc_after (t_location t) ws |}, t'0))
      <> Ok (None, t')).
    { intros t'. destruct (isSingleChar c); [discriminate|].
      destruct (c =? r_quote).
      - destruct (lexString _ _ _) as [[v t1]|e]; discriminate.
      - destruct (lexWord _ _ _) as [v t1]. discriminate. }
    split.
    + split; [discriminate|]. intros [t' H]. exfalso. exact (Hno t' H).
    + intros t' H. exfalso. exact (Hno t' H).
Qed.

(** X3. The three kinds of token: a single-character token holds exactly one
    of the five punctuation runes (so reading its first rune never fails); a
    word is not empty, holds no delimiter and stops only at a delimiter or at
    the end of the input; a string token comes from a text that opens with a
    quote. *)
Theorem NextToken_token_shapes t tok t' :
  NextToken t = Ok (Some tok, t') ->
  match kind tok with
  | TokenKindSingleChar =>
      exists c, value tok = [c] /\ c ∈ singleCharTokens
  | TokenKindWord =>
      value tok <> []
      /\ forallb (fun c => negb (is_delimiter c)) (value tok) = true
      /\ match t_runes t' with [] => True | c :: _ => is_delimiter c = true end
  | TokenKindString =>
      exists ws rest, t_runes t = ws ++ r_quote :: rest /\ forallb IsSpace ws = true
  end.
Proof.
  unfold NextToken, skipWhitespace.
  destruct (skipWhitespace_loop_spec (t_runes t) (t_location t))
    as (ws & rest & Hrs & Hws & -> & Hhead).
  cbn [t_runes t_location]. destruct rest as [|c rest]; [discriminate|].
  destruct (isSingleChar c) eqn:Hsc.
  - intros [= <- <-]. cbn [kind value]. exists c. split; [reflexivity|].
    unfold isSingleChar in Hsc. apply existsb_exists in Hsc as (x & Hin & Hx).
    apply Z.eqb_eq in Hx. subst x. apply list_elem_of_In. exact Hin.
  - destruct (c =? r_quote) eqn:Hq.
    + destruct (lexString _ _ _) as [[v t1]|e]; [|discriminate].
      cbn [mbind res_mbind res_bind]. intros [= <- <-]. cbn [kind].
      apply Z.eqb_eq in Hq. subst c. exists ws, rest. auto.
    + cbn [lexWord]. fold (is_delimiter c).
      assert (Hd : is_delimiter c = false)
        by (unfold is_delimiter; rewrite Hhead, Hsc, Hq; reflexivity).
      rewrite Hd.
      destruct (lexWord_spec rest (advance_loc (loc_after (t_location t) ws) c)
                  ([] ++ [c])) as (word & rest' & Hw & Hword & Hlex & Hnext).
      rewrite Hlex. intros [= <- <-]. cbn [kind value t_runes].
      split; [discriminate|]. split; [|exact Hnext].
      cbn [app forallb]. rewrite Hd, Hword. reflexivity.
Qed.

Lemma lexString_unterminated s :
  forall loc val,
    no_unescaped_quote s = true ->
    lexString s loc val = Err (ErrTokenizerUnterminatedString (loc_after loc s)).
Proof.
  induction s as [|c|c d s IH2 IH1] using list_two_step_ind; intros loc val.
  - reflexivity.
  - simpl. destruct (c =? r_backslash); [reflexivity|].
    destruct (c =? r_quote); [discriminate|reflexivity].
  - remember (d :: s) as s1 eqn:E. cbn [lexString no_unescaped_quote loc_after].
    destruct (c =? r_backslash).
    + subst s1. cbn [loc_after]. apply IH2.
    + destruct (c =? r_quote); [discriminate|]. apply IH1.
Qed.

Lemma lexString_error s :
  forall loc val e,
    lexString s loc val = Err e ->
    no_unescaped_quote s = true.
Proof.
  induction s as [|c|c d s IH2 IH1] using list_two_step_ind; intros loc val e.
  - reflexivity.
  - simpl. destruct (c =? r_backslash); [reflexivity|].
    destruct (c =? r_quote); [discriminate|reflexivity].
  - remember (d :: s) as s1 eqn:E. cbn [lexString no_unescaped_quote].
    destruct (c =? r_backslash).
    + subst s1. apply IH2.
    + destruct (c =? r_quote); [discriminate|]. apply IH1.
Qed.

(** X4. The tokenizer fails in one way only: a string literal is opened, after
    white space, and no unescaped quote closes it before the input ends. The
    error then reports the location of the end of the input. *)
Theorem NextToken_error_is_unterminated_string t e :
  NextToken t = Err e <->
  (exists ws s,
      t_runes t = ws ++ r_quote :: s
      /\ forallb IsSpace ws = true
      /\ no_unescaped_quote s = true)
  /\ e = ErrTokenizerUnterminatedString (loc_after (t_location t) (t_runes t)).
Proof.
  unfold NextToken, skipWhitespace.
  destruct (skipWhitespace_loop_spec (t_runes t) (t_location t))
    as (ws & rest & Hrs & Hws & -> & Hhead).
  cbn [t_runes t_location]. split.
  - destruct rest as [|c rest]; [discriminate|].
    destruct (isSingleChar c) eqn:Hsc; [discriminate|].
    destruct (c =? r_quote) eqn:Hq.
    + apply Z.eqb_eq in Hq. subst c.
      destruct (lexString rest _ []) as [[v t1]|e'] eqn:El; [discriminate|].
      cbn [mbind res_mbind res_bind]. intros [= <-].
      pose proof (lexString_error _ _ _ _ El) as Hno.
      rewrite (lexString_unterminated _ _ _ Hno) in El. injection El as <-.
      split; [exists ws, rest; auto|].
      rewrite Hrs, loc_after_app. reflexivity.
    + destruct (lexWord _ _ _) as [v t1]. discriminate.
  - intros [(ws' & s & Hrs' & Hws' & Hno) ->].
    assert (Heq : ws' = ws /\ r_quote :: s = rest).
    { rewrite Hrs in Hrs'. clear - Hrs' Hws Hws' Hhead.
      revert ws' Hrs' Hws'. induction ws as [|x ws IH]; intros ws' Hrs' Hws'.
      - destruct ws' as [|y ws']; [auto|]. simpl in *.
        destruct rest as [|c rest]; [discriminate|]. injection Hrs' as -> _.
        apply andb_prop in Hws' as [Hy _]. congruence.
      - simpl in Hws. apply andb_prop in Hws as [Hx Hws].
        destruct ws' as [|y ws'].
        + simpl in Hrs'. injection Hrs' as -> _. discriminate.
        + simpl in *. injection Hrs' as -> Hrs'.
          apply andb_prop in Hws' as [_ Hws'].
          destruct (IH Hws ws' Hrs' Hws') as [-> ->]. auto. }
    destruct Heq as [-> <-].
    change (isSingleChar r_quote) with false. change (r_quote =? r_quote) with true.
    cbn iota. rewrite lexString_unterminated by exact Hno.
    cbn [mbind res_mbind res_bind]. rewrite Hrs, loc_after_app. reflexivity.
Qed.

Lemma lexString_escape_string v :
  forall rest loc val,
    lexString (escape_string v ++ r_quote :: rest) loc val
    = Ok (val ++ v,
          {| t_runes := rest;
             t_location := loc_after loc (escape_string v ++ [r_quote]) |}).
Proof.
  induction v as [|c v IH]; intros rest loc val.
  - simpl. rewrite app_nil_r. reflexivity.
  - cbn [escape_string]. unfold escape_rune.
    destruct (c =? r_newline) eqn:H1;
      [|destruct (c =? r_tab) eqn:H2;
        [|destruct (c =? r_cr) eqn:H3;
          [|destruct (c =? r_quote) eqn:H4;
            [|destruct (c =? r_backslash) eqn:H5]]]];
      try (match goal with H : (c =? _) = true |- _ =>
             apply Z.eqb_eq in H; subst c end;
           cbn [app lexString loc_after];
           change (r_backslash =? r_backslash) with true; cbn iota;
           rewrite IH; cbn [escape_value]; rewrite <- app_assoc; reflexivity).
    cbn [app lexString loc_after]. rewrite H5, H4. rewrite IH.
    rewrite <- app_assoc. reflexivity.
Qed.

(** X5. Every string value has a literal: written between quotes with its
    line breaks, tabs, carriage returns, quotes and backslashes escaped, a
    value is read back as a string token holding exactly that value, and the
    tokenizer stops right after the closing quote. *)
Theorem string_literal_round_trip v rest loc :
  NextToken {| t_runes := r_quote :: escape_string v ++ r_quote :: rest;
               t_location := loc |}
  = Ok (Some {| kind := TokenKindString; value := v; location := loc |},
        {| t_runes := rest;
           t_location := loc_after loc (r_quote :: escape_string v ++ [r_quote]) |}).
Proof.
  unfold NextToken, skipWhitespace. cbn [t_runes t_location skipWhitespace_loop].
  change (IsSpace r_quote) with false. cbn iota. cbn [t_runes t_location].
  change (isSingleChar r_quote) with false. change (r_quote =? r_quote) with true.
  cbn iota. rewrite lexString_escape_string. reflexivity.
Qed.

(** ** The argument list *)

(** What the tokenizer has read lies between its old and its new state. *)
Lemma NextToken_stream t otok t' :
  NextToken t = Ok (otok, t') ->
  exists consumed,
    t_runes t = consumed ++ t_runes t'
    /\ t_location t' = loc_after (t_location t) consumed.
Proof.
  unfold NextToken, skipWhitespace.
  destruct (skipWhitespace_loop_spec (t_runes t) (t_location t))
    as (ws & rest & Hrs & Hws & -> & Hhead).
  cbn [t_runes t_location]. destruct rest as [|c rest].
  - intros [= <- <-]. exists ws. cbn [t_runes t_location].
    rewrite Hrs. auto.
  - destruct (isSingleChar c).
    + intros [= <- <-]. exists (ws ++ [c]). cbn [t_runes t_location].
      rewrite Hrs, <- app_assoc, loc_after_app. auto.
    + destruct (c =? r_quote).
      * destruct (lexString _ _ _) as [[v t1]|e] eqn:El; [|discriminate].
        cbn [mbind res_mbind res_bind]. intros [= <- <-].
        apply lexString_consumes in El as (body & -> & Hloc).
        exists (ws ++ c :: body ++ [r_quote]).
        rewrite Hrs, Hloc, (loc_after_app ws).
        split; [|reflexivity].
        rewrite <- !app_assoc. cbn [app]. rewrite <- !app_assoc. reflexivity.
      * destruct (lexWord_spec (c :: rest) (loc_after (t_location t) ws) [])
          as (word & rest' & Hw & _ & Hlex & _).
        rewrite Hlex. intros [= <- <-]. cbn [t_runes t_location].
        exists (ws ++ word). rewrite Hrs, Hw, loc_after_app, <- app_assoc. auto.
Qed.

(** The location of the end of the input, as seen from a tokenizer. *)
Lemma NextToken_end_location t otok t' :
  NextToken t = Ok (otok, t') ->
  loc_after (t_location t') (t_runes t') = loc_after (t_location t) (t_runes t).
Proof.
  intros H. apply NextToken_stream in H as (consumed & -> & ->).
  rewrite loc_after_app. reflexivity.
Qed.

Lemma NextToken_error_location t e :
  NextToken t = Err e ->
  e = ErrTokenizerUnterminatedString (loc_after (t_location t) (t_runes t)).
Proof.
  unfold NextToken, skipWhitespace.
  destruct (skipWhitespace_loop_spec (t_runes t) (t_location t))
    as (ws & rest & Hrs & Hws & -> & Hhead).
  cbn [t_runes t_location]. destruct rest as [|c rest]; [discriminate|].
  destruct (isSingleChar c); [discriminate|].
  destruct (c =? r_quote).
  - destruct (lexString rest _ []) as [[v t1]|e'] eqn:El; [discriminate|].
    cbn [mbind res_mbind res_bind]. intros [= <-].
    pose proof (lexString_error _ _ _ _ El) as Hno.
    rewrite (lexString_unterminated _ _ _ Hno) in El. injection El as <-.
    rewrite Hrs, loc_after_app. reflexivity.
  - destruct (lexWord _ _ _) as [v t1]. discriminate.
Qed.

Lemma NextToken_blank t :
  forallb IsSpace (t_runes t) = true ->
  NextToken t
  = Ok (None, {| t_runes := [];
                 t_location := loc_after (t_location t) (t_runes t) |}).
Proof.
  unfold NextToken, skipWhitespace.
  destruct (skipWhitespace_loop_spec (t_runes t) (t_location t))
    as (ws & rest & Hrs & Hws & -> & Hhead).
  rewrite Hrs, forallb_app, Hws. cbn [t_runes t_location andb].
  destruct rest as [|c rest].
  - rewrite app_nil_r. reflexivity.
  - cbn [forallb]. rewrite Hhead. discriminate.
Qed.

Lemma mustNextToken_error t loc e :
  mustNextToken t loc = Err e ->
  e = ErrTemplateUnexpectedEof loc
  \/ e = ErrTokenizerUnterminatedString (loc_after (t_location t) (t_runes t)).
Proof.
  unfold mustNextToken.
  destruct (NextToken t) as [[[tok|] t1]|e'] eqn:E; cbn [mbind res_mbind res_bind].
  - discriminate.
  - intros [= <-]. left. reflexivity.
  - intros [= <-]. right. apply NextToken_error_location, E.
Qed.

Lemma mustNextToken_end_location t loc tok t' :
  mustNextToken t loc = Ok (tok, t') ->
  loc_after (t_location t') (t_runes t') = loc_after (t_location t) (t_runes t).
Proof.
  unfold mustNextToken.
  destruct (NextToken t) as [[[tk|] t1]|e'] eqn:E; cbn [mbind res_mbind res_bind];
    try discriminate.
  intros [= <- <-]. eapply NextToken_end_location, E.
Qed.

Lemma parseFunctionArgs_loop_error fuel :
  forall t loc args e,
    parseFunctionArgs_loop fuel t loc args = Some (Err e) ->
    e = ErrTemplateUnexpectedEof loc
    \/ e = ErrTokenizerUnterminatedString (loc_after (t_location t) (t_runes t))
    \/ exists tok, e = ErrTemplateUnexpectedToken tok.
Proof.
  induction fuel as [|fuel IH]; intros t loc args e; simpl; [discriminate|].
  destruct (mustNextToken t loc) as [[tok t1]|e1] eqn:E1.
  - pose proof (mustNextToken_end_location _ _ _ _ E1) as H1.
    destruct (IsSingleChar tok r_rparen); [discriminate|].
    destruct (negb (IsSingleChar tok r_comma)).
    { intros [= <-]. right. right. eexists. reflexivity. }
    destruct (mustNextToken t1 loc) as [[tok' t2]|e2] eqn:E2.
    + pose proof (mustNextToken_end_location _ _ _ _ E2) as H2.
      destruct (_ || _).
      { intros [= <-]. right. right. eexists. reflexivity. }
      intros H. apply IH in H. rewrite H2, H1 in H. exact H.
    + intros [= <-]. apply mustNextToken_error in E2. rewrite H1 in E2.
      destruct E2; auto.
  - intros [= <-]. apply mustNextToken_error in E1. destruct E1; auto.
Qed.

(** X6. An argument list fails in three ways only: the code ends before the
    closing parenthesis, and the error carries the location of the code
    portion, not the place where the text ended; a string literal is not
    closed, and the error carries the location of the end of the code; or a
    token stands where it must not. *)
Theorem parseFunctionArgs_errors t loc e :
  parseFunctionArgs t loc = Some (Err e) ->
  e = ErrTemplateUnexpectedEof loc
  \/ e = ErrTokenizerUnterminatedString (loc_after (t_location t) (t_runes t))
  \/ exists tok, e = ErrTemplateUnexpectedToken tok.
Proof.
  unfold parseFunctionArgs.
  destruct (mustNextToken t loc) as [[tok t1]|e1] eqn:E1.
  - pose proof (mustNextToken_end_location _ _ _ _ E1) as H1.
    destruct (negb (IsSingleChar tok r_lparen)).
    { intros [= <-]. right. right. eexists. reflexivity. }
    destruct (mustNextToken t1 loc) as [[tok' t2]|e2] eqn:E2.
    + pose proof (mustNextToken_end_location _ _ _ _ E2) as H2.
      destruct (IsSingleChar tok' r_rparen); [discriminate|].
      destruct (IsSingleChar tok' r_comma).
      { intros [= <-]. right. right. eexists. reflexivity. }
      intros H. apply parseFunctionArgs_loop_error in H.
      rewrite H2, H1 in H. exact H.
    + intros [= <-]. apply mustNextToken_error in E2. rewrite H1 in E2.
      destruct E2; auto.
  - intros [= <-]. apply mustNextToken_error in E1. destruct E1; auto.
Qed.

Lemma parseFunctionArgs_loop_arguments fuel :
  forall t loc args args' t',
    parseFunctionArgs_loop fuel t loc args = Some (Ok (args', t')) ->
    exists more,
      args' = args ++ more
      /\ Forall (fun a => IsSingleChar a r_rparen = false
                          /\ IsSingleChar a r_comma = false) more
      /\ (2 * length more + 1 + length (t_runes t') <= length (t_runes t))%nat.
Proof.
  induction fuel as [|fuel IH]; intros t loc args args' t'; simpl; [discriminate|].
  destruct (mustNextToken t loc) as [[tok t1]|e1] eqn:E1; [|discriminate].
  apply mustNextToken_length in E1.
  destruct (IsSingleChar tok r_rparen).
  { intros [= <- <-]. exists []. rewrite app_nil_r. simpl.
    split; [reflexivity|]. split; [constructor|lia]. }
  destruct (negb (IsSingleChar tok r_comma)); [discriminate|].
  destruct (mustNextToken t1 loc) as [[tok' t2]|e2] eqn:E2; [|discriminate].
  apply mustNextToken_length in E2.
  destruct (IsSingleChar tok' r_rparen) eqn:Hr; [discriminate|].
  destruct (IsSingleChar tok' r_comma) eqn:Hc; [discriminate|].
  cbn [orb]. intros H. apply IH in H as (more & -> & Hall & Hlen).
  exists (tok' :: more). rewrite <- app_assoc. split; [reflexivity|].
  split; [constructor; auto|]. cbn [length]. lia.
Qed.

(** X7. The arguments of a list that parses are never a closing parenthesis
    or a comma, whatever else they are; n arguments take at least 2n+1 runes
    of code, parentheses and commas included. *)
Theorem parseFunctionArgs_arguments t loc args t' :
  parseFunctionArgs t loc = Some (Ok (args, t')) ->
  Forall (fun a => IsSingleChar a r_rparen = false
                   /\ IsSingleChar a r_comma = false) args
  /\ (2 * length args + 1 + length (t_runes t') <= length (t_runes t))%nat.
Proof.
  unfold parseFunctionArgs.
  destruct (mustNextToken t loc) as [[tok t1]|e1] eqn:E1; [|discriminate].
  apply mustNextToken_length in E1.
  destruct (negb (IsSingleChar tok r_lparen)); [discriminate|].
  destruct (mustNextToken t1 loc) as [[tok' t2]|e2] eqn:E2; [|discriminate].
  apply mustNextToken_length in E2.
  destruct (IsSingleChar tok' r_rparen) eqn:Hr.
  { intros [= <- <-]. split; [constructor|]. simpl. lia. }
  destruct (IsSingleChar tok' r_comma) eqn:Hc; [discriminate|].
  intros H. apply parseFunctionArgs_loop_arguments in H as (more & -> & Hall & Hlen).
  split; [constructor; auto|]. cbn [app length]. lia.
Qed.

Lemma NextToken_space c rs loc :
  IsSpace c = true ->
  NextToken {| t_runes := c :: rs; t_location := loc |}
  = NextToken {| t_runes := rs; t_location := advance_loc loc c |}.
Proof.
  intros Hc. unfold NextToken, skipWhitespace. cbn [t_runes t_location].
  cbn [skipWhitespace_loop]. rewrite Hc. reflexivity.
Qed.

Lemma NextToken_quote rs loc :
  NextToken {| t_runes := r_quote :: rs; t_location := loc |}
  = '(val, t') ← lexString rs (advance_loc loc r_quote) [];
    Ok (Some {| kind := TokenKindString; value := val; location := loc |}, t').
Proof. reflexivity. Qed.

Lemma mustNextToken_literal v rest pos loc :
  exists tok pos',
    mustNextToken
      {| t_runes := r_quote :: escape_string v ++ r_quote :: rest;
         t_location := pos |} loc
    = Ok (tok, {| t_runes := rest; t_location := pos' |})
    /\ kind tok = TokenKindString /\ value tok = v.
Proof.
  unfold mustNextToken. rewrite NextToken_quote, lexString_escape_string.
  cbn [mbind res_mbind res_bind]. eauto.
Qed.

Lemma IsSingleChar_string tok r :
  kind tok = TokenKindString -> IsSingleChar tok r = false.
Proof. unfold IsSingleChar. intros ->. reflexivity. Qed.

(** The loop of [parseFunctionArgs] over the string literals that follow the
    first argument. *)
Lemma parseFunctionArgs_loop_literals ss :
  forall fuel pos loc args rest,
    (length ss < fuel)%nat ->
    exists toks t',
      parseFunctionArgs_loop fuel
        {| t_runes :=
             match ss with
             | [] => r_rparen :: rest
             | _ => r_comma :: 32 :: literal_list (map escape_string ss)
                    ++ r_rparen :: rest
             end;
           t_location := pos |} loc args
      = Some (Ok (args ++ toks, t'))
      /\ map value toks = ss
      /\ Forall (fun a => kind a = TokenKindString) toks
      /\ t_runes t' = rest.
Proof.
  induction ss as [|s ss IH]; intros fuel pos loc args rest Hfuel.
  - destruct fuel as [|fuel]; [simpl in Hfuel; lia|].
    exists [], {| t_runes := rest; t_location := advance_loc pos r_rparen |}.
    cbn [parseFunctionArgs_loop]. unfold mustNextToken.
    rewrite NextToken_single by reflexivity. rewrite app_nil_r.
    repeat split. constructor.
  - destruct fuel as [|fuel]; [simpl in Hfuel; lia|].
    cbn [parseFunctionArgs_loop]. unfold mustNextToken at 1.
    rewrite NextToken_single by reflexivity.
    cbn [mbind res_mbind res_bind].
    change (IsSingleChar {| kind := TokenKindSingleChar; value := [r_comma];
                            location := pos |} r_rparen) with false.
    change (IsSingleChar {| kind := TokenKindSingleChar; value := [r_comma];
                            location := pos |} r_comma) with true.
    cbn [negb]. unfold mustNextToken at 1.
    rewrite NextToken_space by reflexivity. fold (mustNextToken).
    set (tl := match ss with
               | [] => r_rparen :: rest
               | _ => r_comma :: 32 :: literal_list (map escape_string ss)
                      ++ r_rparen :: rest
               end).
    assert (Hshape : literal_list (map escape_string (s :: ss)) ++ r_rparen :: rest
                     = r_quote :: escape_string s ++ r_quote :: tl).
    { subst tl. cbn [map literal_list]. destruct ss as [|s' ss].
      - cbn [map app]. rewrite <- app_assoc. reflexivity.
      - cbn [map]. cbn [app]. rewrite <- app_assoc. reflexivity. }
    rewrite Hshape.
    destruct (mustNextToken_literal s tl
                (advance_loc (advance_loc pos r_comma) 32) loc)
      as (tok & pos' & Hm & Hk & Hv).
    unfold mustNextToken in Hm |- *. rewrite Hm.
    rewrite !(IsSingleChar_string tok) by exact Hk. cbn [orb].
    destruct (IH fuel pos' loc (args ++ [tok]) rest) as (toks & t' & Hl & Hvals & Hkinds & Hrest);
      [simpl in Hfuel; lia|].
    subst tl. rewrite Hl. exists (tok :: toks), t'.
    rewrite <- app_assoc. split; [reflexivity|]. cbn [map]. rewrite Hv, Hvals.
    repeat split; auto.
Qed.

(** X8. Any list of string values can be written as an argument list: between
    parentheses, each value as a string literal with its special runes
    escaped, separated by a comma and a space. The list parses to one string
    token per value, holding that value, in order, and the tokenizer stops
    right after the closing parenthesis. *)
Theorem parseFunctionArgs_string_literals ss rest pos loc :
  exists args t',
    parseFunctionArgs
      {| t_runes := r_lparen :: literal_list (map escape_string ss)
                    ++ r_rparen :: rest;
         t_location := pos |} loc
    = Some (Ok (args, t'))
    /\ map value args = ss
    /\ Forall (fun a => kind a = TokenKindString) args
    /\ t_runes t' = rest.
Proof.
  unfold parseFunctionArgs. unfold mustNextToken at 1.
  rewrite NextToken_single by reflexivity. cbn [mbind res_mbind res_bind].
  change (IsSingleChar {| kind := TokenKindSingleChar; value := [r_lparen];
                          location := pos |} r_lparen) with true.
  cbn [negb]. destruct ss as [|s ss].
  - cbn [map literal_list app]. unfold mustNextToken.
    rewrite NextToken_single by reflexivity. cbn [mbind res_mbind res_bind].
    change (IsSingleChar {| kind := TokenKindSingleChar; value := [r_rparen];
                            location := advance_loc pos r_lparen |} r_rparen)
      with true.
    cbn iota. eexists _, _. split; [reflexivity|]. repeat split. constructor.
  - set (tl := match ss with
               | [] => r_rparen :: rest
               | _ => r_comma :: 32 :: literal_list (map escape_string ss)
                      ++ r_rparen :: rest
               end).
    assert (Hshape : literal_list (map escape_string (s :: ss)) ++ r_rparen :: rest
                     = r_quote :: escape_string s ++ r_quote :: tl).
    { subst tl. cbn [map literal_list]. destruct ss as [|s' ss].
      - cbn [map app]. rewrite <- app_assoc. reflexivity.
      - cbn [map]. cbn [app]. rewrite <- app_assoc. reflexivity. }
    rewrite Hshape.
    destruct (mustNextToken_literal s tl (advance_loc pos r_lparen) loc)
      as (tok & pos' & Hm & Hk & Hv).
    rewrite Hm. rewrite !(IsSingleChar_string tok) by exact Hk.
    cbn [t_runes].
    set (t2 := {| t_runes := tl; t_location := pos' |}).
    destruct (parseFunctionArgs_loop_fuel (S (length tl)) t2 loc [tok])
      as [r Hr]; [simpl; lia|].
    rewrite Hr.
    pose proof (parseFunctionArgs_loop_mono _ (S (length tl) + S (length ss)) _ _ _ _ Hr)
      as Hmono.
    destruct (parseFunctionArgs_loop_literals ss (S (length tl) + S (length ss))
                pos' loc [tok] rest) as (toks & t' & Hl & Hvals & Hkinds & Hrest);
      [lia|].
    fold tl in Hl. fold t2 in Hl. rewrite Hmono in Hl by lia.
    injection Hl as ->. exists (tok :: toks), t'.
    split; [reflexivity|]. cbn [map]. rewrite Hv, Hvals. repeat split; auto.
Qed.

(** ** Rendering *)

Lemma NextToken_path t otok t' :
  NextToken t = Ok (otok, t') ->
  path (t_location t') = path (t_location t)
  /\ match otok with
     | Some tok => path (location tok) = path (t_location t)
     | None => True
     end.
Proof.
  intros H. split.
  - apply NextToken_stream in H as (consumed & _ & ->). apply path_loc_after.
  - revert H. unfold NextToken, skipWhitespace.
    destruct (skipWhitespace_loop_spec (t_runes t) (t_location t))
      as (ws & rest & Hrs & Hws & -> & Hhead).
    cbn [t_runes t_location]. destruct rest as [|c rest].
    + intros [= <- <-]. exact I.
    + destruct (isSingleChar c).
      * intros [= <- <-]. apply path_loc_after.
      * destruct (c =? r_quote).
        -- destruct (lexString _ _ _) as [[v t1]|e]; [|discriminate].
           cbn [mbind res_mbind res_bind]. intros [= <- <-]. apply path_loc_after.
        -- destruct (lexWord _ _ _) as [v t1]. intros [= <- <-].
           apply path_loc_after.
Qed.

Lemma mustNextToken_path t loc tok t' :
  mustNextToken t loc = Ok (tok, t') ->
  path (t_location t') = path (t_location t)
  /\ path (location tok) = path (t_location t).
Proof.
  unfold mustNextToken.
  destruct (NextToken t) as [[[tk|] t1]|e'] eqn:E; cbn [mbind res_mbind res_bind];
    try discriminate.
  intros [= <- <-]. apply NextToken_path in E. exact E.
Qed.

Lemma mustNextToken_error_in_file t loc e :
  path (t_location t) = path loc ->
  mustNextToken t loc = Err e ->
  error_in_file (path loc) e.
Proof.
  intros Hp H. apply mustNextToken_error in H as [-> | ->].
  - exists loc. auto.
  - eexists. split; [reflexivity|]. rewrite path_loc_after. exact Hp.
Qed.

Lemma parseFunctionArgs_loop_path fuel :
  forall t loc args r,
    path (t_location t) = path loc ->
    Forall (fun a => path (location a) = path loc) args ->
    parseFunctionArgs_loop fuel t loc args = Some r ->
    match r with
    | Ok (args', _) => Forall (fun a => path (location a) = path loc) args'
    | Err e => error_in_file (path loc) e
    end.
Proof.
  induction fuel as [|fuel IH]; intros t loc args r Hp Hargs; simpl; [discriminate|].
  destruct (mustNextToken t loc) as [[tok t1]|e1] eqn:E1.
  - destruct (mustNextToken_path _ _ _ _ E1) as [Hp1 Htok].
    rewrite Hp in Hp1, Htok.
    destruct (IsSingleChar tok r_rparen); [intros [= <-]; exact Hargs|].
    destruct (negb (IsSingleChar tok r_comma)).
    { intros [= <-]. exists (location tok). auto. }
    destruct (mustNextToken t1 loc) as [[tok' t2]|e2] eqn:E2.
    + destruct (mustNextToken_path _ _ _ _ E2) as [Hp2 Htok'].
      rewrite Hp1 in Hp2, Htok'.
      destruct (_ || _).
      { intros [= <-]. exists (location tok'). auto. }
      apply IH; [exact Hp2|]. apply Forall_app. split; [exact Hargs|].
      constructor; [exact Htok'|constructor].
    + intros [= <-]. eapply mustNextToken_error_in_file; [|exact E2]. exact Hp1.
  - intros [= <-]. eapply mustNextToken_error_in_file; [|exact E1]. exact Hp.
Qed.

(** The tokens and the errors of an argument list carry the path of the
    tokenizer they were read with. *)
Lemma parseFunctionArgs_path t loc r :
  path (t_location t) = path loc ->
  parseFunctionArgs t loc = Some r ->
  match r with
  | Ok (args, _) => Forall (fun a => path (location a) = path loc) args
  | Err e => error_in_file (path loc) e
  end.
Proof.
  intros Hp. unfold parseFunctionArgs.
  destruct (mustNextToken t loc) as [[tok t1]|e1] eqn:E1.
  - destruct (mustNextToken_path _ _ _ _ E1) as [Hp1 Htok].
    rewrite Hp in Hp1, Htok.
    destruct (negb (IsSingleChar tok r_lparen)).
    { intros [= <-]. exists (location tok). auto. }
    destruct (mustNextToken t1 loc) as [[tok' t2]|e2] eqn:E2.
    + destruct (mustNextToken_path _ _ _ _ E2) as [Hp2 Htok'].
      rewrite Hp1 in Hp2, Htok'.
      destruct (IsSingleChar tok' r_rparen); [intros [= <-]; constructor|].
      destruct (IsSingleChar tok' r_comma).
      { intros [= <-]. exists (location tok'). auto. }
      apply parseFunctionArgs_loop_path; [exact Hp2|].
      constructor; [exact Htok'|constructor].
    + intros [= <-]. eapply mustNextToken_error_in_file; [|exact E2]. exact Hp1.
  - intros [= <-]. eapply mustNextToken_error_in_file; [|exact E1]. exact Hp.
Qed.

Lemma chooseFile_error_in_file w ctx funcTok dirPath ext draw e :
  rand_ok w ->
  chooseFile w ctx funcTok dirPath ext draw = Err e ->
  e = ErrTemplateInternalFunctionExecutionError funcTok.
Proof.
  intros Hw. unfold chooseFile.
  destruct (ReadDir w _) as [dirEntries|]; [|intros [= <-]; reflexivity].
  set (files := collect_files ext dirEntries []).
  destruct (length files <? 1)%nat eqn:Hlen; [intros [= <-]; reflexivity|].
  apply Nat.ltb_ge in Hlen.
  destruct (Hw draw (Z.of_nat (length files))) as [H0 Hn]; [lia|].
  destruct (_ <? 0) eqn:Hneg; [lia|].
  destruct (_ <=? _) eqn:Hbig; [lia|]. cbn [orb].
  destruct (files !! Z.to_nat _) as [f|] eqn:Hf; [discriminate|].
  apply lookup_ge_None in Hf. lia.
Qed.

(** Every error of a code portion names the file of the portion, and none is
    a panic, when [rand.Intn] keeps its contract. *)
Lemma CodePortion_Render_error_in_file w ctx loc code draw e :
  rand_ok w ->
  CodePortion_Render w ctx loc code draw = Some (Err e) ->
  error_in_file (path loc) e.
Proof.
  intros Hw. unfold CodePortion_Render.
  destruct (NextToken (NewTokenizer code loc)) as [[[tok|] t1]|e1] eqn:E1.
  - destruct (NextToken_path _ _ _ E1) as [Hp1 Htok].
    cbn [NewTokenizer t_location] in Hp1, Htok.
    assert (Hfunc : forall k, IsWord tok && k = true ->
                    error_in_file (path loc) (errIncorrectArgsCount tok)).
    { intros k Hk. apply andb_prop in Hk as [Hk _].
      rewrite errIncorrectArgsCount_word by exact Hk.
      exists (location tok). auto. }
    assert (Htokerr : forall a, path (location a) = path loc ->
                      forall mk, (mk = ErrTemplateUnexpectedToken
                                  \/ mk = ErrTemplateVariableNotFound) ->
                      error_in_file (path loc) (mk a)).
    { intros a Ha mk [-> | ->]; exists (location a); auto. }
    destruct (IsWord tok && gostring_eqb (value tok) word_var) eqn:Hvar.
    { unfold renderVar.
      destruct (parseFunctionArgs t1 loc) as [r|] eqn:Hparse; [|discriminate].
      pose proof (parseFunctionArgs_path _ _ _ Hp1 Hparse) as Hr.
      destruct r as [[args t2]|e2]; cbn [mbind option_bind res_mbind res_bind].
      - destruct args as [|a [|b args]].
        + intros [= <-]. eapply Hfunc, Hvar.
        + apply Forall_cons in Hr as [Ha _].
          destruct (negb _).
          * intros [= <-]. apply (Htokerr a Ha); auto.
          * destruct (Variables ctx !! value a); [discriminate|].
            intros [= <-]. apply (Htokerr a Ha); auto.
        + intros [= <-]. eapply Hfunc, Hvar.
      - intros [= <-]. exact Hr. }
    destruct (IsWord tok && gostring_eqb (value tok) word_content) eqn:Hcontent.
    { unfold renderContent.
      destruct (parseFunctionArgs t1 loc) as [r|] eqn:Hparse; [|discriminate].
      pose proof (parseFunctionArgs_path _ _ _ Hp1 Hparse) as Hr.
      destruct r as [[args t2]|e2]; cbn [mbind option_bind res_mbind res_bind].
      - destruct args as [|a args]; [discriminate|].
        intros [= <-]. eapply Hfunc, Hcontent.
      - intros [= <-]. exact Hr. }
    destruct (IsWord tok && gostring_eqb (value tok) word_choose) eqn:Hchoose.
    { unfold renderChooseRandomTopLevelFileFromStaticPath.
      destruct (parseFunctionArgs t1 loc) as [r|] eqn:Hparse; [|discriminate].
      pose proof (parseFunctionArgs_path _ _ _ Hp1 Hparse) as Hr.
      assert (Hchosen : forall d x, chooseFile w ctx tok d x draw = Err e ->
                        error_in_file (path loc) e).
      { intros d x Hc. apply chooseFile_error_in_file in Hc; [|exact Hw].
        subst e. exists (location tok). auto. }
      destruct r as [[args t2]|e2]; cbn [mbind option_bind res_mbind res_bind].
      - destruct args as [|a [|b [|c args]]].
        + intros [= <-]. eapply Hfunc, Hchoose.
        + apply Forall_cons in Hr as [Ha _].
          destruct (negb _).
          * intros [= <-]. apply (Htokerr a Ha); auto.
          * intros [= H]. eapply Hchosen, H.
        + apply Forall_cons in Hr as [Ha Hr]. apply Forall_cons in Hr as [Hb _].
          destruct (negb _).
          * intros [= <-]. apply (Htokerr a Ha); auto.
          * destruct (negb _).
            -- intros [= <-]. apply (Htokerr b Hb); auto.
            -- intros [= H]. eapply Hchosen, H.
        + intros [= <-]. eapply Hfunc, Hchoose.
      - intros [= <-]. exact Hr. }
    intros [= <-]. exists (location tok). auto.
  - intros [= <-]. exists loc. auto.
  - intros [= <-]. apply NextToken_error_location in E1. subst e1.
    eexists. split; [reflexivity|]. apply path_loc_after.
Qed.

Lemma Render_loop_error w ps :
  forall builder draw e,
    Render_loop w ps builder draw = Some (Err e) ->
    exists ctx loc code d,
      TemplateCodePortion ctx loc code ∈ ps
      /\ CodePortion_Render w ctx loc code d = Some (Err e).
Proof.
  induction ps as [|p ps IH]; intros builder draw e; simpl; [discriminate|].
  destruct p as [text|ctx loc code]; cbn [Portion_Render].
  - intros H. apply IH in H as (ctx & loc & code & d & Hin & H).
    exists ctx, loc, code, d. split; [right; exact Hin|exact H].
  - destruct (CodePortion_Render w ctx loc code draw) as [[[s d]|e1]|] eqn:E;
      [| |discriminate].
    + intros H. apply IH in H as (ctx' & loc' & code' & d' & Hin & H).
      exists ctx', loc', code', d'. split; [right; exact Hin|exact H].
    + intros [= <-]. exists ctx, loc, code, draw. split; [left|exact E].
Qed.

(** X9. Rendering never panics when the random source keeps its contract:
    the wrong-count error is only ever built for the word that names the
    directive, and the chosen index is always within the collected files.
    Every error of a render is one of the errors of the language, with a
    location. *)
Theorem Template_Render_never_panics w t draw e :
  rand_ok w ->
  Template_Render w t draw = Some (Err e) ->
  e <> Panic /\ is_Some (error_location e).
Proof.
  intros Hw H. apply Render_loop_error in H as (ctx & loc & code & d & _ & H).
  apply CodePortion_Render_error_in_file in H as (l & Hl & _); [|exact Hw].
  split; [intros ->; discriminate|]. rewrite Hl. eauto.
Qed.

Lemma NextToken_spaces ws :
  forall rs loc,
    forallb IsSpace ws = true ->
    NextToken {| t_runes := ws ++ rs; t_location := loc |}
    = NextToken {| t_runes := rs; t_location := loc_after loc ws |}.
Proof.
  induction ws as [|c ws IH]; intros rs loc; [reflexivity|].
  cbn [forallb]. intros H. apply andb_prop in H as [Hc Hws].
  cbn [app loc_after]. rewrite NextToken_space by exact Hc. apply IH, Hws.
Qed.

Lemma lexWord_word word :
  forall rest loc val,
    forallb (fun c => negb (is_delimiter c)) word = true ->
    match rest with [] => True | c :: _ => is_delimiter c = true end ->
    lexWord (word ++ rest) loc val
    = (val ++ word, {| t_runes := rest; t_location := loc_after loc word |}).
Proof.
  induction word as [|c word IH]; intros rest loc val.
  - intros _ Hrest. cbn [app loc_after]. rewrite app_nil_r.
    destruct rest as [|d rest]; [reflexivity|].
    cbn [lexWord]. fold (is_delimiter d). rewrite Hrest. reflexivity.
  - cbn [forallb]. intros H Hrest. apply andb_prop in H as [Hc Hword].
    apply negb_true_iff in Hc. cbn [app lexWord loc_after].
    fold (is_delimiter c). rewrite Hc. rewrite IH by assumption.
    rewrite <- app_assoc. reflexivity.
Qed.

(** A run of runes that are no delimiters, followed by a delimiter or by the
    end of the code, is read as one word. *)
Lemma NextToken_word c word rest loc :
  forallb (fun c => negb (is_delimiter c)) (c :: word) = true ->
  match rest with [] => True | d :: _ => is_delimiter d = true end ->
  NextToken {| t_runes := (c :: word) ++ rest; t_location := loc |}
  = Ok (Some {| kind := TokenKindWord; value := c :: word; location := loc |},
        {| t_runes := rest; t_location := loc_after loc (c :: word) |}).
Proof.
  intros Hword Hrest. pose proof Hword as Hc. cbn [forallb] in Hc.
  apply andb_prop in Hc as [Hc _]. apply negb_true_iff in Hc.
  unfold is_delimiter in Hc. apply orb_false_elim in Hc as [Hc Hq].
  apply orb_false_elim in Hc as [Hsp Hsc].
  unfold NextToken, skipWhitespace. cbn [t_runes t_location app].
  cbn [skipWhitespace_loop]. rewrite Hsp. cbn [t_runes t_location].
  rewrite Hsc, Hq.
  change (c :: word ++ rest) with ((c :: word) ++ rest).
  rewrite lexWord_word by assumption. reflexivity.
Qed.

Lemma blank_head_delimiter ws rest :
  forallb IsSpace ws = true ->
  match rest with [] => True | d :: _ => is_delimiter d = true end ->
  match ws ++ rest with [] => True | d :: _ => is_delimiter d = true end.
Proof.
  destruct ws as [|c ws]; [auto|]. cbn [forallb app]. intros H _.
  apply andb_prop in H as [Hc _]. unfold is_delimiter. rewrite Hc. reflexivity.
Qed.

Lemma mustNextToken_blank t loc :
  forallb IsSpace (t_runes t) = true ->
  mustNextToken t loc = Err (ErrTemplateUnexpectedEof loc).
Proof.
  intros H. unfold mustNextToken. rewrite NextToken_blank by exact H. reflexivity.
Qed.

(** X10. A code block that ends early, being blank, or holding only the name
    of a directive, or ending after the opening parenthesis, fails with the
    end-of-file error, and that error always carries the location of the
    block, not the place where the code ran out. *)
Theorem code_that_ends_early w ctx loc name ws draw :
  name ∈ [word_var; word_content; word_choose] ->
  forallb IsSpace ws = true ->
  CodePortion_Render w ctx loc ws draw
  = Some (Err (ErrTemplateUnexpectedEof loc))
  /\ CodePortion_Render w ctx loc (name ++ ws) draw
     = Some (Err (ErrTemplateUnexpectedEof loc))
  /\ CodePortion_Render w ctx loc (name ++ r_lparen :: ws) draw
     = Some (Err (ErrTemplateUnexpectedEof loc)).
Proof.
  intros Hname Hws.
  assert (Hparse1 : forall pos,
            parseFunctionArgs {| t_runes := ws; t_location := pos |} loc
            = Some (Err (ErrTemplateUnexpectedEof loc))).
  { intros pos. unfold parseFunctionArgs.
    rewrite mustNextToken_blank by exact Hws. reflexivity. }
  assert (Hparse2 : forall pos,
            parseFunctionArgs {| t_runes := r_lparen :: ws; t_location := pos |} loc
            = Some (Err (ErrTemplateUnexpectedEof loc))).
  { intros pos. unfold parseFunctionArgs. unfold mustNextToken at 1.
    rewrite NextToken_single by reflexivity. cbn [mbind res_mbind res_bind].
    change (IsSingleChar _ r_lparen) with true. cbn [negb].
    rewrite mustNextToken_blank by exact Hws. reflexivity. }
  split.
  { unfold CodePortion_Render. rewrite NextToken_blank by exact Hws. reflexivity. }
  assert (Hd1 : match ws with [] => True | d :: _ => is_delimiter d = true end).
  { rewrite <- (app_nil_r ws). apply blank_head_delimiter; [exact Hws|exact I]. }
  apply elem_of_cons in Hname as [-> | Hname];
    [|apply elem_of_cons in Hname as [-> | Hname];
      [|apply list_elem_of_singleton in Hname as ->]].
  - split.
    + erewrite CodePortion_Render_var;
        [|unfold NewTokenizer; apply NextToken_word; [reflexivity|exact Hd1]
         |reflexivity|reflexivity].
      unfold renderVar. rewrite Hparse1. reflexivity.
    + erewrite CodePortion_Render_var;
        [|unfold NewTokenizer; apply NextToken_word; reflexivity
         |reflexivity|reflexivity].
      unfold renderVar. rewrite Hparse2. reflexivity.
  - split.
    + erewrite CodePortion_Render_content;
        [|unfold NewTokenizer; apply NextToken_word; [reflexivity|exact Hd1]
         |reflexivity|reflexivity].
      unfold renderContent. rewrite Hparse1. reflexivity.
    + erewrite CodePortion_Render_content;
        [|unfold NewTokenizer; apply NextToken_word; reflexivity
         |reflexivity|reflexivity].
      unfold renderContent. rewrite Hparse2. reflexivity.
  - split.
    + erewrite CodePortion_Render_choose;
        [|unfold NewTokenizer; apply NextToken_word; [reflexivity|exact Hd1]
         |reflexivity|reflexivity].
      unfold renderChooseRandomTopLevelFileFromStaticPath.
      rewrite Hparse1. reflexivity.
    + erewrite CodePortion_Render_choose;
        [|unfold NewTokenizer; apply NextToken_word; reflexivity
         |reflexivity|reflexivity].
      unfold renderChooseRandomTopLevelFileFromStaticPath.
      rewrite Hparse2. reflexivity.
Qed.

(** X11. The layout of a directive is free and what follows it is never read:
    white space may stand before the name, before the opening parenthesis and
    inside the parentheses, and any text at all may follow the closing
    parenthesis; [content] written so renders to the content of the context. *)
Theorem content_directive_layout w ctx loc ws0 ws1 ws2 rest draw :
  forallb IsSpace ws0 = true ->
  forallb IsSpace ws1 = true ->
  forallb IsSpace ws2 = true ->
  CodePortion_Render w ctx loc
    (ws0 ++ word_content ++ ws1 ++ r_lparen :: ws2 ++ r_rparen :: rest) draw
  = Some (Ok (Content ctx, draw)).
Proof.
  intros H0 H1 H2.
  erewrite CodePortion_Render_content;
    [|unfold NewTokenizer; rewrite NextToken_spaces by exact H0;
      apply NextToken_word;
      [reflexivity|apply blank_head_delimiter; [exact H1|reflexivity]]
     |reflexivity|reflexivity].
  unfold renderContent, parseFunctionArgs. unfold mustNextToken at 1.
  rewrite NextToken_spaces by exact H1.
  rewrite NextToken_single by reflexivity. cbn [mbind res_mbind res_bind].
  change (IsSingleChar _ r_lparen) with true. cbn [negb].
  unfold mustNextToken. rewrite NextToken_spaces by exact H2.
  rewrite NextToken_single by reflexivity. cbn [mbind res_mbind res_bind].
  change (IsSingleChar _ r_rparen) with true. reflexivity.
Qed.

Lemma Render_loop_builder w ps :
  forall builder draw,
    Render_loop w ps builder draw
    = match Render_loop w ps [] draw with
      | Some (Ok (s, d)) => Some (Ok (builder ++ s, d))
      | r => r
      end.
Proof.
  induction ps as [|p ps IH]; intros builder draw; cbn [Render_loop].
  - rewrite app_nil_r. reflexivity.
  - destruct (Portion_Render w p draw) as [[[s d]|e]|]; [|reflexivity|reflexivity].
    rewrite (IH (builder ++ s)), (IH ([] ++ s)).
    destruct (Render_loop w ps [] d) as [[[s' d']|e]|]; [|reflexivity|reflexivity].
    rewrite <- app_assoc. reflexivity.
Qed.

Lemma Render_loop_app w ps1 ps2 :
  forall builder draw,
    Render_loop w (ps1 ++ ps2) builder draw
    = match Render_loop w ps1 builder draw with
      | Some (Ok (s1, d1)) => Render_loop w ps2 s1 d1
      | r => r
      end.
Proof.
  induction ps1 as [|p ps1 IH]; intros builder draw; cbn [app Render_loop].
  - reflexivity.
  - destruct (Portion_Render w p draw) as [[[s d]|e]|]; [|reflexivity|reflexivity].
    apply IH.
Qed.

(** X12. Rendering is sequential: a template made of two runs of portions
    renders to the first run's text followed by the second's, the second run
    starting with the random draws the first has left; the first error met
    ends the render, and nothing of what was rendered before it is returned. *)
Theorem Template_Render_app w ps1 ps2 draw :
  Template_Render w {| portions := ps1 ++ ps2 |} draw
  = match Template_Render w {| portions := ps1 |} draw with
    | Some (Ok (s1, d1)) =>
        match Template_Render w {| portions := ps2 |} d1 with
        | Some (Ok (s2, d2)) => Some (Ok (s1 ++ s2, d2))
        | r => r
        end
    | r => r
    end.
Proof.
  unfold Template_Render. cbn [portions]. rewrite Render_loop_app.
  destruct (Render_loop w ps1 [] draw) as [[[s1 d1]|e]|]; [|reflexivity|reflexivity].
  rewrite Render_loop_builder.
  destruct (Render_loop w ps2 [] d1) as [[[s2 d2]|e]|]; reflexivity.
Qed.

(** ** Compiled templates *)

Lemma opened_at_path init read loc :
  opened_at init read loc -> path loc = path init.
Proof.
  intros (pre & rest & _ & _ & ->). rewrite path_advance_loc. apply path_loc_after.
Qed.

(** X13. Whatever goes wrong with a template, the error names the file of the
    template: the error of a text that does not compile, and every error of
    rendering a compiled one, carry a location whose path is the path the
    compiler was started with. *)
Theorem errors_name_the_template_file w initialLocation textContent codeCtx draw :
  rand_ok w ->
  match NewTemplateFromString initialLocation textContent codeCtx with
  | Err e => error_in_file (path initialLocation) e
  | Ok t =>
      forall e, Template_Render w t draw = Some (Err e) ->
                error_in_file (path initialLocation) e
  end.
Proof.
  intros Hw. unfold NewTemplateFromString, compile_finish.
  destruct (compile_loop_inv initialLocation codeCtx textContent []
              (compile_start initialLocation)
              (compiler_inv_start initialLocation codeCtx)) as [Hblock Hps].
  simpl app in Hblock, Hps.
  set (s := compile_loop codeCtx (compile_start initialLocation) textContent) in *.
  assert (Hrender : forall ps e,
            Forall (code_portion_ok initialLocation textContent codeCtx) ps ->
            Template_Render w {| portions := ps |} draw = Some (Err e) ->
            error_in_file (path initialLocation) e).
  { intros ps e Hall H.
    apply Render_loop_error in H as (ctx & loc & code & d & Hin & H).
    rewrite Forall_forall in Hall. apply Hall in Hin as [_ Hopen].
    apply opened_at_path in Hopen. rewrite <- Hopen.
    eapply CodePortion_Render_error_in_file; [exact Hw|exact H]. }
  destruct (c_codeMode s).
  - eexists. split; [reflexivity|]. cbn [path].
    apply (opened_at_path _ _ _ (Hblock eq_refl)).
  - destruct (negb _); intros e; apply Hrender; [|exact Hps].
    apply Forall_app. split; [exact Hps|]. constructor; [exact I|constructor].
Qed.

Lemma alternating_app ps :
  forall b qs,
    alternating b (ps ++ qs)
    = alternating b ps
      && alternating (if Nat.even (length ps) then b else negb b) qs.
Proof.
  induction ps as [|p ps IH]; intros b qs; [reflexivity|].
  cbn [app alternating length]. rewrite Nat.even_succ, <- Nat.negb_even.
  destruct p as [text|ctx loc code]; rewrite IH;
    destruct (Nat.even (length ps)), b; cbn [negb andb]; reflexivity.
Qed.

Lemma alternating_push ps p :
  alternating true ps = true ->
  is_text_portion p = negb (Nat.odd (length ps)) ->
  alternating true (ps ++ [p]) = true
  /\ Nat.odd (length (ps ++ [p])) = negb (Nat.odd (length ps)).
Proof.
  intros Halt Hp. rewrite alternating_app, Halt, length_app. cbn [length].
  rewrite Nat.add_1_r, Nat.odd_succ, <- Nat.negb_odd. split; [|reflexivity].
  destruct p, (Nat.odd (length ps)); cbn in *; congruence.
Qed.

(** The compiler pushes portions in turns: the number of portions is odd
    exactly inside a code block. *)
Lemma compile_loop_alternating ctx rs :
  forall s,
    alternating true (c_portions s) = true ->
    c_codeMode s = Nat.odd (length (c_portions s)) ->
    alternating true (c_portions (compile_loop ctx s rs)) = true
    /\ c_codeMode (compile_loop ctx s rs)
       = Nat.odd (length (c_portions (compile_loop ctx s rs))).
Proof.
  remember (length rs) as n eqn:Hn. revert rs Hn.
  induction n as [n IH] using lt_wf_ind. intros rs Hn s Halt Hmode.
  destruct rs as [|c rs1]; [auto|]. cbn [compile_loop].
  destruct (c =? r_backslash).
  - destruct rs1 as [|d rs2]; [auto|].
    eapply (IH (length rs2)); [simpl in Hn; lia|reflexivity|exact Halt|exact Hmode].
  - destruct ((c =? r_lbrace) && negb (c_codeMode s)) eqn:Hopen.
    + apply andb_prop in Hopen as [_ Hout]. apply negb_true_iff in Hout.
      destruct (alternating_push (c_portions s)
                  (TemplateTextPortion (c_accumulatedText s)) Halt) as [Ha Hl].
      { rewrite <- Hmode, Hout. reflexivity. }
      eapply (IH (length rs1)); [simpl in Hn; lia|reflexivity|exact Ha|].
      cbn [c_codeMode c_portions]. rewrite Hl, <- Hmode, Hout. reflexivity.
    + destruct ((c =? r_rbrace) && c_codeMode s) eqn:Hclose.
      * apply andb_prop in Hclose as [_ Hin].
        destruct (alternating_push (c_portions s)
                    (TemplateCodePortion ctx (c_codeModeLocation s)
                       (c_accumulatedText s)) Halt) as [Ha Hl].
        { rewrite <- Hmode, Hin. reflexivity. }
        eapply (IH (length rs1)); [simpl in Hn; lia|reflexivity|exact Ha|].
        cbn [c_codeMode c_portions]. rewrite Hl, <- Hmode, Hin. reflexivity.
      * eapply (IH (length rs1));
          [simpl in Hn; lia|reflexivity|exact Halt|exact Hmode].
Qed.

(** X14. The portions of a compiled template take turns: a text portion
    comes first and text and code portions alternate, so that every code
    portion has a text portion right before it, empty when the block starts
    the text or follows another block directly. *)
Theorem compiled_portions_alternate initialLocation textContent codeCtx t :
  NewTemplateFromString initialLocation textContent codeCtx = Ok t ->
  alternating true (portions t) = true.
Proof.
  unfold NewTemplateFromString, compile_finish.
  destruct (compile_loop_alternating codeCtx textContent
              (compile_start initialLocation) eq_refl eq_refl) as [Halt Hmode].
  destruct (c_codeMode _); [discriminate|].
  destruct (negb _); intros [= <-]; cbn [portions]; [|exact Halt].
  apply alternating_push; [exact Halt|]. rewrite <- Hmode. reflexivity.
Qed.

Lemma escape_template_open s : no_unescaped_open (escape_template s) = true.
Proof.
  induction s as [|c s IH]; [reflexivity|]. cbn [escape_template].
  destruct (c =? r_backslash) eqn:Hb; cbn [orb].
  - cbn [no_unescaped_open]. change (r_backslash =? r_backslash) with true.
    exact IH.
  - destruct (c =? r_lbrace) eqn:Hl; cbn [orb].
    + cbn [no_unescaped_open]. change (r_backslash =? r_backslash) with true.
      exact IH.
    + destruct (c =? r_rbrace); cbn [no_unescaped_open].
      * change (r_backslash =? r_backslash) with true. exact IH.
      * rewrite Hb, Hl. exact IH.
Qed.

Lemma escape_template_resolve s : resolve_escapes (escape_template s) = s.
Proof.
  induction s as [|c s IH]; [reflexivity|]. cbn [escape_template].
  destruct (c =? r_backslash) eqn:Hb; cbn [orb].
  - cbn [resolve_escapes]. change (r_backslash =? r_backslash) with true.
    rewrite IH. reflexivity.
  - destruct ((c =? r_lbrace) || (c =? r_rbrace)); cbn [resolve_escapes].
    + change (r_backslash =? r_backslash) with true. rewrite IH. reflexivity.
    + rewrite Hb, IH. reflexivity.
Qed.

(** X15. Every text can be written as a template: with a backslash put before
    each backslash and each brace, a text compiles, and the compiled template
    renders to the text itself, whatever the context, without reading a
    directory or drawing a random number. *)
Theorem escape_template_round_trip w initialLocation s codeCtx draw :
  exists t,
    NewTemplateFromString initialLocation (escape_template s) codeCtx = Ok t
    /\ Forall (fun p => is_text_portion p = true) (portions t)
    /\ Template_Render w t draw = Some (Ok (s, draw)).
Proof.
  unfold NewTemplateFromString.
  rewrite compile_loop_text by (try apply escape_template_open; reflexivity).
  rewrite escape_template_resolve. unfold compile_finish.
  cbn [c_codeMode c_accumulatedText c_portions compile_start app].
  destruct (gostring_eqb s []) eqn:Hs; cbn [negb].
  - apply gostring_eqb_true in Hs. subst s. eexists. split; [reflexivity|].
    split; [constructor|reflexivity].
  - eexists. split; [reflexivity|]. split; [repeat constructor|reflexivity].
Qed.

(** A text with one code block: the text before the block, the block and the
    text after it become a text portion, a code portion and, unless it is
    empty, another text portion. *)
Lemma compile_one_block initialLocation codeCtx pre raw post :
  escapes_complete pre = true ->
  no_unescaped_open pre = true ->
  escapes_complete raw = true ->
  no_unescaped_close raw = true ->
  no_unescaped_open post = true ->
  NewTemplateFromString initialLocation
    (pre ++ r_lbrace :: raw ++ r_rbrace :: post) codeCtx
  = Ok {| portions :=
            [TemplateTextPortion (resolve_escapes pre);
             TemplateCodePortion codeCtx
               (loc_after initialLocation (pre ++ [r_lbrace]))
               (resolve_escapes raw)]
            ++ (if gostring_eqb (resolve_escapes post) [] then []
                else [TemplateTextPortion (resolve_escapes post)]) |}.
Proof.
  intros Hpe Hpo Hre Hrc Hqo. unfold NewTemplateFromString.
  rewrite compile_loop_app by exact Hpe.
  rewrite (compile_loop_text codeCtx pre (compile_start initialLocation))
    by (try exact Hpo; reflexivity).
  cbn [compile_start c_location c_accumulatedText c_codeModeLocation c_portions app].
  remember (raw ++ r_rbrace :: post) as rs eqn:E.
  cbn [compile_loop c_codeMode c_location c_accumulatedText c_codeModeLocation
       c_portions].
  change (r_lbrace =? r_backslash) with false.
  change (r_lbrace =? r_lbrace) with true. cbn [andb negb app]. subst rs.
  rewrite compile_loop_code_block by (try assumption; reflexivity).
  rewrite compile_loop_text by (try exact Hqo; reflexivity).
  unfold compile_finish.
  cbn [c_codeMode c_location c_accumulatedText c_codeModeLocation c_portions app].
  rewrite loc_after_app. cbn [loc_after].
  destruct (gostring_eqb (resolve_escapes post) []); reflexivity.
Qed.

(** X16. A text holding one code block renders to the text before the block,
    what the block evaluates to, and the text after the block, the escapes of
    the three parts resolved; the block is evaluated at the location right
    after its opening brace, and its error, if any, is the error of the
    whole. *)
Theorem one_block_template w initialLocation codeCtx pre raw post draw :
  escapes_complete pre = true ->
  no_unescaped_open pre = true ->
  escapes_complete raw = true ->
  no_unescaped_close raw = true ->
  no_unescaped_open post = true ->
  exists t,
    NewTemplateFromString initialLocation
      (pre ++ r_lbrace :: raw ++ r_rbrace :: post) codeCtx = Ok t
    /\ Template_Render w t draw
       = match CodePortion_Render w codeCtx
                 (loc_after initialLocation (pre ++ [r_lbrace]))
                 (resolve_escapes raw) draw with
         | Some (Ok (s, d)) =>
             Some (Ok (resolve_escapes pre ++ s ++ resolve_escapes post, d))
         | r => r
         end.
Proof.
  intros Hpe Hpo Hre Hrc Hqo. eexists.
  split; [apply compile_one_block; assumption|].
  unfold Template_Render. cbn [portions app Render_loop Portion_Render].
  destruct (CodePortion_Render _ _ _ _ _) as [[[s d]|e]|]; [|reflexivity|reflexivity].
  destruct (gostring_eqb (resolve_escapes post) []) eqn:Hq.
  - apply gostring_eqb_true in Hq. rewrite Hq, app_nil_r. reflexivity.
  - cbn [Render_loop Portion_Render]. rewrite <- app_assoc. reflexivity.
Qed.

(** ** Page data *)

(** The header loop cuts the text in two and moves the location over the
    header. *)
Lemma header_loop_cut rs :
  forall st loc read,
    exists h body,
      header_loop st rs loc read = (read ++ h, (body, loc_after loc h))
      /\ rs = h ++ body.
Proof.
  induction rs as [|r rs IH]; intros st loc read.
  - exists [], []. simpl. rewrite app_nil_r. auto.
  - cbn [header_loop]. destruct (negb _ && _).
    + exists [r], rs. auto.
    + destruct (IH (header_step st r) (advance_loc loc r) (read ++ [r]))
        as (h & body & Hloop & ->).
      exists (r :: h), body. rewrite Hloop, <- app_assoc. auto.
Qed.

(** X17. What reading a page-data file comes to. It fails in two ways only:
    with the invalid-header error, which names the file and nothing else,
    whether a comment was left open or the decoder refused the header; or with
    the unterminated-block error of the body, located in the file. When it
    succeeds, the text is the header followed by the body, the variables are
    what the header decodes to, and every code portion of the body carries
    these variables, the static directory, the fixed text standing for the
    content, and a location in the file. *)
Theorem NewTemplateInputFromString_outcomes json_Unmarshal initialLocation
    textContent staticDir :
  match NewTemplateInputFromString json_Unmarshal initialLocation textContent
          staticDir with
  | Err e =>
      e = ErrInvalidJsonHeader (path initialLocation)
      \/ exists loc, e = ErrTemplateUnterminatedCodeBlock loc
                     /\ path loc = path initialLocation
  | Ok templateInput =>
      exists jsonHeader body,
        textContent = jsonHeader ++ body
        /\ UnmarshalJsonWithComments json_Unmarshal jsonHeader
           = Ok (variables templateInput)
        /\ NewTemplateFromString (loc_after initialLocation jsonHeader) body
             {| StaticDir := staticDir; Content := sentinel_content;
                Variables := variables templateInput |}
           = Ok (content templateInput)
        /\ Forall (fun p =>
                     match p with
                     | TemplateTextPortion _ => True
                     | TemplateCodePortion ctx loc _ =>
                         ctx = {| StaticDir := staticDir;
                                  Content := sentinel_content;
                                  Variables := variables templateInput |}
                         /\ path loc = path initialLocation
                     end) (portions (content templateInput))
  end.
Proof.
  destruct (header_loop_cut textContent header_start initialLocation [])
    as (h & body & Hsplit & Htext).
  cbn [app] in Hsplit.
  rewrite (NewTemplateInputFromString_split json_Unmarshal initialLocation
             textContent staticDir h body _ Hsplit).
  destruct (UnmarshalJsonWithComments json_Unmarshal h) as [vars|e1] eqn:Hdec;
    [|left; reflexivity].
  set (ctx := {| StaticDir := staticDir; Content := sentinel_content;
                 Variables := vars |}).
  destruct (compile_loop_inv (loc_after initialLocation h) ctx body []
              (compile_start (loc_after initialLocation h))
              (compiler_inv_start _ ctx)) as [Hblock Hps].
  cbn [app] in Hblock, Hps.
  destruct (NewTemplateFromString (loc_after initialLocation h) body ctx)
    as [t|e2] eqn:Hcompile; cbn [mbind res_mbind res_bind].
  - exists h, body. cbn [variables content].
    split; [exact Htext|]. split; [exact Hdec|]. split; [exact Hcompile|].
    revert Hcompile. unfold NewTemplateFromString, compile_finish.
    assert (Hok : Forall (fun p =>
                            match p with
                            | TemplateTextPortion _ => True
                            | TemplateCodePortion ctx' loc _ =>
                                ctx' = ctx /\ path loc = path initialLocation
                            end)
                    (c_portions (compile_loop ctx
                       (compile_start (loc_after initialLocation h)) body))).
    { eapply Forall_impl; [exact Hps|]. intros [text|ctx' loc code]; [auto|].
      intros [-> Hopen]. split; [reflexivity|].
      apply opened_at_path in Hopen. rewrite Hopen. apply path_loc_after. }
    destruct (c_codeMode _); [discriminate|].
    destruct (negb _); intros [= <-]; cbn [portions]; [|exact Hok].
    apply Forall_app. split; [exact Hok|]. constructor; [exact I|constructor].
  - right. revert Hcompile. unfold NewTemplateFromString, compile_finish.
    destruct (c_codeMode _) eqn:Hmode; [|destruct (negb _); discriminate].
    intros [= <-]. eexists. split; [reflexivity|]. cbn [path].
    rewrite (opened_at_path _ _ _ (Hblock eq_refl)). apply path_loc_after.
Qed.

(** ** Comment stripping *)

Lemma skip_line_comment_suffix l : exists k, l = k ++ skip_line_comment l.
Proof.
  induction l as [|d l [k IH]]; [exists []; reflexivity|].
  cbn [skip_line_comment]. destruct (_ || _); [exists []; reflexivity|].
  exists (d :: k). cbn [app]. rewrite <- IH. reflexivity.
Qed.

Lemma skip_block_comment_suffix l :
  forall rest, skip_block_comment l = Some rest -> exists k, l = k ++ rest.
Proof.
  induction l as [|a l IH]; intros rest; [discriminate|].
  cbn [skip_block_comment]. destruct l as [|b l]; [discriminate|].
  destruct (_ && _).
  - intros [= <-]. exists [a; b]. reflexivity.
  - intros H. apply IH in H as [k ->]. exists (a :: k). reflexivity.
Qed.

Lemma skip_block_comment_none l :
  skip_block_comment l = None -> block_body l = true.
Proof.
  induction l as [|a l IH]; [reflexivity|].
  cbn [skip_block_comment block_body]. destruct l as [|b l]; [reflexivity|].
  destruct (_ && _); [discriminate|]. intros H. cbn [negb andb]. apply IH, H.
Qed.

Lemma removeComments_loop_result n :
  forall rs inString escaped builder,
    length rs = n ->
    match removeComments_loop rs inString escaped builder with
    | Ok out => exists kept, out = builder ++ kept /\ sublist kept rs
    | Err e =>
        e = ErrUnclosedComment
        /\ exists pre body,
            rs = pre ++ r_slash :: r_star :: body /\ block_body body = true
    end.
Proof.
  induction n as [n IH] using lt_wf_ind. intros rs inString escaped builder Hn.
  assert (Hwrite : forall c rs' i e,
            rs = c :: rs' ->
            match removeComments_loop rs' i e (builder ++ [c]) with
            | Ok out => exists kept, out = builder ++ kept /\ sublist kept rs
            | Err e =>
                e = ErrUnclosedComment
                /\ exists pre body,
                    rs = pre ++ r_slash :: r_star :: body /\ block_body body = true
            end).
  { intros c rs' i e ->.
    pose proof (IH (length rs') ltac:(simpl in Hn; lia) rs' i e (builder ++ [c])
                  eq_refl) as H.
    destruct (removeComments_loop rs' i e (builder ++ [c])) as [out|err].
    - destruct H as (kept & -> & Hsub). exists (c :: kept).
      rewrite <- app_assoc. split; [reflexivity|]. apply sublist_skip, Hsub.
    - destruct H as (-> & pre & body & -> & Hbody). split; [reflexivity|].
      exists (c :: pre), body. auto. }
  assert (Hskip : forall c next k rest i e,
            rs = c :: next :: k ++ rest ->
            match removeComments_loop rest i e builder with
            | Ok out => exists kept, out = builder ++ kept /\ sublist kept rs
            | Err e =>
                e = ErrUnclosedComment
                /\ exists pre body,
                    rs = pre ++ r_slash :: r_star :: body /\ block_body body = true
            end).
  { intros c next k rest i e ->.
    pose proof (IH (length rest)
                  ltac:(simpl in Hn; rewrite length_app in Hn; lia)
                  rest i e builder eq_refl) as H.
    destruct (removeComments_loop rest i e builder) as [out|err].
    - destruct H as (kept & -> & Hsub). exists kept. split; [reflexivity|].
      apply sublist_cons, sublist_cons, sublist_inserts_l, Hsub.
    - destruct H as (-> & pre & body & -> & Hbody). split; [reflexivity|].
      exists (c :: next :: k ++ pre), body. split; [|exact Hbody].
      cbn [app]. rewrite <- app_assoc. reflexivity. }
  destruct rs as [|c [|next rs2]].
  - simp removeComments_loop. exists []. rewrite app_nil_r.
    split; [reflexivity|constructor].
  - simp removeComments_loop. cbv zeta. simp removeComments_loop.
    exists [c]. split; [reflexivity|]. apply sublist_skip. constructor.
  - rewrite removeComments_loop_step. cbv zeta.
    destruct (negb _ && (c =? r_slash)) eqn:Hstart;
      [|eapply Hwrite; reflexivity].
    apply andb_prop in Hstart as [_ Hc]. apply Z.eqb_eq in Hc. subst c.
    destruct (next =? r_slash).
    { destruct (skip_line_comment_suffix rs2) as [k Hk].
      eapply (Hskip _ _ k). rewrite <- Hk. reflexivity. }
    destruct (next =? r_star) eqn:Hstar; [|eapply Hwrite; reflexivity].
    apply Z.eqb_eq in Hstar. subst next.
    destruct (skip_block_comment rs2) as [rest|] eqn:Hblock.
    + destruct (skip_block_comment_suffix _ _ Hblock) as [k Hk].
      eapply (Hskip _ _ k). rewrite <- Hk. reflexivity.
    + split; [reflexivity|]. exists [], rs2.
      split; [reflexivity|]. apply skip_block_comment_none, Hblock.
Qed.

(** X18. Comment stripping only deletes: what it returns is the text with
    some of its runes left out, none added, changed or moved. *)
Theorem removeComments_only_deletes json out :
  removeCommentsFromJson json = Ok out -> sublist out json.
Proof.
  unfold removeCommentsFromJson. intros H.
  pose proof (removeComments_loop_result (length json) json false false []
                eq_refl) as Hres.
  rewrite H in Hres. destruct Hres as (kept & -> & Hsub). exact Hsub.
Qed.

(** X19. Comment stripping fails in one way only, with the unclosed-comment
    error, and only on a text that holds a slash and a star after which no
    star is followed by a slash. *)
Theorem removeComments_failure json e :
  removeCommentsFromJson json = Err e ->
  e = ErrUnclosedComment
  /\ exists pre body,
      json = pre ++ r_slash :: r_star :: body /\ block_body body = true.
Proof.
  unfold removeCommentsFromJson. intros H.
  pose proof (removeComments_loop_result (length json) json false false []
                eq_refl) as Hres.
  rewrite H in Hres. exact Hres.
Qed.

(** ** Request paths *)

Lemma cut_prefix_app k :
  forall r, cut_prefix k (k ++ r) = Some r.
Proof.
  induction k as [|x k IH]; intros r; [reflexivity|].
  cbn [app cut_prefix]. rewrite Z.eqb_refl. apply IH.
Qed.

(** The extension found by [path.Ext] is a slash-free end of the path. *)
Lemma path_Ext_loop_spec rev_path :
  forall suffix,
    path_Ext_loop rev_path suffix = []
    \/ exists k rest,
        rev_path = k ++ rest
        /\ path_Ext_loop rev_path suffix = rev k ++ suffix
        /\ r_slash ∉ k.
Proof.
  induction rev_path as [|c rp IH]; intros suffix; [left; reflexivity|].
  cbn [path_Ext_loop]. destruct (c =? r_slash) eqn:Hs; [left; reflexivity|].
  apply Z.eqb_neq in Hs.
  destruct (c =? r_dot) eqn:Hd.
  - right. exists [c], rp. split; [reflexivity|]. split; [reflexivity|].
    apply not_elem_of_cons. split; [congruence|apply not_elem_of_nil].
  - destruct (IH (c :: suffix)) as [H | (k & rest & -> & H & Hk)];
      [left; exact H|].
    right. exists (c :: k), rest. split; [reflexivity|]. split.
    + rewrite H. cbn [rev]. rewrite <- app_assoc. reflexivity.
    + apply not_elem_of_cons. split; [congruence|exact Hk].
Qed.

Lemma path_Ext_split p :
  exists stem, p = stem ++ path_Ext p /\ removeExtension p = stem
               /\ r_slash ∉ path_Ext p.
Proof.
  unfold removeExtension, strings_TrimSuffix, path_Ext.
  destruct (path_Ext_loop_spec (rev p) []) as [H | (k & rest & Hp & H & Hk)].
  - rewrite H. exists p. cbn [rev cut_prefix]. rewrite rev_involutive, app_nil_r.
    split; [reflexivity|]. split; [reflexivity|]. apply not_elem_of_nil.
  - rewrite H, app_nil_r, rev_involutive, Hp, cut_prefix_app.
    exists (rev rest). split.
    + rewrite <- rev_app_distr, <- Hp, rev_involutive. reflexivity.
    + split; [reflexivity|]. intros Hin. apply Hk.
      apply list_elem_of_In. apply list_elem_of_In in Hin.
      apply in_rev. exact Hin.
Qed.

(** Only the last element of a path is shortened. *)
Lemma removeExtension_last_element dir filename :
  r_slash ∉ filename ->
  removeExtension (dir ++ r_slash :: filename)
  = dir ++ r_slash :: removeExtension filename.
Proof.
  intros Hout.
  destruct (path_Ext_split filename) as (stem & Hp & Hstem & Hslash).
  assert (Hext : path_Ext (dir ++ r_slash :: filename) = path_Ext filename).
  { unfold path_Ext. rewrite rev_app_distr. cbn [rev]. rewrite <- app_assoc.
    cbn [app]. assert (Hrev : r_slash ∉ rev filename).
    { intros Hin. apply Hout. apply list_elem_of_In. apply list_elem_of_In in Hin.
      apply in_rev. exact Hin. }
    revert Hrev. generalize (rev filename) (@nil rune). clear.
    induction l as [|c l IH]; intros suffix Hl.
    - cbn [app path_Ext_loop]. change (r_slash =? r_slash) with true. reflexivity.
    - apply not_elem_of_cons in Hl as [Hc Hl]. cbn [app path_Ext_loop].
      destruct (c =? r_slash); [reflexivity|].
      destruct (c =? r_dot); [reflexivity|]. apply IH, Hl. }
  destruct (path_Ext_split (dir ++ r_slash :: filename)) as (stem' & Hp' & Hstem' & _).
  rewrite Hstem', Hstem. rewrite Hext in Hp'. rewrite Hp in Hp' at 1.
  change (dir ++ r_slash :: stem ++ path_Ext filename)
    with (dir ++ (r_slash :: stem) ++ path_Ext filename) in Hp'.
  rewrite app_assoc in Hp'. apply app_inv_tail in Hp'. symmetry. exact Hp'.
Qed.

(** X20. Removing the extension takes the extension off the end of the file
    name and nothing else: what is left, followed by the extension, is the
    file name; the part taken off holds no slash, so that only the last
    element of a path is ever shortened. *)
Theorem removeExtension_splits filename :
  removeExtension filename ++ path_Ext filename = filename
  /\ (r_slash ∉ path_Ext filename)
  /\ forall dir, r_slash ∉ filename ->
                 removeExtension (dir ++ r_slash :: filename)
                 = dir ++ r_slash :: removeExtension filename.
Proof.
  destruct (path_Ext_split filename) as (stem & Hp & Hstem & Hslash).
  split; [rewrite Hstem; symmetry; exact Hp|]. split; [exact Hslash|].
  intros dir. apply removeExtension_last_element.
Qed.

Lemma strings_SplitN2_name c :
  r_slash ∉ c ->
  strings_SplitN2 c r_slash = [c]
  /\ forall rest, strings_SplitN2 (c ++ r_slash :: rest) r_slash = [c; rest].
Proof.
  induction c as [|x c IH]; intros Hc.
  - split; [reflexivity|]. intros rest. cbn [app strings_SplitN2].
    rewrite Z.eqb_refl. reflexivity.
  - apply not_elem_of_cons in Hc as [Hx Hc]. destruct (IH Hc) as [H1 H2].
    assert (Hxs : (x =? r_slash) = false) by (apply Z.eqb_neq; congruence).
    split.
    + cbn [strings_SplitN2]. rewrite Hxs, H1. reflexivity.
    + intros rest. cbn [app strings_SplitN2]. rewrite Hxs, H2. reflexivity.
Qed.

Lemma path_Clean_rooted cs :
  Forall simple_name cs ->
  path_Clean (r_slash :: join_slash cs) = r_slash :: join_slash cs.
Proof.
  intros Hall. destruct cs as [|c cs]; [reflexivity|].
  unfold path_Clean. change (r_slash =? r_slash) with true. cbn iota.
  rewrite path_Clean_loop_names; [|discriminate|exact Hall|cbn [length]; lia].
  cbn [length Nat.eqb].
  destruct (rev (join_slash (c :: cs)) ++ [r_slash]) eqn:E.
  - apply app_eq_nil in E as [_ E]. discriminate.
  - rewrite <- E, rev_app_distr, rev_involutive. reflexivity.
Qed.

(** X21. Removing the first element of a rooted path made of plain names,
    separated by single slashes, drops exactly that element: the rest of the
    path is returned behind a slash, and a path of one element becomes the
    root. *)
Theorem removeFirstPathComponent_drops_first c cs :
  Forall simple_name (c :: cs) ->
  removeFirstPathComponent (r_slash :: join_slash (c :: cs))
  = r_slash :: join_slash cs.
Proof.
  intros Hall. unfold removeFirstPathComponent.
  rewrite path_Clean_rooted by exact Hall.
  unfold strings_TrimPrefix. cbn [cut_prefix]. rewrite Z.eqb_refl.
  apply Forall_cons in Hall as [(_ & Hc & _) _].
  destruct (strings_SplitN2_name c Hc) as [H1 H2].
  destruct cs as [|d cs].
  - cbn [join_slash]. rewrite H1. reflexivity.
  - rewrite join_slash_cons, H2. reflexivity.
Qed.

(** One round of the cleaning loop on a plain name of a relative path. *)
Lemma path_Clean_loop_name_relative fuel c rest rev_out dotdot :
  simple_name c ->
  match rest with [] => True | d :: _ => d = r_slash end ->
  path_Clean_loop (S fuel) false (c ++ rest) rev_out dotdot
  = path_Clean_loop fuel false rest
      (rev c ++ (if (length rev_out =? 0)%nat then rev_out else r_slash :: rev_out))
      dotdot.
Proof.
  intros (Hne & Hslash & Hdot & Hdotdot) Hrest.
  pose proof (path_Clean_copy_name c rest) as Hcopy.
  destruct c as [|x c]; [congruence|].
  apply not_elem_of_cons in Hslash as [Hx Hc].
  change ((x :: c) ++ rest) with (x :: c ++ rest) in *.
  cbn [path_Clean_loop].
  replace (x =? r_slash) with false by (symmetry; apply Z.eqb_neq; congruence).
  assert (Hend : forall l, l <> [] -> r_slash ∉ l ->
                 match l ++ rest with [] => true | d :: _ => d =? r_slash end = false).
  { intros [|y l] Hl Hy; [congruence|]. simpl.
    apply not_elem_of_cons in Hy as [Hy _]. apply Z.eqb_neq. congruence. }
  assert (H1 : (x =? r_dot)
               && match c ++ rest with [] => true | d :: _ => d =? r_slash end = false).
  { destruct (x =? r_dot) eqn:Hxd; [|reflexivity]. simpl.
    apply Z.eqb_eq in Hxd. subst x. apply Hend; [|exact Hc].
    intros ->. congruence. }
  rewrite H1.
  assert (H2 : (x =? r_dot)
               && match c ++ rest with [] => false | d :: _ => d =? r_dot end
               && match tail (c ++ rest) with [] => true | d :: _ => d =? r_slash end
               = false).
  { destruct (x =? r_dot) eqn:Hxd; [|reflexivity]. simpl.
    apply Z.eqb_eq in Hxd. subst x.
    destruct c as [|y c]; [congruence|]. simpl.
    destruct (y =? r_dot) eqn:Hyd; [|reflexivity]. simpl.
    apply Z.eqb_eq in Hyd. subst y.
    apply not_elem_of_cons in Hc as [_ Hc].
    apply Hend; [|exact Hc]. intros ->. congruence. }
  rewrite H2.
  rewrite (Hcopy _ ltac:(apply not_elem_of_cons; split; assumption) Hrest).
  destruct (length rev_out =? 0)%nat eqn:Hlen; simpl; reflexivity.
Qed.

Lemma path_Clean_loop_end fuel rooted rev_out dotdot :
  path_Clean_loop fuel rooted [] rev_out dotdot = rev_out.
Proof. destruct fuel; reflexivity. Qed.

(** The cleaning loop over the plain names of a relative path, up to what
    follows them. *)
Lemma path_Clean_loop_names_relative cs :
  forall fuel rest rev_out,
    cs <> [] ->
    Forall simple_name cs ->
    match rest with [] => True | d :: _ => d = r_slash end ->
    (length (join_slash cs ++ rest) <= fuel)%nat ->
    exists fuel',
      (length rest <= fuel')%nat
      /\ path_Clean_loop fuel false (join_slash cs ++ rest) rev_out 0%nat
         = path_Clean_loop fuel' false rest
             (rev (join_slash cs)
              ++ (if (length rev_out =? 0)%nat then rev_out else r_slash :: rev_out))
             0%nat.
Proof.
  induction cs as [|c cs IH]; intros fuel rest rev_out Hne Hall Hrest Hfuel;
    [congruence|].
  apply Forall_cons in Hall as [Hc Hall].
  assert (Hclen : (0 < length c)%nat).
  { destruct Hc as (Hc & _). destruct c; [congruence|simpl; lia]. }
  destruct cs as [|d cs].
  - cbn [join_slash] in *. rewrite length_app in Hfuel.
    destruct fuel as [|fuel]; [lia|].
    exists fuel. split; [lia|].
    apply path_Clean_loop_name_relative; assumption.
  - rewrite join_slash_cons in *. rewrite <- app_assoc in *.
    cbn [app] in *. rewrite length_app in Hfuel. cbn [length] in Hfuel.
    destruct fuel as [|fuel]; [lia|].
    rewrite path_Clean_loop_name_relative by (try exact Hc; reflexivity).
    destruct fuel as [|fuel]; [lia|].
    change (path_Clean_loop (S fuel) false (r_slash :: join_slash (d :: cs) ++ rest))
      with (path_Clean_loop fuel false (join_slash (d :: cs) ++ rest)).
    destruct (IH fuel rest
                (rev c ++ (if (length rev_out =? 0)%nat then rev_out
                           else r_slash :: rev_out)))
      as (fuel' & Hf & Heq); [discriminate|exact Hall|exact Hrest|lia|].
    exists fuel'. split; [exact Hf|]. rewrite Heq.
    replace (length (rev c ++ (if (length rev_out =? 0)%nat then rev_out
                               else r_slash :: rev_out)) =? 0)%nat
      with false.
    + rewrite rev_app_distr. cbn [rev]. rewrite <- !app_assoc. reflexivity.
    + symmetry. apply Nat.eqb_neq. rewrite length_app, length_rev. lia.
Qed.

Lemma join_slash_app a b :
  a <> [] -> b <> [] ->
  join_slash (a ++ b) = join_slash a ++ r_slash :: join_slash b.
Proof.
  intros Ha Hb. induction a as [|x a IHa]; [congruence|].
  destruct a as [|y a].
  - destruct b; [congruence|reflexivity].
  - change ((x :: y :: a) ++ b) with (x :: (y :: a) ++ b).
    change ((y :: a) ++ b) with (y :: a ++ b) at 1.
    rewrite join_slash_cons.
    change (y :: a ++ b) with ((y :: a) ++ b).
    rewrite IHa by discriminate. rewrite join_slash_cons.
    rewrite <- app_assoc. reflexivity.
Qed.

Lemma join_slash_nonempty cs :
  cs <> [] -> Forall simple_name cs -> join_slash cs <> [].
Proof.
  destruct cs as [|c cs]; [congruence|]. intros _ Hall.
  apply Forall_cons in Hall as [(Hc & _) _].
  destruct cs; cbn [join_slash]; destruct c; try congruence; discriminate.
Qed.

(** [path.Clean] on a relative path of plain names in which slashes may be
    doubled once, and which may end in a slash. *)
Lemma path_Clean_relative ds cs :
  ds <> [] -> Forall simple_name ds -> Forall simple_name cs ->
  path_Clean (join_slash ds) = join_slash ds
  /\ path_Clean (join_slash ds ++ [r_slash]) = join_slash ds
  /\ (cs <> [] ->
      path_Clean (join_slash ds ++ r_slash :: r_slash :: join_slash cs)
      = join_slash (ds ++ cs)).
Proof.
  intros Hne Hds Hcs.
  pose proof (join_slash_nonempty ds Hne Hds) as Hnil.
  assert (Hhead : forall rest,
            exists x p, join_slash ds ++ rest = x :: p /\ (x =? r_slash) = false).
  { intros rest. destruct ds as [|d ds]; [congruence|].
    apply Forall_cons in Hds as [(Hd & Hslash & _) _].
    destruct d as [|x d]; [congruence|].
    apply not_elem_of_cons in Hslash as [Hx _].
    exists x. destruct ds; cbn [join_slash app]; eexists;
      (split; [reflexivity|apply Z.eqb_neq; congruence]). }
  assert (Hclean : forall rest out,
            (forall fuel, (length rest <= fuel)%nat ->
                          path_Clean_loop fuel false rest
                            (rev (join_slash ds)) 0%nat = rev out) ->
            match rest with [] => True | d :: _ => d = r_slash end ->
            out <> [] ->
            path_Clean (join_slash ds ++ rest) = out).
  { intros rest out Hloop Hrest Hout.
    destruct (Hhead rest) as (x & p & Hp & Hx).
    unfold path_Clean. rewrite Hp, Hx. rewrite <- Hp.
    destruct (path_Clean_loop_names_relative ds (length (join_slash ds ++ rest))
                rest [] Hne Hds Hrest ltac:(lia)) as (fuel' & Hf & Heq).
    rewrite Heq. cbn [length Nat.eqb]. rewrite app_nil_r.
    rewrite Hloop by exact Hf.
    destruct (rev out) eqn:E.
    - apply (f_equal (@rev rune)) in E. rewrite rev_involutive in E.
      cbn in E. congruence.
    - rewrite <- E. apply rev_involutive. }
  split; [|split].
  - rewrite <- (app_nil_r (join_slash ds)) at 1.
    apply Hclean; [|exact I|exact Hnil].
    intros fuel _. apply path_Clean_loop_end.
  - apply Hclean; [|reflexivity|exact Hnil].
    intros [|fuel] Hf; [simpl in Hf; lia|].
    cbn [path_Clean_loop]. change (r_slash =? r_slash) with true. cbn iota.
    apply path_Clean_loop_end.
  - intros Hcne. apply Hclean; [|reflexivity|].
    + intros [|[|fuel]] Hf; [simpl in Hf; lia|simpl in Hf; lia|].
      cbn [path_Clean_loop]. change (r_slash =? r_slash) with true. cbn iota.
      rewrite <- (app_nil_r (join_slash cs)).
      destruct (path_Clean_loop_names_relative cs fuel [] (rev (join_slash ds))
                  Hcne Hcs I) as (fuel' & _ & Heq).
      { rewrite app_nil_r. cbn [length] in Hf. lia. }
      rewrite Heq, path_Clean_loop_end.
      replace (length (rev (join_slash ds)) =? 0)%nat with false.
      * rewrite join_slash_app by assumption.
        rewrite rev_app_distr. cbn [rev]. rewrite <- app_assoc. reflexivity.
      * symmetry. apply Nat.eqb_neq. rewrite length_rev.
        destruct (join_slash ds); [congruence|simpl; lia].
    + rewrite join_slash_app by assumption. destruct (join_slash ds); discriminate.
Qed.

Lemma strings_HasPrefix_app p rest : strings_HasPrefix (p ++ rest) p = true.
Proof. unfold strings_HasPrefix. rewrite cut_prefix_app. reflexivity. Qed.

(** The name of a page file, made from the name asked for, is a plain name. *)
Lemma page_file_name_simple name :
  simple_name name ->
  simple_name (removeExtension name ++ runes_of ".template.html").
Proof.
  intros (_ & Hslash & _).
  destruct (path_Ext_split name) as (stem & Hp & -> & _).
  assert (Hstem : r_slash ∉ stem).
  { intros Hin. apply Hslash. rewrite Hp. apply elem_of_app. left. exact Hin. }
  split; [|split; [|split]].
  - destruct stem; discriminate.
  - intros Hin. apply elem_of_app in Hin as [Hin | Hin]; [exact (Hstem Hin)|].
    apply list_elem_of_In in Hin. cbv in Hin. intuition discriminate.
  - intros H. apply (f_equal (@length rune)) in H. rewrite length_app in H.
    simpl in H. lia.
  - intros H. apply (f_equal (@length rune)) in H. rewrite length_app in H.
    simpl in H. lia.
Qed.

Lemma path_Join_two a b :
  a <> [] -> path_Join [a; b] = path_Clean (a ++ r_slash :: b).
Proof.
  intros Ha. unfold path_Join.
  replace (length (concat [a; b]) =? 0)%nat with false.
  - assert (Hstep : path_Join_loop [a; b] [] = path_Join_loop [b] a).
    { change (path_Join_loop [a; b] [])
        with (if (0 <? 0)%nat || negb (gostring_eqb a [])
              then path_Join_loop [b] ([] ++ a)
              else path_Join_loop [b] []).
      replace (gostring_eqb a []) with false
        by (symmetry; apply gostring_eqb_false; exact Ha).
      reflexivity. }
    rewrite Hstep, path_Join_loop_cons by exact Ha. reflexivity.
  - symmetry. apply Nat.eqb_neq. cbn [concat]. rewrite length_app.
    destruct a; [congruence|simpl; lia].
Qed.

Section Routes.

Variable json_Unmarshal : gostring -> option (gmap gostring gostring).

(** X22. The route of a page. For a pages directory that is a relative path
    of plain names, the request for a rooted path of plain names is answered
    from the page file found by dropping the first element of the path,
    whatever it is, putting the pages directory in its place, and replacing
    the extension of the last element by [.template.html]. *)
Theorem pages_route cfg fs w ds first mid name draw :
  pagesDir cfg = join_slash ds ->
  ds <> [] ->
  Forall simple_name ds ->
  simple_name first ->
  Forall simple_name mid ->
  simple_name name ->
  handlePages json_Unmarshal cfg fs w
    (r_slash :: join_slash (first :: mid ++ [name])) draw
  = serveTemplateFile json_Unmarshal cfg fs w
      (join_slash (ds ++ mid
                   ++ [removeExtension name ++ runes_of ".template.html"])) draw.
Proof.
  intros Hpages Hne Hds Hfirst Hmid Hname.
  set (page := removeExtension name ++ runes_of ".template.html").
  assert (Hpage : simple_name page) by apply page_file_name_simple, Hname.
  assert (Hrest : Forall simple_name (mid ++ [page])).
  { apply Forall_app. split; [exact Hmid|]. constructor; [exact Hpage|constructor]. }
  assert (Hreq : requestedTemplatePath cfg
                   (r_slash :: join_slash (first :: mid ++ [name]))
                 = join_slash (ds ++ mid ++ [page])).
  { unfold requestedTemplatePath, removeFirstPathComponent.
    rewrite path_Clean_rooted
      by (constructor; [exact Hfirst|]; apply Forall_app; split;
          [exact Hmid|constructor; [exact Hname|constructor]]).
    unfold strings_TrimPrefix. cbn [cut_prefix]. rewrite Z.eqb_refl.
    destruct Hfirst as (_ & Hf & _).
    destruct (strings_SplitN2_name first Hf) as [_ H2].
    assert (Hjoin : join_slash (first :: mid ++ [name])
                    = first ++ r_slash :: join_slash (mid ++ [name])).
    { destruct mid; reflexivity. }
    rewrite Hjoin, H2.
    assert (Hlast : removeExtension (r_slash :: join_slash (mid ++ [name]))
                      ++ runes_of ".template.html"
                    = r_slash :: join_slash (mid ++ [page])).
    { destruct Hname as (_ & Hn & _). destruct mid as [|m mid].
      - cbn [app join_slash].
        pose proof (removeExtension_last_element [] name Hn) as H0.
        cbn [app] in H0. rewrite H0. reflexivity.
      - rewrite !join_slash_app by discriminate.
        change (join_slash [name]) with name.
        change (join_slash [page]) with page.
        change (r_slash :: join_slash (m :: mid) ++ r_slash :: name)
          with ((r_slash :: join_slash (m :: mid)) ++ r_slash :: name).
        rewrite (removeExtension_last_element _ name Hn).
        cbn [app]. rewrite <- app_assoc. reflexivity. }
    rewrite Hlast, path_Join_two
      by (rewrite Hpages; apply join_slash_nonempty; assumption).
    rewrite Hpages.
    destruct (path_Clean_relative ds (mid ++ [page]) Hne Hds Hrest) as (_ & _ & H3).
    rewrite H3 by (destruct mid; discriminate).
    destruct (path_Clean_relative (ds ++ mid ++ [page]) []) as (H1 & _);
      [destruct ds; [congruence|discriminate]
      |apply Forall_app; split; assumption|constructor|].
    exact H1. }
  unfold handlePages. rewrite Hreq, Hpages.
  destruct (path_Clean_relative ds [] Hne Hds) as (_ & H2 & _); [constructor|].
  rewrite H2. rewrite join_slash_app by (try exact Hne; destruct mid; discriminate).
  rewrite strings_HasPrefix_app. reflexivity.
Qed.

(** X23. A request for a page always gets an answer, and the answer tells
    nothing about what went wrong: when the page file does not exist it is
    the fixed not-found answer; otherwise it is either the fixed server-error
    answer or an HTML answer with status 200 whose body ends in a line
    break. *)
Theorem serveTemplateFile_answers cfg fs w templatePath draw :
  exists r,
    serveTemplateFile json_Unmarshal cfg fs w templatePath draw = Some r
    /\ (fileExists fs templatePath = false ->
        r = http_Error msg_not_found StatusNotFound)
    /\ (fileExists fs templatePath = true ->
        r = http_Error msg_internal StatusInternalServerError
        \/ (status r = StatusOK
            /\ contentType r = runes_of "text/html; charset=utf-8"
            /\ exists rendered, body r = rendered ++ [r_newline])).
Proof.
  unfold serveTemplateFile.
  destruct (fileExists fs templatePath); cbn [negb].
  2:{ eexists. split; [reflexivity|]. split; [reflexivity|discriminate]. }
  destruct (NewTemplateInputFromFile json_Unmarshal fs templatePath (staticDir cfg))
    as [e|templateInput].
  { eexists. split; [reflexivity|]. split; [discriminate|]. left. reflexivity. }
  unfold TemplateInput_Render.
  destruct (Template_Render_total w (content templateInput) draw) as [r1 ->].
  destruct r1 as [[templateInputContent draw']|e].
  2:{ eexists. split; [reflexivity|]. split; [discriminate|]. left. reflexivity. }
  destruct (NewTemplateFromFile fs _ _) as [e|template].
  { eexists. split; [reflexivity|]. split; [discriminate|]. left. reflexivity. }
  destruct (Template_Render_total w template draw') as [r2 ->].
  destruct r2 as [[renderedTemplate d2]|e].
  2:{ eexists. split; [reflexivity|]. split; [discriminate|]. left. reflexivity. }
  eexists. split; [reflexivity|]. split; [discriminate|]. intros _. right.
  cbn [status contentType body]. eauto.
Qed.

(** X24. How a page and the default template are put together. The page is
    rendered first; the default template is then compiled with the rendered
    page as its content and the variables of the page as its variables. For a
    default template holding one code block, the answer is the text before
    the block, what the block evaluates to in that context, and the text
    after it; the rendered page is put in as it is and is not read as a
    template again. *)
Theorem serve_default_template cfg fs w templatePath draw templateInput
    templateInputContent draw' pre raw post :
  fileExists fs templatePath = true ->
  NewTemplateInputFromFile json_Unmarshal fs templatePath (staticDir cfg)
  = inr templateInput ->
  TemplateInput_Render w templateInput draw
  = Some (Ok (templateInputContent, draw')) ->
  ReadFile fs (path_Join [templatesDir cfg; defaultTemplate cfg])
  = Some (pre ++ r_lbrace :: raw ++ r_rbrace :: post) ->
  escapes_complete pre = true ->
  no_unescaped_open pre = true ->
  escapes_complete raw = true ->
  no_unescaped_close raw = true ->
  no_unescaped_open post = true ->
  serveTemplateFile json_Unmarshal cfg fs w templatePath draw
  = match CodePortion_Render w
            {| StaticDir := staticDir cfg;
               Content := templateInputContent;
               Variables := variables templateInput |}
            (loc_after {| path := path_Join [templatesDir cfg; defaultTemplate cfg];
                          row := 1; column := 1 |} (pre ++ [r_lbrace]))
            (resolve_escapes raw) draw' with
    | Some (Ok (s, _)) =>
        Some {| status := StatusOK;
                contentType := runes_of "text/html; charset=utf-8";
                body := resolve_escapes pre ++ s ++ resolve_escapes post
                        ++ [r_newline] |}
    | Some (Err _) => Some (http_Error msg_internal StatusInternalServerError)
    | None => None
    end.
Proof.
  intros Hex Hin Hrender Hread Hpe Hpo Hre Hrc Hqo.
  unfold serveTemplateFile. rewrite Hex, Hin, Hrender. cbn [negb].
  unfold NewTemplateFromFile. rewrite Hread.
  rewrite compile_one_block by assumption.
  unfold Template_Render. cbn [portions app Render_loop Portion_Render].
  destruct (CodePortion_Render _ _ _ _ _) as [[[s d]|e]|]; [|reflexivity|reflexivity].
  destruct (gostring_eqb (resolve_escapes post) []) eqn:Hq.
  - apply gostring_eqb_true in Hq. rewrite Hq. cbn [Render_loop app].
    rewrite <- !app_assoc. reflexivity.
  - cbn [Render_loop Portion_Render app]. rewrite <- !app_assoc. reflexivity.
Qed.

(** X26. The route of the root. With a pages directory that is a relative
    path of plain names, the request for the path made of one slash is
    answered from the file [index.template.html] of the pages directory, and
    the request for any other path gets the fixed not-found answer. *)
Theorem root_route cfg fs w ds urlPath draw :
  pagesDir cfg = join_slash ds ->
  ds <> [] ->
  Forall simple_name ds ->
  handleRoot json_Unmarshal cfg fs w urlPath draw
  = if gostring_eqb urlPath [r_slash]
    then serveTemplateFile json_Unmarshal cfg fs w
           (join_slash (ds ++ [runes_of "index.template.html"])) draw
    else Some (http_Error msg_not_found StatusNotFound).
Proof.
  intros Hpages Hne Hds. unfold handleRoot.
  destruct (gostring_eqb urlPath [r_slash]); cbn [negb]; [|reflexivity].
  rewrite path_Join_two
    by (rewrite Hpages; apply join_slash_nonempty; assumption).
  rewrite Hpages.
  change (join_slash ds ++ r_slash :: runes_of "index.template.html")
    with (join_slash ds ++ r_slash :: join_slash [runes_of "index.template.html"]).
  rewrite <- join_slash_app by (try exact Hne; discriminate).
  destruct (path_Clean_relative (ds ++ [runes_of "index.template.html"]) [])
    as (H1 & _);
    [destruct ds; [congruence|discriminate]
    |apply Forall_app; split; [exact Hds|]; constructor; [|constructor]
    |constructor|].
  - split; [discriminate|]. split; [|split; discriminate].
    intros H. apply list_elem_of_In in H. cbv in H. intuition discriminate.
  - rewrite H1. reflexivity.
Qed.

End Routes.

(** ** The further properties at sample inputs *)

Ltac plain_name :=
  split; [discriminate|];
  split; [let H := fresh in
          intros H; apply list_elem_of_In in H; cbv in H; intuition discriminate|];
  split; discriminate.

(** X1 at the code text of two spaces and [var(x)]: the word [var] is found at
    column 3 and the tokenizer stops at column 6. *)
Lemma NextToken_consumes_and_locates_witness :
  let t := NewTokenizer Site.code_spaced Sample.page in
  let tok := {| kind := TokenKindWord; value := runes_of "var";
                location := {| path := path Sample.page; row := 1; column := 3 |} |} in
  let t' := {| t_runes := runes_of "(x)";
               t_location := {| path := path Sample.page; row := 1; column := 6 |} |} in
  NextToken t = Ok (Some tok, t')
  /\ exists ws lexeme,
      t_runes t = ws ++ lexeme ++ t_runes t'
      /\ forallb IsSpace ws = true
      /\ lexeme <> []
      /\ match lexeme with [] => True | c :: _ => IsSpace c = false end
      /\ location tok = loc_after (t_location t) ws
      /\ t_location t' = loc_after (t_location t) (ws ++ lexeme).
Proof.
  intros t tok t'. split; [by_eval|].
  exact (NextToken_consumes_and_locates t tok t' eq_refl).
Defined.

(** X3 at the same code text: the word [var] holds no delimiter and is
    followed by one, the opening parenthesis. *)
Lemma NextToken_token_shapes_witness :
  let t := NewTokenizer Site.code_spaced Sample.page in
  let tok := {| kind := TokenKindWord; value := runes_of "var";
                location := {| path := path Sample.page; row := 1; column := 3 |} |} in
  let t' := {| t_runes := runes_of "(x)";
               t_location := {| path := path Sample.page; row := 1; column := 6 |} |} in
  NextToken t = Ok (Some tok, t')
  /\ value tok <> []
  /\ forallb (fun c => negb (is_delimiter c)) (value tok) = true
  /\ is_delimiter r_lparen = true.
Proof.
  intros t tok t'. split; [by_eval|].
  exact (NextToken_token_shapes t tok t' eq_refl).
Defined.

(** X6 at the argument list [(a], which is never closed: the error carries
    the location passed for the code portion. *)
Lemma parseFunctionArgs_errors_witness :
  let e := ErrTemplateUnexpectedEof Sample.page in
  parseFunctionArgs Site.at_open_args Sample.page = Some (Err e)
  /\ (e = ErrTemplateUnexpectedEof Sample.page
      \/ e = ErrTokenizerUnterminatedString
               (loc_after (t_location Site.at_open_args) (t_runes Site.at_open_args))
      \/ exists tok, e = ErrTemplateUnexpectedToken tok).
Proof.
  intros e. split; [by_eval|].
  exact (parseFunctionArgs_errors Site.at_open_args Sample.page e eq_refl).
Defined.

(** X7 at the argument list [(a, b) tail]. *)
Lemma parseFunctionArgs_arguments_witness :
  exists args t',
    parseFunctionArgs Site.at_args Sample.page = Some (Ok (args, t'))
    /\ length args = 2%nat
    /\ Forall (fun a => IsSingleChar a r_rparen = false
                        /\ IsSingleChar a r_comma = false) args
    /\ (2 * length args + 1 + length (t_runes t') <= length (t_runes Site.at_args))%nat.
Proof.
  do 2 eexists. split; [by_eval|]. split; [reflexivity|].
  apply (parseFunctionArgs_arguments Site.at_args Sample.page). by_eval.
Defined.

(** X9 at the code portion [content(x)], with the sample random source. *)
Lemma Template_Render_never_panics_witness :
  let t := {| portions :=
                [TemplateCodePortion Sample.ctx Sample.page Sample.code_content_x] |} in
  rand_ok Sample.world
  /\ exists e,
      Template_Render Sample.world t 0 = Some (Err e)
      /\ e <> Panic /\ is_Some (error_location e).
Proof.
  intros t.
  assert (Hrand : rand_ok Sample.world) by (intros k n Hn; simpl; lia).
  split; [exact Hrand|]. eexists. split; [by_eval|].
  apply (Template_Render_never_panics Sample.world t 0%nat _ Hrand). by_eval.
Defined.

(** X10 for [content] and one space. *)
Lemma code_that_ends_early_witness :
  word_content ∈ [word_var; word_content; word_choose]
  /\ forallb IsSpace [32] = true
  /\ CodePortion_Render Sample.world Sample.ctx Sample.page [32] 0
     = Some (Err (ErrTemplateUnexpectedEof Sample.page))
  /\ CodePortion_Render Sample.world Sample.ctx Sample.page (word_content ++ [32]) 0
     = Some (Err (ErrTemplateUnexpectedEof Sample.page))
  /\ CodePortion_Render Sample.world Sample.ctx Sample.page
       (word_content ++ r_lparen :: [32]) 0
     = Some (Err (ErrTemplateUnexpectedEof Sample.page)).
Proof.
  assert (Hin : word_content ∈ [word_var; word_content; word_choose])
    by (apply elem_of_cons; right; apply elem_of_cons; left; reflexivity).
  split; [exact Hin|]. split; [reflexivity|].
  exact (code_that_ends_early Sample.world Sample.ctx Sample.page word_content [32]
           0%nat Hin eq_refl).
Defined.

(** X11 at a space, [content], an opening parenthesis, a line break, a closing
    parenthesis and the text [ignored]. *)
Lemma content_directive_layout_witness :
  forallb IsSpace [32] = true
  /\ forallb IsSpace [] = true
  /\ forallb IsSpace [r_newline] = true
  /\ CodePortion_Render Sample.world Sample.ctx Sample.page
       ([32] ++ word_content ++ [] ++ r_lparen :: [r_newline]
        ++ r_rparen :: runes_of "ignored") 0
     = Some (Ok (Content Sample.ctx, 0%nat)).
Proof.
  split; [reflexivity|]. split; [reflexivity|]. split; [reflexivity|].
  exact (content_directive_layout Sample.world Sample.ctx Sample.page [32] []
           [r_newline] (runes_of "ignored") 0%nat eq_refl eq_refl eq_refl).
Defined.

(** X13 at [Sample.text_block_x]: the text compiles, rendering fails on the
    word [x], and the error names the file of [Sample.page]. *)
Lemma errors_name_the_template_file_witness :
  let t := {| portions :=
                [TemplateTextPortion [];
                 TemplateCodePortion Sample.ctx
                   {| path := path Sample.page; row := 1; column := 2 |}
                   (runes_of "x")] |} in
  let e := ErrTemplateUnexpectedToken
             {| kind := TokenKindWord; value := runes_of "x";
                location := {| path := path Sample.page; row := 1; column := 2 |} |} in
  rand_ok Sample.world
  /\ NewTemplateFromString Sample.page Sample.text_block_x Sample.ctx = Ok t
  /\ Template_Render Sample.world t 0 = Some (Err e)
  /\ error_in_file (path Sample.page) e.
Proof.
  intros t e.
  assert (Hrand : rand_ok Sample.world) by (intros k n Hn; simpl; lia).
  split; [exact Hrand|]. split; [by_eval|]. split; [by_eval|].
  exact (errors_name_the_template_file Sample.world Sample.page Sample.text_block_x
           Sample.ctx 0%nat Hrand e eq_refl).
Defined.

(** X14 at [Site.text_mixed]: a text portion, a code portion, a text
    portion. *)
Lemma compiled_portions_alternate_witness :
  exists t,
    NewTemplateFromString Sample.page Site.text_mixed Sample.ctx = Ok t
    /\ length (portions t) = 3%nat
    /\ alternating true (portions t) = true.
Proof.
  eexists. split; [by_eval|]. split; [reflexivity|].
  apply (compiled_portions_alternate Sample.page Site.text_mixed Sample.ctx).
  by_eval.
Defined.

(** X16 at the default template of the sample site, in the sample context. *)
Lemma one_block_template_witness :
  escapes_complete Site.wrapper_pre = true
  /\ no_unescaped_open Site.wrapper_pre = true
  /\ escapes_complete (runes_of "content()") = true
  /\ no_unescaped_close (runes_of "content()") = true
  /\ no_unescaped_open Site.wrapper_post = true
  /\ exists t,
      NewTemplateFromString Sample.page Site.wrapper Sample.ctx = Ok t
      /\ Template_Render Sample.world t 0
         = Some (Ok (runes_of "<main><p>body</p></main>", 0%nat)).
Proof.
  repeat (split; [reflexivity|]).
  destruct (one_block_template Sample.world Sample.page Sample.ctx Site.wrapper_pre
              (runes_of "content()") Site.wrapper_post 0%nat
              eq_refl eq_refl eq_refl eq_refl eq_refl) as (t & Hc & Hr).
  exists t. split; [exact Hc|]. rewrite Hr. by_eval.
Defined.

(** X18 at [Site.json_comment]. *)
Lemma removeComments_only_deletes_witness :
  removeCommentsFromJson Site.json_comment = Ok (runes_of "{}")
  /\ sublist (runes_of "{}") Site.json_comment.
Proof.
  assert (H : removeCommentsFromJson Site.json_comment = Ok (runes_of "{}"))
    by (vm_compute; reflexivity).
  split; [exact H|].
  exact (removeComments_only_deletes Site.json_comment (runes_of "{}") H).
Defined.

(** X19 at [Site.json_open_comment]. *)
Lemma removeComments_failure_witness :
  removeCommentsFromJson Site.json_open_comment = Err ErrUnclosedComment
  /\ exists pre body,
      Site.json_open_comment = pre ++ r_slash :: r_star :: body
      /\ block_body body = true.
Proof.
  assert (H : removeCommentsFromJson Site.json_open_comment = Err ErrUnclosedComment)
    by (vm_compute; reflexivity).
  split; [exact H|].
  exact (proj2 (removeComments_failure Site.json_open_comment ErrUnclosedComment H)).
Defined.

(** X21 at the path [/pages/a/b.html]. *)
Lemma removeFirstPathComponent_drops_first_witness :
  Forall simple_name [runes_of "pages"; runes_of "a"; runes_of "b.html"]
  /\ removeFirstPathComponent (runes_of "/pages/a/b.html") = runes_of "/a/b.html".
Proof.
  assert (H : Forall simple_name [runes_of "pages"; runes_of "a"; runes_of "b.html"])
    by (repeat (constructor; [plain_name|]); constructor).
  split; [exact H|].
  exact (removeFirstPathComponent_drops_first (runes_of "pages")
           [runes_of "a"; runes_of "b.html"] H).
Defined.

(** X22 at the sample site: the request for [/pages/index.html] is answered
    from [pages/index.template.html]. *)
Lemma pages_route_witness :
  pagesDir Site.cfg = join_slash [runes_of "pages"]
  /\ Forall simple_name [runes_of "pages"]
  /\ simple_name (runes_of "index.html")
  /\ handlePages Site.decode Site.cfg Site.files Sample.world
       (runes_of "/pages/index.html") 0
     = serveTemplateFile Site.decode Site.cfg Site.files Sample.world
         (runes_of "pages/index.template.html") 0.
Proof.
  assert (Hp : simple_name (runes_of "pages")) by plain_name.
  assert (Hn : simple_name (runes_of "index.html")) by plain_name.
  assert (Hds : Forall simple_name [runes_of "pages"]) by (constructor; [exact Hp|constructor]).
  split; [reflexivity|]. split; [exact Hds|]. split; [exact Hn|].
  exact (pages_route Site.decode Site.cfg Site.files Sample.world
           [runes_of "pages"] (runes_of "pages") [] (runes_of "index.html") 0%nat
           eq_refl ltac:(discriminate) Hds Hp (Forall_nil_2 simple_name) Hn).
Defined.

(** X24 at the sample site: the body of the page, with its escapes resolved,
    stands between the two texts of the default template, braces and all. *)
Lemma serve_default_template_witness :
  let p := runes_of "pages/index.template.html" in
  exists templateInput,
    fileExists Site.files p = true
    /\ NewTemplateInputFromFile Site.decode Site.files p (staticDir Site.cfg)
       = inr templateInput
    /\ TemplateInput_Render Sample.world templateInput 0
       = Some (Ok (runes_of "Hello {you}", 0%nat))
    /\ ReadFile Site.files (path_Join [templatesDir Site.cfg; defaultTemplate Site.cfg])
       = Some (Site.wrapper_pre ++ r_lbrace :: runes_of "content()"
               ++ r_rbrace :: Site.wrapper_post)
    /\ serveTemplateFile Site.decode Site.cfg Site.files Sample.world p 0
       = Some {| status := StatusOK;
                 contentType := runes_of "text/html; charset=utf-8";
                 body := runes_of "<main>Hello {you}</main>" ++ [r_newline] |}.
Proof.
  intros p.
  assert (Hin : exists templateInput,
             NewTemplateInputFromFile Site.decode Site.files p (staticDir Site.cfg)
             = inr templateInput
             /\ TemplateInput_Render Sample.world templateInput 0
                = Some (Ok (runes_of "Hello {you}", 0%nat))).
  { eexists. split; [vm_compute; reflexivity|]. vm_compute. reflexivity. }
  destruct Hin as (templateInput & Hin & Hrender).
  exists templateInput.
  split; [reflexivity|]. split; [exact Hin|]. split; [exact Hrender|].
  split; [reflexivity|].
  rewrite (serve_default_template Site.decode Site.cfg Site.files Sample.world p
             0%nat templateInput (runes_of "Hello {you}") 0%nat
             Site.wrapper_pre (runes_of "content()") Site.wrapper_post
             eq_refl Hin Hrender eq_refl eq_refl eq_refl eq_refl eq_refl eq_refl).
  vm_compute. reflexivity.
Defined.

(** X25 at the text [a{b]: the block opened in column 2 is never closed. *)
Lemma compile_error_is_unterminated_block_witness :
  let e := ErrTemplateUnterminatedCodeBlock
             {| path := path Sample.page; row := 1; column := 2 |} in
  int_ok (column Sample.page)
  /\ NewTemplateFromString Sample.page (runes_of "a{b") Sample.ctx = Err e
  /\ exists pre rest,
      runes_of "a{b" = pre ++ r_lbrace :: rest
      /\ ends_in false pre = Some false
      /\ e = ErrTemplateUnterminatedCodeBlock (loc_after Sample.page pre).
Proof.
  intros e.
  assert (H : int_ok (column Sample.page)) by (unfold int_ok; simpl; lia).
  split; [exact H|]. split; [by_eval|].
  exact (compile_error_is_unterminated_block Sample.page (runes_of "a{b") Sample.ctx
           e H eq_refl).
Defined.

(** X26 at the sample site: the root is answered from
    [pages/index.template.html], and so with the page put into the default
    template. *)
Lemma root_route_witness :
  pagesDir Site.cfg = join_slash [runes_of "pages"]
  /\ Forall simple_name [runes_of "pages"]
  /\ handleRoot Site.decode Site.cfg Site.files Sample.world [r_slash] 0
     = serveTemplateFile Site.decode Site.cfg Site.files Sample.world
         (runes_of "pages/index.template.html") 0.
Proof.
  assert (Hp : simple_name (runes_of "pages")) by plain_name.
  assert (Hds : Forall simple_name [runes_of "pages"])
    by (constructor; [exact Hp|constructor]).
  split; [reflexivity|]. split; [exact Hds|].
  exact (root_route Site.decode Site.cfg Site.files Sample.world
           [runes_of "pages"] [r_slash] 0%nat eq_refl ltac:(discriminate) Hds).
Defined.
